(** * subtitle-matcher: the matching engine of package subtitlematcher

    A shallow embedding of the Go package [subtitlematcher]: configuration
    by functional options ([New]), the directory scan ([scanFiles]), title
    normalisation ([normalizeTitle]), the LCS similarity
    ([longestCommonSubsequence], [calculateSimilarity]), best-match selection
    ([findBestMatch]) and the renaming loop ([Match]), and of the example
    program that uses it ([main]), followed by the properties its
    specification states and further properties of the code.

    How the Go program is read:
    - a [string] is its sequence of bytes ([list ascii]);
    - an [int] is an integer of [Z]: the only [int] arithmetic is on lengths
      and on cells of the LCS table, which stay between 0 and the length of
      a string (lemma [lcsLength_range]), so nothing wraps around;
    - a [float64] is a binary64 number of the Standard Library's [SpecFloat],
      with its NaN, infinities and signed zeros, rounded to nearest even;
    - the functions of packages [strings], [regexp] and [path/filepath] the
      program calls are modelled for what it passes them, [filepath] for a
      Unix target; what depends on the Unicode tables (class [Unicode],
      with the properties [UnicodeLaws] where a proof reaches it) and the
      operating system (class [FileSystem]) is an interface;
    - loops are folds over the slice they range over; the loop of [Match]
      threads the results appended so far, the file system and the list of
      [os.Rename] calls issued;
    - the console output of the verbose mode is left out, and of the output
      of the example program only the rows of its detailed results are kept. *)

From Stdlib Require Import Ascii String ZArith Lia Bool List.
From Stdlib Require Import Floats.SpecFloat.
Import ListNotations.
Local Open Scope Z_scope.

(** * Go values *)

(** A Go [string] is an immutable sequence of bytes; [len] counts bytes and
    indexing yields a byte. *)
Abbreviation gostring := (list ascii).

Definition gs (s : string) : gostring := list_ascii_of_string s.

Definition len (s : gostring) : Z := Z.of_nat (length s).

(** [s1 == s2] on strings. *)
Fixpoint string_eqb (s1 s2 : gostring) : bool :=
  match s1, s2 with
  | [], [] => true
  | c1 :: t1, c2 :: t2 => Ascii.eqb c1 c2 && string_eqb t1 t2
  | _, _ => false
  end.

Definition byteIn (lo hi : nat) (c : ascii) : bool :=
  (lo <=? nat_of_ascii c)%nat && (nat_of_ascii c <=? hi)%nat.

(** [c < utf8.RuneSelf] *)
Definition isASCII (c : ascii) : bool := (nat_of_ascii c <? 128)%nat.

(** ** float64 (IEEE 754 binary64, round to nearest even) *)

Abbreviation float64 := spec_float.
Definition f64_prec : Z := 53.
Definition f64_emax : Z := 1024.

(** [float64(n)] for an [int] n. *)
Definition f64_of_int (z : Z) : float64 := binary_normalize f64_prec f64_emax z 0 false.
Definition f64_div (x y : float64) : float64 := SFdiv f64_prec f64_emax x y.
(** [x <= y], [x < y], [x == y]; all false when an operand is NaN. *)
Definition f64_le (x y : float64) : bool := SFleb x y.
Definition f64_lt (x y : float64) : bool := SFltb x y.
Definition f64_eq (x y : float64) : bool := SFeqb x y.
Definition f64_ge (x y : float64) : bool := f64_le y x.
Definition f64_gt (x y : float64) : bool := f64_lt y x.

(** The literals [0.0], [1.0] and [0.6]. *)
Definition f64_zero : float64 := S754_zero false.
Definition f64_one : float64 := S754_finite false 4503599627370496 (-52).
Definition f64_0_6 : float64 := S754_finite false 5404319552844595 (-53).

(** The largest [int] on a 64-bit target; [len] never exceeds it. *)
Definition maxInt : Z := 2 ^ 63 - 1.

(** * Package strings *)

Fixpoint HasPrefix (s prefix : gostring) {struct prefix} : bool :=
  match prefix, s with
  | [], _ => true
  | p :: prefix', c :: s' => Ascii.eqb c p && HasPrefix s' prefix'
  | _ :: _, [] => false
  end.

Definition HasSuffix (s suffix : gostring) : bool :=
  (length suffix <=? length s)%nat
  && string_eqb (skipn (length s - length suffix) s) suffix.

Definition TrimSuffix (s suffix : gostring) : gostring :=
  if HasSuffix s suffix then firstn (length s - length suffix) s else s.

(** Left-to-right replacement of non-overlapping matches.  [m t] gives the
    length of the match that starts at the head of [t], if there is one;
    [skip] counts the bytes of the current match still to be dropped.  Both
    [strings.ReplaceAll] with a non-empty pattern and
    [Regexp.ReplaceAllString] with a pattern that matches no empty string
    scan this way. *)
Fixpoint replaceMatches (m : gostring -> option nat) (repl : gostring)
         (skip : nat) (s : gostring) : gostring :=
  match s with
  | [] => []
  | c :: s' =>
      match skip with
      | S k => replaceMatches m repl k s'
      | O =>
          match m s with
          | Some (S n) => repl ++ replaceMatches m repl n s'
          | _ => c :: replaceMatches m repl 0 s'
          end
      end
  end.

Definition matchLiteral (old : gostring) (s : gostring) : option nat :=
  if HasPrefix s old then Some (length old) else None.

(** [strings.ReplaceAll(s, old, new)]; the program only passes non-empty
    literals for [old]. *)
Definition ReplaceAll (s old new : gostring) : gostring :=
  replaceMatches (matchLiteral old) new 0 s.

(** The table [asciiSpace] of package strings. *)
Definition isAsciiSpace (c : ascii) : bool :=
  byteIn 9 13 c || (nat_of_ascii c =? 32)%nat.

(** The parts of the Go library that depend on the Unicode tables: they are
    reached only by strings holding a byte >= 0x80. *)
Class Unicode : Type := {
  (** [strings.TrimFunc(s, unicode.IsSpace)] *)
  unicode_TrimFunc : gostring -> gostring;
  (** [strings.TrimRightFunc(s, unicode.IsSpace)] *)
  unicode_TrimRightFunc : gostring -> gostring;
  (** [strings.Map(unicode.ToLower, s)] *)
  unicode_MapToLower : gostring -> gostring
}.

(** One scanning loop of [strings.TrimSpace]: drops ASCII space from the
    front; the flag tells that a byte >= 0x80 stopped the scan. *)
Fixpoint trimScan (s : gostring) : gostring * bool :=
  match s with
  | [] => ([], false)
  | c :: s' =>
      if negb (isASCII c) then (s, true)
      else if isAsciiSpace c then trimScan s'
      else (s, false)
  end.

Definition TrimSpace `{Unicode} (s : gostring) : gostring :=
  let '(t, slow) := trimScan s in
  if slow then unicode_TrimFunc t
  else
    let '(r, slow') := trimScan (rev t) in
    if slow' then unicode_TrimRightFunc (rev r) else rev r.

Definition lowerASCII (c : ascii) : ascii :=
  if byteIn 65 90 c then ascii_of_nat (nat_of_ascii c + 32) else c.

Definition ToLower `{Unicode} (s : gostring) : gostring :=
  if forallb isASCII s then map lowerASCII s else unicode_MapToLower s.

Fixpoint strings_Join (elems : list gostring) (sep : gostring) : gostring :=
  match elems with
  | [] => []
  | [e] => e
  | e :: rest => e ++ sep ++ strings_Join rest sep
  end.

(** * Package regexp: the two patterns of the program *)

(** The class [[A-Za-z0-9_-]]. *)
Definition isTagChar (c : ascii) : bool :=
  byteIn 65 90 c || byteIn 97 122 c || byteIn 48 57 c
  || (nat_of_ascii c =? 95)%nat || (nat_of_ascii c =? 45)%nat.

Fixpoint runLength (p : ascii -> bool) (s : gostring) : nat :=
  match s with
  | c :: s' => if p c then S (runLength p s') else O
  | [] => O
  end.

(** A match of [\[[A-Za-z0-9_-]+\]] at the head of [s]. *)
Definition matchTag (s : gostring) : option nat :=
  match s with
  | c :: s' =>
      if Ascii.eqb c "["%char then
        let n := runLength isTagChar s' in
        if (0 <? n)%nat && Ascii.eqb (nth n s' zero) "]"%char then Some (n + 2)%nat else None
      else None
  | [] => None
  end.

(** The class [\s], which is [[\t\n\f\r ]]. *)
Definition isReSpace (c : ascii) : bool :=
  let n := nat_of_ascii c in
  (n =? 9)%nat || (n =? 10)%nat || (n =? 12)%nat || (n =? 13)%nat || (n =? 32)%nat.

(** A match of [\s+] at the head of [s]. *)
Definition matchSpaces (s : gostring) : option nat :=
  match runLength isReSpace s with
  | O => None
  | n => Some n
  end.

(** * Package path/filepath on a Unix target *)

Definition isPathSeparator (c : ascii) : bool := Ascii.eqb c "/"%char.

Fixpoint dropWhile (p : ascii -> bool) (s : gostring) : gostring :=
  match s with
  | c :: s' => if p c then dropWhile p s' else s
  | [] => []
  end.

Fixpoint takeWhile (p : ascii -> bool) (s : gostring) : gostring :=
  match s with
  | c :: s' => if p c then c :: takeWhile p s' else []
  | [] => []
  end.

(** [filepath.Ext]: scans backwards from the end up to a separator; [acc]
    holds the bytes already passed. *)
Fixpoint extScan (r acc : gostring) : gostring :=
  match r with
  | [] => []
  | c :: r' =>
      if isPathSeparator c then []
      else if Ascii.eqb c "."%char then c :: acc
      else extScan r' (c :: acc)
  end.

Definition filepath_Ext (path : gostring) : gostring := extScan (rev path) [].

Definition filepath_Base (path : gostring) : gostring :=
  match path with
  | [] => gs "."
  | _ =>
      let stripped := dropWhile isPathSeparator (rev path) in
      let elem := rev (takeWhile (fun c => negb (isPathSeparator c)) stripped) in
      match elem with
      | [] => gs "/"
      | _ => elem
      end
  end.

Fixpoint splitElems (s cur : gostring) : list gostring :=
  match s with
  | [] => [rev cur]
  | c :: s' =>
      if isPathSeparator c then rev cur :: splitElems s' [] else splitElems s' (c :: cur)
  end.

(** One path element met by [filepath.Clean]; [stack] holds the elements
    kept so far, the last one first. *)
Definition cleanStep (rooted : bool) (stack : list gostring) (e : gostring) : list gostring :=
  if string_eqb e [] || string_eqb e (gs ".") then stack
  else if string_eqb e (gs "..") then
    match stack with
    | top :: below =>
        if string_eqb top (gs "..") then e :: stack else below
    | [] => if rooted then stack else [e]
    end
  else e :: stack.

Definition filepath_Clean (path : gostring) : gostring :=
  match path with
  | [] => gs "."
  | c :: _ =>
      let rooted := isPathSeparator c in
      let stack := fold_left (cleanStep rooted) (splitElems path []) [] in
      let body := strings_Join (rev stack) (gs "/") in
      if rooted then "/"%char :: body
      else match body with [] => gs "." | _ => body end
  end.

Definition filepath_Dir (path : gostring) : gostring :=
  filepath_Clean (rev (dropWhile (fun c => negb (isPathSeparator c)) (rev path))).

Fixpoint filepath_Join (elem : list gostring) : gostring :=
  match elem with
  | [] => []
  | e :: rest =>
      match e with
      | [] => filepath_Join rest
      | _ => filepath_Clean (strings_Join elem (gs "/"))
      end
  end.


(** * Package subtitlematcher *)

Record VideoSubtitleMatcher : Type := {
  videoExtensions : list gostring;
  subtitleExtensions : list gostring;
  directory : gostring;
  similarityThreshold : float64;
  recursive : bool;
  dryRun : bool;
  verbose : bool;
  ignoreExisting : bool
}.

(** The functional options of the package, one constructor per exported
    constructor function. *)
Inductive Option : Type :=
| VideoExtensions (extensions : list gostring)
| SubtitleExtensions (extensions : list gostring)
| SimilarityThreshold (threshold : float64)
| Recursive (b : bool)
| DryRun (b : bool)
| Verbose (b : bool)
| IgnoreExisting (b : bool).

Definition applyOption (vsm : VideoSubtitleMatcher) (o : Option) : VideoSubtitleMatcher :=
  match o with
  | VideoExtensions extensions =>
      {| videoExtensions := extensions;
         subtitleExtensions := subtitleExtensions vsm; directory := directory vsm;
         similarityThreshold := similarityThreshold vsm; recursive := recursive vsm;
         dryRun := dryRun vsm; verbose := verbose vsm; ignoreExisting := ignoreExisting vsm |}
  | SubtitleExtensions extensions =>
      {| videoExtensions := videoExtensions vsm;
         subtitleExtensions := extensions; directory := directory vsm;
         similarityThreshold := similarityThreshold vsm; recursive := recursive vsm;
         dryRun := dryRun vsm; verbose := verbose vsm; ignoreExisting := ignoreExisting vsm |}
  | SimilarityThreshold threshold =>
      if f64_ge threshold f64_zero && f64_le threshold f64_one then
        {| videoExtensions := videoExtensions vsm;
           subtitleExtensions := subtitleExtensions vsm; directory := directory vsm;
           similarityThreshold := threshold; recursive := recursive vsm;
           dryRun := dryRun vsm; verbose := verbose vsm; ignoreExisting := ignoreExisting vsm |}
      else vsm
  | Recursive b =>
      {| videoExtensions := videoExtensions vsm;
         subtitleExtensions := subtitleExtensions vsm; directory := directory vsm;
         similarityThreshold := similarityThreshold vsm; recursive := b;
         dryRun := dryRun vsm; verbose := verbose vsm; ignoreExisting := ignoreExisting vsm |}
  | DryRun b =>
      {| videoExtensions := videoExtensions vsm;
         subtitleExtensions := subtitleExtensions vsm; directory := directory vsm;
         similarityThreshold := similarityThreshold vsm; recursive := recursive vsm;
         dryRun := b; verbose := verbose vsm; ignoreExisting := ignoreExisting vsm |}
  | Verbose b =>
      {| videoExtensions := videoExtensions vsm;
         subtitleExtensions := subtitleExtensions vsm; directory := directory vsm;
         similarityThreshold := similarityThreshold vsm; recursive := recursive vsm;
         dryRun := dryRun vsm; verbose := b; ignoreExisting := ignoreExisting vsm |}
  | IgnoreExisting b =>
      {| videoExtensions := videoExtensions vsm;
         subtitleExtensions := subtitleExtensions vsm; directory := directory vsm;
         similarityThreshold := similarityThreshold vsm; recursive := recursive vsm;
         dryRun := dryRun vsm; verbose := verbose vsm; ignoreExisting := b |}
  end.

Definition New (dir : gostring) (options : list Option) : VideoSubtitleMatcher :=
  let vsm :=
    {| videoExtensions := [gs ".mkv"; gs ".mp4"; gs ".avi"; gs ".mov"; gs ".webm"];
       subtitleExtensions := [gs ".srt"; gs ".ass"; gs ".vtt"];
       directory := dir;
       similarityThreshold := f64_0_6;
       recursive := true;
       dryRun := true;
       verbose := true;
       ignoreExisting := false |} in
  fold_left applyOption options vsm.

(** The full-width question mark U+FF1F in UTF-8. *)
Definition fullwidthQuestion : gostring :=
  [ascii_of_nat 239; ascii_of_nat 188; ascii_of_nat 159].

Definition removeTags (title : gostring) : gostring :=
  replaceMatches matchTag [] 0 title.

Definition collapseSpaces (title : gostring) : gostring :=
  replaceMatches matchSpaces (gs " ") 0 title.

Definition normalizeTitle `{Unicode} (title : gostring) : gostring :=
  let title := removeTags title in
  let title := ReplaceAll title (gs "-_YouTube-zh-CN-dual-double") [] in
  let title := ReplaceAll title (gs "_-_YouTube") [] in
  let title := ReplaceAll title (gs "_") (gs " ") in
  let title := ReplaceAll title fullwidthQuestion (gs "?") in
  let title := TrimSpace title in
  let title := collapseSpaces title in
  ToLower title.

(** ** The dynamic-programming table *)

Definition table : Type := list (list Z).

Fixpoint upd {A : Type} (l : list A) (i : nat) (x : A) : list A :=
  match l, i with
  | [], _ => []
  | _ :: t, O => x :: t
  | h :: t, S i' => h :: upd t i' x
  end.

(** [dp[i][j]] and [dp[i][j] = v]; every access of the program is in range. *)
Definition get2 (dp : table) (i j : nat) : Z := nth j (nth i dp []) 0.
Definition set2 (dp : table) (i j : nat) (v : Z) : table := upd dp i (upd (nth i dp []) j v).

Definition byteAt (s : gostring) (i : nat) : ascii := nth i s zero.

(** The body of the inner loop. *)
Definition lcsCell (s1 s2 : gostring) (i : nat) (dp : table) (j : nat) : table :=
  if Ascii.eqb (byteAt s1 (i - 1)) (byteAt s2 (j - 1)) then
    set2 dp i j (get2 dp (i - 1) (j - 1) + 1)
  else if get2 dp (i - 1) j >? get2 dp i (j - 1) then
    set2 dp i j (get2 dp (i - 1) j)
  else
    set2 dp i j (get2 dp i (j - 1)).

Definition lcsRow (s1 s2 : gostring) (dp : table) (i : nat) : table :=
  fold_left (lcsCell s1 s2 i) (seq 1 (length s2)) dp.

Definition longestCommonSubsequence (s1 s2 : gostring) : Z :=
  let m := length s1 in
  let n := length s2 in
  let dp := repeat (repeat 0 (n + 1)) (m + 1) in
  let dp := fold_left (lcsRow s1 s2) (seq 1 m) dp in
  get2 dp m n.

Definition calculateSimilarity (s1 s2 : gostring) : float64 :=
  if string_eqb s1 s2 then f64_one
  else
    let lcs := longestCommonSubsequence s1 s2 in
    let maxLen := len s1 in
    let maxLen := if len s2 >? maxLen then len s2 else maxLen in
    if maxLen =? 0 then f64_zero
    else f64_div (f64_of_int lcs) (f64_of_int maxLen).

(** The file name without its extension, as both [findBestMatch] and
    [Match] compute it. *)
Definition stem (path : gostring) : gostring :=
  TrimSuffix (filepath_Base path) (filepath_Ext path).

Definition bestStep `{Unicode} (normalizedSubtitle : gostring)
           (best : gostring * float64) (videoPath : gostring) : gostring * float64 :=
  let '(bestMatch, bestScore) := best in
  let videoName := stem videoPath in
  let normalizedVideo := normalizeTitle videoName in
  let score := calculateSimilarity normalizedSubtitle normalizedVideo in
  if f64_gt score bestScore then (videoPath, score) else (bestMatch, bestScore).

Definition findBestMatch `{Unicode} (subtitlePath : gostring) (videoFiles : list gostring)
  : gostring * float64 :=
  let subtitleName := stem subtitlePath in
  let normalizedSubtitle := normalizeTitle subtitleName in
  fold_left (bestStep normalizedSubtitle) videoFiles ([], f64_zero).

(** ** The file system the matcher runs against *)

Class FileSystem : Type := {
  World : Type;
  OSError : Type;
  (** [os.Rename(oldpath, newpath)] *)
  os_Rename : gostring -> gostring -> World -> option OSError * World;
  (** [filepath.Walk(root, fn)] for a callback that stops at the first error
      and skips nothing: the entries handed to the callback in order, each
      with [info.IsDir()], and the error that ended the walk, if any. *)
  filepath_Walk : gostring -> World -> list (gostring * bool) * option OSError;
  (** [os.ReadDir(name)]: the entries with [entry.Name()] and [entry.IsDir()]. *)
  os_ReadDir : gostring -> World -> list (gostring * bool) + OSError
}.

Definition hasExt (ext : gostring) (extensions : list gostring) : bool :=
  existsb (string_eqb ext) extensions.

Section Matcher.
Context `{Unicode} `{FileSystem}.

(** The callback of the recursive scan. *)
Definition walkStep (vsm : VideoSubtitleMatcher)
           (acc : list gostring * list gostring) (entry : gostring * bool)
  : list gostring * list gostring :=
  let '(videoFiles, subtitleFiles) := acc in
  let '(path, isDir) := entry in
  if isDir then acc
  else
    let ext := ToLower (filepath_Ext path) in
    if hasExt ext (videoExtensions vsm) then (videoFiles ++ [path], subtitleFiles)
    else if hasExt ext (subtitleExtensions vsm) then (videoFiles, subtitleFiles ++ [path])
    else acc.

(** The loop body of the flat scan. *)
Definition readDirStep (vsm : VideoSubtitleMatcher)
           (acc : list gostring * list gostring) (entry : gostring * bool)
  : list gostring * list gostring :=
  let '(videoFiles, subtitleFiles) := acc in
  let '(name, isDir) := entry in
  if isDir then acc
  else
    let fullPath := filepath_Join [directory vsm; name] in
    let ext := ToLower (filepath_Ext name) in
    let videoFiles :=
      if hasExt ext (videoExtensions vsm) then videoFiles ++ [fullPath] else videoFiles in
    let subtitleFiles :=
      if hasExt ext (subtitleExtensions vsm) then subtitleFiles ++ [fullPath]
      else subtitleFiles in
    (videoFiles, subtitleFiles).

Definition scanFiles (vsm : VideoSubtitleMatcher) (w : World)
  : list gostring * list gostring * option OSError :=
  if recursive vsm then
    let '(entries, err) := filepath_Walk (directory vsm) w in
    (fold_left (walkStep vsm) entries ([], []), err)
  else
    match os_ReadDir (directory vsm) w with
    | inr err => ([], [], Some err)
    | inl entries => (fold_left (readDirStep vsm) entries ([], []), None)
    end.

Record MatchResult : Type := {
  SubtitlePath : gostring;
  VideoPath : gostring;
  NewSubtitlePath : gostring;
  Similarity : float64;
  Renamed : bool;
  Error : option OSError
}.

(** What the loop of [Match] carries: the results appended so far, the file
    system, and the calls of [os.Rename] issued so far. *)
Record MatchState : Type := {
  results : list MatchResult;
  world : World;
  renames : list (gostring * gostring)
}.

Definition newSubtitlePathFor (subtitlePath bestMatch : gostring) : gostring :=
  let videoBaseName := stem bestMatch in
  let subtitleExt := filepath_Ext subtitlePath in
  filepath_Join [filepath_Dir subtitlePath; videoBaseName ++ subtitleExt].

(** One iteration of the loop over the subtitle files. *)
Definition matchStep (vsm : VideoSubtitleMatcher) (videoFiles : list gostring)
           (st : MatchState) (subtitlePath : gostring) : MatchState :=
  let '(bestMatch, score) := findBestMatch subtitlePath videoFiles in
  let emit (newPath : gostring) (renamed : bool) (err : option OSError)
           (w : World) (calls : list (gostring * gostring)) :=
    {| results := results st
                  ++ [{| SubtitlePath := subtitlePath; VideoPath := bestMatch;
                         NewSubtitlePath := newPath; Similarity := score;
                         Renamed := renamed; Error := err |}];
       world := w;
       renames := calls |} in
  if f64_ge score (similarityThreshold vsm) then
    let newSubtitlePath := newSubtitlePathFor subtitlePath bestMatch in
    if ignoreExisting vsm && string_eqb subtitlePath newSubtitlePath then st
    else if negb (dryRun vsm) then
      if negb (string_eqb subtitlePath newSubtitlePath) then
        match os_Rename subtitlePath newSubtitlePath (world st) with
        | (Some err, w') =>
            emit newSubtitlePath false (Some err) w'
                 (renames st ++ [(subtitlePath, newSubtitlePath)])
        | (None, w') =>
            emit newSubtitlePath true None w'
                 (renames st ++ [(subtitlePath, newSubtitlePath)])
        end
      else emit newSubtitlePath true None (world st) (renames st)
    else emit newSubtitlePath false None (world st) (renames st)
  else emit [] false None (world st) (renames st).

Inductive MatchError : Type :=
| ScanFailed (err : OSError).   (* "failed to scan files: %w" *)

(** [Match] returns the results and the top-level error; the model also
    returns the file system it leaves and the calls of [os.Rename] it
    issued.  The console output of the verbose mode is not modelled. *)
Definition Match (vsm : VideoSubtitleMatcher) (w : World)
  : (list MatchResult * option MatchError) * World * list (gostring * gostring) :=
  match scanFiles vsm w with
  | (_, _, Some err) => (([], Some (ScanFailed err)), w, [])
  | (videoFiles, subtitleFiles, None) =>
      let st := fold_left (matchStep vsm videoFiles) subtitleFiles
                          {| results := []; world := w; renames := [] |} in
      ((results st, None), world st, renames st)
  end.

End Matcher.

(** ** Instances to run the model on *)

(** Unicode tables under which no byte >= 0x80 is a space or has another case. *)
Definition caselessUnicode : Unicode :=
  {| unicode_TrimFunc := fun s => s;
     unicode_TrimRightFunc := fun s => s;
     unicode_MapToLower := fun s => s |}.

Inductive memError : Type := ENOENT | EROFS.

(** A flat in-memory file system: the files by path, and whether it is
    mounted read-only. *)
Record memWorld : Type := { files : list gostring; readOnly : bool }.

Definition memRename (old new : gostring) (w : memWorld) : option memError * memWorld :=
  if readOnly w then (Some EROFS, w)
  else if existsb (string_eqb old) (files w) then
    (None, {| files := map (fun f => if string_eqb f old then new else f) (files w);
              readOnly := false |})
  else (Some ENOENT, w).

Definition memFS : FileSystem :=
  {| World := memWorld;
     OSError := memError;
     os_Rename := memRename;
     filepath_Walk := fun _ w => (map (fun f => (f, false)) (files w), None);
     os_ReadDir := fun _ w => inl (map (fun f => (f, false)) (files w)) |}.

(** An error of [memFS] in the [Error] field of a result. *)
Definition memFailure (e : memError) : option (@OSError memFS) := Some e.

(** A world of [memFS] holding the given files. *)
Definition memDisk (paths : list gostring) (ro : bool) : @World memFS :=
  {| files := paths; readOnly := ro |}.



(** * Specification notions *)

Inductive Subseq {A : Type} : list A -> list A -> Prop :=
| Subseq_nil : Subseq [] []
| Subseq_skip x l1 l2 : Subseq l1 l2 -> Subseq l1 (x :: l2)
| Subseq_take x l1 l2 : Subseq l1 l2 -> Subseq (x :: l1) (x :: l2).

(** [L] is the length of a longest common subsequence of [a] and [b]. *)
Definition IsLCSLength (a b : gostring) (L : Z) : Prop :=
  (exists c, Subseq c a /\ Subseq c b /\ len c = L) /\
  (forall c, Subseq c a -> Subseq c b -> len c <= L).

(** The classic recurrence, on the lengths [i] and [j] of the prefixes. *)
Fixpoint lcsLength (s1 s2 : gostring) (i j : nat) {struct i} : Z :=
  match i with
  | O => 0
  | S i' =>
      (fix row (j : nat) : Z :=
         match j with
         | O => 0
         | S j' =>
             if Ascii.eqb (byteAt s1 i') (byteAt s2 j') then lcsLength s1 s2 i' j' + 1
             else Z.max (lcsLength s1 s2 i' (S j')) (row j')
         end) j
  end.

(** The table has [len(s1)+1] rows of [len(s2)+1] cells. *)
Definition wellShaped (s1 s2 : gostring) (dp : table) : Prop :=
  length dp = (length s1 + 1)%nat /\
  forall i, (i <= length s1)%nat -> length (nth i dp []) = (length s2 + 1)%nat.

(** The cells before [(i0, j0)] in the order of the loops, and the first
    row and column, hold the recurrence. *)
Definition filledTo (s1 s2 : gostring) (i0 j0 : nat) (dp : table) : Prop :=
  forall i j, (i <= length s1)%nat -> (j <= length s2)%nat ->
    (i = 0 \/ j = 0 \/ i < i0 \/ (i = i0 /\ j < j0))%nat ->
    get2 dp i j = lcsLength s1 s2 i j.

(** A score lies in the closed interval from 0.0 to 1.0. *)
Definition inUnitInterval (x : float64) : Prop :=
  f64_le f64_zero x = true /\ f64_le x f64_one = true.

(** ** Rounding to binary64, arithmetically *)

(** Round to nearest even: [q] with round bit [r] and sticky bit [s]. *)
Definition rne_up (r s : bool) (q : Z) : Z := if r && (s || Z.odd q) then q + 1 else q.

(** Mantissa and exponent of [float64(n)] for a positive [n]. *)
Definition int_round (n : Z) : Z * Z :=
  let d := Zdigits2 n in
  if d <=? 53 then (n * 2 ^ (53 - d), d - 53)
  else
    let k := d - 53 in
    let q := n / 2 ^ k in
    let q' := rne_up (Z.odd (n / 2 ^ (k - 1))) (negb (n mod 2 ^ (k - 1) =? 0)) q in
    if q' <? 2 ^ 53 then (q', k) else (2 ^ 52, k + 1).

(** Round and sticky bits after shifting [mx], located by [lx], right by [k]. *)
Definition shr_bits (mx : Z) (lx : location) (k : Z) : bool * bool :=
  let r0 := shr_r (shr_record_of_loc mx lx) in
  let s0 := shr_s (shr_record_of_loc mx lx) in
  if k =? 0 then (r0, s0)
  else (Z.odd (mx / 2 ^ (k - 1)), (r0 || s0) || negb (mx mod 2 ^ (k - 1) =? 0)).

(** Order of positive normal doubles given as (mantissa, exponent). *)
Definition fin_le (x y : Z * Z) : Prop :=
  snd x < snd y \/ (snd x = snd y /\ fst x <= fst y).

(** ** Selection and the loop of [Match] *)

(** The score [findBestMatch] gives the candidate [videoPath]. *)
Definition videoScore `{Unicode} (subtitlePath videoPath : gostring) : float64 :=
  calculateSimilarity (normalizeTitle (stem subtitlePath)) (normalizeTitle (stem videoPath)).

(** Index [k] is the first one that attains the greatest of [scores]. *)
Definition FirstMaximal (scores : list float64) (k : nat) : Prop :=
  (k < length scores)%nat /\
  (forall j, (j < length scores)%nat ->
             f64_le (nth j scores f64_zero) (nth k scores f64_zero) = true) /\
  (forall j, (j < k)%nat -> f64_lt (nth j scores f64_zero) (nth k scores f64_zero) = true).

(** The best score of the subtitle reaches the threshold. *)
Definition accepted `{Unicode} (vsm : VideoSubtitleMatcher) (videoFiles : list gostring)
           (subtitlePath : gostring) : bool :=
  f64_ge (snd (findBestMatch subtitlePath videoFiles)) (similarityThreshold vsm).

(** The new path [Match] computes for an accepted subtitle. *)
Definition targetPath `{Unicode} (videoFiles : list gostring) (subtitlePath : gostring)
  : gostring :=
  newSubtitlePathFor subtitlePath (fst (findBestMatch subtitlePath videoFiles)).

(** The subtitle is accepted and already carries its new name, and
    [ignoreExisting] is set. *)
Definition suppressed `{Unicode} (vsm : VideoSubtitleMatcher) (videoFiles : list gostring)
           (subtitlePath : gostring) : bool :=
  ignoreExisting vsm && accepted vsm videoFiles subtitlePath
  && string_eqb subtitlePath (targetPath videoFiles subtitlePath).

(** What the loop records for the subtitle of a result [r]. *)
Definition describes `{Unicode} `{FileSystem} (vsm : VideoSubtitleMatcher)
           (videoFiles : list gostring) (r : MatchResult) : Prop :=
  VideoPath r = fst (findBestMatch (SubtitlePath r) videoFiles) /\
  Similarity r = snd (findBestMatch (SubtitlePath r) videoFiles) /\
  NewSubtitlePath r
  = (if accepted vsm videoFiles (SubtitlePath r) then targetPath videoFiles (SubtitlePath r)
     else []) /\
  (accepted vsm videoFiles (SubtitlePath r) = false -> Renamed r = false /\ Error r = None) /\
  (dryRun vsm = true -> Renamed r = false /\ Error r = None).

(** The state [Match] starts its loop in. *)
Definition initialState `{FileSystem} (w : World) : MatchState :=
  {| results := []; world := w; renames := [] |}.

(** ** Normal forms of titles *)

(** [s] holds a match of the tag pattern. *)
Fixpoint containsTag (s : gostring) : bool :=
  match s with
  | [] => false
  | _ :: s' => match matchTag s with Some _ => true | None => containsTag s' end
  end.

(** An ASCII byte other than the underscore. *)
Definition isPlain (c : ascii) : bool := isASCII c && negb (Ascii.eqb c "_"%char).

Definition headNotSpace (s : gostring) : bool :=
  match s with
  | [] => true
  | c :: _ => negb (isAsciiSpace c)
  end.

Definition headIsReSpace (s : gostring) : bool :=
  match s with
  | [] => false
  | c :: _ => isReSpace c
  end.

(** Every byte of the class [\s] is a single space between other bytes. *)
Fixpoint collapsed (s : gostring) : bool :=
  match s with
  | [] => true
  | c :: s' =>
      (if isReSpace c then Ascii.eqb c " "%char && negb (headIsReSpace s') else true)
      && collapsed s'
  end.

(** What [normalizeTitle] leaves of an ASCII title, the tags apart. *)
Definition NormalTitle (s : gostring) : Prop :=
  forallb isPlain s = true /\
  headNotSpace s = true /\ headNotSpace (rev s) = true /\
  collapsed s = true /\
  map lowerASCII s = s.

(** The title after the tag removal and the four literal replacements of
    [normalizeTitle], before the trimming. *)
Definition replacedTitle (title : gostring) : gostring :=
  let title := removeTags title in
  let title := ReplaceAll title (gs "-_YouTube-zh-CN-dual-double") [] in
  let title := ReplaceAll title (gs "_-_YouTube") [] in
  let title := ReplaceAll title (gs "_") (gs " ") in
  ReplaceAll title fullwidthQuestion (gs "?").

(** [pat] occurs in [s]. *)
Fixpoint occurs (pat s : gostring) : bool :=
  HasPrefix s pat
  || match s with
     | [] => false
     | _ :: s' => occurs pat s'
     end.

(** How many times the byte [c] occurs in [s]. *)
Definition countByte (c : ascii) (s : gostring) : nat :=
  length (filter (Ascii.eqb c) s).

(** [c >= utf8.RuneSelf] *)
Definition isHigh (c : ascii) : bool := negb (isASCII c).

(** The bytes in which the first rune of [s] lies: the first byte when it
    is ASCII, otherwise the bytes >= 0x80 that [s] starts with. *)
Definition leadBytes (s : gostring) : gostring :=
  match s with
  | [] => []
  | c :: _ => if isASCII c then [c] else takeWhile isHigh s
  end.

(** The bytes in which the last rune of [s] lies. *)
Definition trailBytes (s : gostring) : gostring := rev (leadBytes (rev s)).

(** What the proofs use of the three library functions on arbitrary byte
    strings.  [strings.Map(unicode.ToLower, s)] decodes [s] rune by rune:
    an ASCII byte is a rune of its own, whatever surrounds it, and is
    lowered by the ASCII rule; a run of bytes >= 0x80 gives at least one
    rune (invalid bytes give U+FFFD), and the only ASCII bytes that runs
    lower to are letters (U+0130 gives "i", U+212A gives "k"); lowering is
    idempotent, and only U+FF1F lowers to U+FF1F.
    [strings.TrimFunc(s, unicode.IsSpace)] and [strings.TrimRightFunc] cut
    white-space runes off the ends: the ASCII ones are those of
    [isAsciiSpace], the result is a part of [s], trimming again changes
    nothing, whether a string is trimmed is decided by its first and last
    rune, and lowering maps white space to itself and nothing else to white
    space, so that it commutes with trimming. *)
Class UnicodeLaws (U : Unicode) : Prop := {
  MapToLower_nil : unicode_MapToLower [] = [];
  MapToLower_ascii :
    forall a c b, isASCII c = true ->
      unicode_MapToLower (a ++ c :: b)
      = unicode_MapToLower a ++ lowerASCII c :: unicode_MapToLower b;
  MapToLower_high :
    forall h, h <> [] -> forallb isHigh h = true ->
      unicode_MapToLower h <> [] /\
      (forall c, In c (unicode_MapToLower h) -> isASCII c = true -> byteIn 97 122 c = true);
  MapToLower_idempotent :
    forall s, unicode_MapToLower (unicode_MapToLower s) = unicode_MapToLower s;
  MapToLower_question :
    forall s, occurs fullwidthQuestion (unicode_MapToLower s) = true ->
              occurs fullwidthQuestion s = true;
  TrimFunc_part : forall s, exists a b, s = a ++ unicode_TrimFunc s ++ b;
  TrimFunc_nil : unicode_TrimFunc [] = [];
  TrimFunc_ascii_head :
    forall c s, isASCII c = true ->
      unicode_TrimFunc (c :: s)
      = if isAsciiSpace c then unicode_TrimFunc s else unicode_TrimRightFunc (c :: s);
  TrimFunc_space_last :
    forall s c, isAsciiSpace c = true -> unicode_TrimFunc (s ++ [c]) = unicode_TrimFunc s;
  TrimRightFunc_ascii_last :
    forall s c, isASCII c = true ->
      unicode_TrimRightFunc (s ++ [c])
      = if isAsciiSpace c then unicode_TrimRightFunc s else s ++ [c];
  TrimFunc_idempotent :
    forall s, unicode_TrimFunc (unicode_TrimFunc s) = unicode_TrimFunc s;
  TrimFunc_ends :
    forall s t, unicode_TrimFunc s = s ->
                leadBytes t = leadBytes s -> trailBytes t = trailBytes s ->
                unicode_TrimFunc t = t;
  TrimFunc_MapToLower :
    forall s, unicode_TrimFunc (unicode_MapToLower s)
              = unicode_MapToLower (unicode_TrimFunc s)
}.

(** The three functions on every byte string, under tables in which no
    rune >= 0x80 is white space or has another case: only ASCII white space
    is trimmed and only ASCII letters are lowered, also in a string that
    holds bytes >= 0x80. *)
Definition plainTrimRight (s : gostring) : gostring :=
  rev (dropWhile isAsciiSpace (rev s)).

Definition plainTrim (s : gostring) : gostring :=
  plainTrimRight (dropWhile isAsciiSpace s).

Definition plainUnicode : Unicode :=
  {| unicode_TrimFunc := plainTrim;
     unicode_TrimRightFunc := plainTrimRight;
     unicode_MapToLower := map lowerASCII |}.

(** * Command main: the example program

    The repository holds the program twice: [main.go], one function with
    everything inline (module [MainGo] below), and its refactoring into
    [parseArgs], [validateDirectory], the three [run...Example] functions,
    [countSuccessfulRenames], [displayDetailedResults], [determineStatus]
    and [extractFileName].  What a program prints is left out, except the
    rows of the detailed results, which are kept as data: the strings and
    the score handed to [Printf].  A run of [main] is its exit code, those
    rows, the file system it leaves and the calls of [os.Rename] issued. *)

(** The literals [0.7] and [0.8]. *)
Definition f64_0_7 : float64 := S754_finite false 6305039478318694 (-53).
Definition f64_0_8 : float64 := S754_finite false 7205759403792794 (-53).

Record Config : Type := {
  Directory : gostring;
  ExecuteMode : bool
}.

(** [parseArgs] reads [os.Args], the program name first. *)
Definition parseArgs (osArgs : list gostring) : Config :=
  {| Directory := if Z.of_nat (length osArgs) <? 2 then gs "." else nth 1 osArgs [];
     ExecuteMode :=
       existsb (fun arg => string_eqb arg (gs "-execute") || string_eqb arg (gs "--execute"))
               osArgs |}.

(** [strings.LastIndex(s, sep)] for a separator of one byte: the index of
    its last occurrence, or -1. *)
Fixpoint LastIndexByte (s : gostring) (c : ascii) : Z :=
  match s with
  | [] => -1
  | x :: s' =>
      let r := LastIndexByte s' c in
      if r >=? 0 then r + 1 else if Ascii.eqb x c then 0 else -1
  end.

Definition extractFileName (fullPath extension : gostring) : gostring :=
  let lastIndex := LastIndexByte fullPath "/"%char in
  let lastIndex := if lastIndex =? -1 then 0 else lastIndex + 1 in
  TrimSuffix (skipn (Z.to_nat lastIndex) fullPath) extension.

(** A row of the detailed results: the arguments of the [Printf]. *)
Definition Row : Type := gostring * float64 * gostring * gostring.

(** The three matchers the program builds, under the names [main.go] gives
    them; each [run...Example] builds one of them as its [matcher]. *)
Definition matcher1 (directory : gostring) : VideoSubtitleMatcher := New directory [].

Definition matcher2 (directory : gostring) (executeMode : bool) : VideoSubtitleMatcher :=
  New directory [DryRun (negb executeMode); SimilarityThreshold f64_0_8; Verbose true].

Definition matcher3 (directory : gostring) (executeMode : bool) : VideoSubtitleMatcher :=
  New directory
      [VideoExtensions [gs ".mkv"; gs ".mp4"; gs ".webm"];
       SubtitleExtensions [gs ".srt"];
       SimilarityThreshold f64_0_7;
       Recursive true;
       DryRun (negb executeMode);
       Verbose false;
       IgnoreExisting true].

Inductive ExampleError `{FileSystem} : Type :=
| BasicExampleError (err : MatchError)          (* "error in basic example: %w" *)
| HighThresholdExampleError (err : MatchError)  (* "error in high threshold example: %w" *)
| CustomConfigExampleError (err : MatchError).  (* "error in custom config example: %w" *)

Section Command.
Context `{Unicode} `{FileSystem}.

(** [err.Error()], which the verb [%v] prints. *)
Variable errorText : OSError -> gostring.

(** [os.IsNotExist(err)] for the error of [os.Stat(directory)]. *)
Variable statNotExist : gostring -> World -> bool.

Definition validateDirectory (directory : gostring) (w : World) : option gostring :=
  if statNotExist directory w then Some (gs "directory does not exist: " ++ directory)
  else None.

Definition countSuccessfulRenames (results : list MatchResult) : Z :=
  fold_left
    (fun count result =>
       if Renamed result && match Error result with None => true | Some _ => false end
       then count + 1 else count)
    results 0.

Definition determineStatus (result : MatchResult) (executeMode : bool) : gostring :=
  if negb executeMode then gs "WOULD RENAME"
  else if Renamed result && match Error result with None => true | Some _ => false end
       then gs "RENAMED"
  else match Error result with
       | Some err => gs "ERROR: " ++ errorText err
       | None => gs "NO CHANGE"
       end.

Definition displayDetailedResults (results : list MatchResult) (executeMode : bool)
  : list Row :=
  match results with
  | [] => []
  | _ =>
      fold_left
        (fun out result =>
           if f64_ge (Similarity result) f64_0_7 then
             let status := determineStatus result executeMode in
             let subtitleName := extractFileName (SubtitlePath result) (gs ".srt") in
             let newSubtitleName := extractFileName (NewSubtitlePath result) (gs ".srt") in
             out ++ [(subtitleName, Similarity result, newSubtitleName, status)]
           else out)
        results []
  end.

Definition runBasicExample (directory : gostring) (w : World)
  : option ExampleError * World * list (gostring * gostring) :=
  let matcher := matcher1 directory in
  match Match matcher w with
  | ((_, Some err), w', calls) => (Some (BasicExampleError err), w', calls)
  | ((results, None), w', calls) => (None, w', calls)
  end.

Definition runHighThresholdExample (directory : gostring) (executeMode : bool) (w : World)
  : option ExampleError * World * list (gostring * gostring) :=
  let matcher := matcher2 directory executeMode in
  match Match matcher w with
  | ((_, Some err), w', calls) => (Some (HighThresholdExampleError err), w', calls)
  | ((results, None), w', calls) => (None, w', calls)
  end.

Definition runCustomConfigExample (directory : gostring) (executeMode : bool) (w : World)
  : option ExampleError * list Row * World * list (gostring * gostring) :=
  let matcher := matcher3 directory executeMode in
  match Match matcher w with
  | ((_, Some err), w', calls) => (Some (CustomConfigExampleError err), [], w', calls)
  | ((results, None), w', calls) =>
      (None, displayDetailedResults results executeMode, w', calls)
  end.

(** What a run leaves behind. *)
Record Run : Type := {
  exitCode : Z;
  rows : list Row;
  finalWorld : World;
  renameCalls : list (gostring * gostring)
}.

Definition main (osArgs : list gostring) (w : World) : Run :=
  let config := parseArgs osArgs in
  match validateDirectory (Directory config) w with
  | Some _ => {| exitCode := 1; rows := []; finalWorld := w; renameCalls := [] |}
  | None =>
      match runBasicExample (Directory config) w with
      | (Some _, w1, c1) =>
          {| exitCode := 1; rows := []; finalWorld := w1; renameCalls := c1 |}
      | (None, w1, c1) =>
          match runHighThresholdExample (Directory config) (ExecuteMode config) w1 with
          | (Some _, w2, c2) =>
              {| exitCode := 1; rows := []; finalWorld := w2; renameCalls := c1 ++ c2 |}
          | (None, w2, c2) =>
              match runCustomConfigExample (Directory config) (ExecuteMode config) w2 with
              | (Some _, out, w3, c3) =>
                  {| exitCode := 1; rows := out; finalWorld := w3;
                     renameCalls := c1 ++ c2 ++ c3 |}
              | (None, out, w3, c3) =>
                  {| exitCode := 0; rows := out; finalWorld := w3;
                     renameCalls := c1 ++ c2 ++ c3 |}
              end
          end
      end
  end.

End Command.

(** [main.go]: the same program before the refactoring. *)
Module MainGo.
Section Command.
Context `{Unicode} `{FileSystem}.
Variable errorText : OSError -> gostring.
Variable statNotExist : gostring -> World -> bool.

(** The status of a row of the detailed results. *)
Definition status (result : MatchResult) (executeMode : bool) : gostring :=
  if negb executeMode then gs "WOULD RENAME"
  else if Renamed result && match Error result with None => true | Some _ => false end
       then gs "RENAMED"
  else match Error result with
       | Some err => gs "ERROR: " ++ errorText err
       | None => gs "WOULD RENAME"
       end.

(** [strings.TrimSuffix(path[strings.LastIndex(path, "/")+1:], ".srt")] *)
Definition shortName (path : gostring) : gostring :=
  TrimSuffix (skipn (Z.to_nat (LastIndexByte path "/"%char + 1)) path) (gs ".srt").

Definition detailedResults (results3 : list MatchResult) (executeMode : bool) : list Row :=
  if Z.of_nat (length results3) >? 0 then
    fold_left
      (fun out result =>
         if f64_ge (Similarity result) f64_0_7 then
           out ++ [(shortName (SubtitlePath result), Similarity result,
                    shortName (NewSubtitlePath result), status result executeMode)]
         else out)
      results3 []
  else [].

Definition main (osArgs : list gostring) (w : World) : Run :=
  let directory := if Z.of_nat (length osArgs) <? 2 then gs "." else nth 1 osArgs [] in
  let executeMode :=
    existsb (fun arg => string_eqb arg (gs "-execute") || string_eqb arg (gs "--execute"))
            osArgs in
  if statNotExist directory w then
    {| exitCode := 1; rows := []; finalWorld := w; renameCalls := [] |}
  else
    let '(_, w1, c1) := Match (matcher1 directory) w in
    let '(_, w2, c2) := Match (matcher2 directory executeMode) w1 in
    match Match (matcher3 directory executeMode) w2 with
    | ((_, Some err), w3, c3) =>
        {| exitCode := 1; rows := []; finalWorld := w3; renameCalls := c1 ++ c2 ++ c3 |}
    | ((results3, None), w3, c3) =>
        {| exitCode := 0; rows := detailedResults results3 executeMode; finalWorld := w3;
           renameCalls := c1 ++ c2 ++ c3 |}
    end.

End Command.
End MainGo.

(** ** Further specification notions *)

(** The file would be listed as a video, as a subtitle. *)
Definition isVideoFile `{Unicode} (vsm : VideoSubtitleMatcher) (path : gostring) : bool :=
  hasExt (ToLower (filepath_Ext path)) (videoExtensions vsm).

Definition isSubtitleFile `{Unicode} (vsm : VideoSubtitleMatcher) (path : gostring) : bool :=
  hasExt (ToLower (filepath_Ext path)) (subtitleExtensions vsm).

(** The names of the entries that are not directories. *)
Definition regularFiles (entries : list (gostring * bool)) : list gostring :=
  map fst (filter (fun entry => negb (snd entry)) entries).

(** [SimilarityThreshold(t)] takes effect. *)
Definition validThreshold (t : float64) : bool := f64_ge t f64_zero && f64_le t f64_one.

(** The values the options give a field, in order. *)
Definition settings {A : Type} (pick : Option -> option A) (options : list Option) : list A :=
  flat_map (fun o => match pick o with Some x => [x] | None => [] end) options.

(** The subtitle is accepted and does not carry its new name yet. *)
Definition toRename `{Unicode} (vsm : VideoSubtitleMatcher) (videoFiles : list gostring)
           (subtitlePath : gostring) : bool :=
  accepted vsm videoFiles subtitlePath
  && negb (string_eqb subtitlePath (targetPath videoFiles subtitlePath)).

(** The file system after the calls of [os.Rename], failed ones included. *)
Definition replay `{FileSystem} (calls : list (gostring * gostring)) (w : World) : World :=
  fold_left (fun w call => snd (os_Rename (fst call) (snd call) w)) calls w.

(** No byte occurs in both strings. *)
Definition disjointBytes (a b : gostring) : Prop := forall c, In c a -> ~ In c b.

(** The place of a double that is not NaN in the order of [<]: the class
    (infinities, negative, zero, positive), then exponent and mantissa. *)
Definition f64_key (x : float64) : Z * Z * Z :=
  match x with
  | S754_zero _ => (0, 0, 0)
  | S754_infinity s => (if s then -2 else 2, 0, 0)
  | S754_nan => (0, 0, 0)
  | S754_finite s m e => if s then (-1, - e, - Zpos m) else (1, e, Zpos m)
  end.

Definition lexlt (k1 k2 : Z * Z * Z) : Prop :=
  let '(a1, b1, c1) := k1 in
  let '(a2, b2, c2) := k2 in
  a1 < a2 \/ (a1 = a2 /\ (b1 < b2 \/ (b1 = b2 /\ c1 < c2))).

(** What holds of the best candidate and its score once [findBestMatch] has
    gone through the videos [seen]. *)
Definition bestOf `{Unicode} (sub : gostring) (seen : list gostring)
           (best : gostring * float64) : Prop :=
  (forall v, In v seen -> f64_gt (videoScore sub v) (snd best) = false) /\
  ((fst best = [] /\ snd best = f64_zero) \/
   (In (fst best) seen /\ snd best = videoScore sub (fst best) /\
    f64_gt (snd best) f64_zero = true)).

(** The value an option gives each field, if it sets it. *)
Definition videoExtensionsOf (o : Option) : option (list gostring) :=
  match o with VideoExtensions extensions => Some extensions | _ => None end.

Definition subtitleExtensionsOf (o : Option) : option (list gostring) :=
  match o with SubtitleExtensions extensions => Some extensions | _ => None end.

Definition thresholdOf (o : Option) : option float64 :=
  match o with
  | SimilarityThreshold threshold => if validThreshold threshold then Some threshold else None
  | _ => None
  end.

Definition recursiveOf (o : Option) : option bool :=
  match o with Recursive b => Some b | _ => None end.

Definition dryRunOf (o : Option) : option bool :=
  match o with DryRun b => Some b | _ => None end.

Definition verboseOf (o : Option) : option bool :=
  match o with Verbose b => Some b | _ => None end.

Definition ignoreExistingOf (o : Option) : option bool :=
  match o with IgnoreExisting b => Some b | _ => None end.

(** How the fields [Renamed] and [Error] of a result relate to the decision
    taken for its subtitle and to the calls of [os.Rename] issued. *)
Definition consistent `{Unicode} `{FileSystem} (vsm : VideoSubtitleMatcher)
           (videoFiles : list gostring) (calls : list (gostring * gostring))
           (r : MatchResult) : Prop :=
  (Renamed r = true ->
     Error r = None /\ dryRun vsm = false /\
     accepted vsm videoFiles (SubtitlePath r) = true /\
     (SubtitlePath r = NewSubtitlePath r \/ In (SubtitlePath r, NewSubtitlePath r) calls)) /\
  (Error r <> None ->
     Renamed r = false /\ dryRun vsm = false /\
     accepted vsm videoFiles (SubtitlePath r) = true /\
     SubtitlePath r <> NewSubtitlePath r /\
     In (SubtitlePath r, NewSubtitlePath r) calls) /\
  (accepted vsm videoFiles (SubtitlePath r) = true -> dryRun vsm = false ->
     Renamed r = true \/ Error r <> None).

(** ** Cleaned paths *)

(** A path element that [filepath.Clean] keeps as it is. *)
Definition plainElem (e : gostring) : Prop :=
  e <> [] /\ e <> gs "." /\ e <> gs ".." /\ ~ In "/"%char e.

(** The stacks [filepath.Clean] builds, the last element first: plain
    elements above the ".." elements a relative path starts with. *)
Definition goodStack (rooted : bool) (stack : list gostring) : Prop :=
  exists rest k,
    stack = rest ++ repeat (gs "..") k /\ Forall plainElem rest /\
    (rooted = true -> k = 0%nat).

(** The path [filepath.Clean] returns for a stack. *)
Definition render (rooted : bool) (stack : list gostring) : gostring :=
  let body := strings_Join (rev stack) (gs "/") in
  if rooted then "/"%char :: body
  else match body with [] => gs "." | _ => body end.

(** * The library models on the documented examples of the Go packages *)

Example filepath_Clean_examples :
  filepath_Clean (gs "a/c") = gs "a/c" /\
  filepath_Clean (gs "a//c") = gs "a/c" /\
  filepath_Clean (gs "a/c/.") = gs "a/c" /\
  filepath_Clean (gs "a/c/b/..") = gs "a/c" /\
  filepath_Clean (gs "/../a/c") = gs "/a/c" /\
  filepath_Clean (gs "/../a/b/../././/c") = gs "/a/c" /\
  filepath_Clean (gs "a/../../b") = gs "../b" /\
  filepath_Clean (gs "") = gs ".".
Proof. repeat split. Qed.

Example filepath_Base_examples :
  filepath_Base (gs "/foo/bar/baz.js") = gs "baz.js" /\
  filepath_Base (gs "/foo/bar/baz/") = gs "baz" /\
  filepath_Base (gs "dev.txt") = gs "dev.txt" /\
  filepath_Base (gs "../todo.txt") = gs "todo.txt" /\
  filepath_Base (gs "..") = gs ".." /\
  filepath_Base (gs ".") = gs "." /\
  filepath_Base (gs "/") = gs "/" /\
  filepath_Base (gs "") = gs ".".
Proof. repeat split. Qed.

Example filepath_Dir_examples :
  filepath_Dir (gs "/foo/bar/baz.js") = gs "/foo/bar" /\
  filepath_Dir (gs "/foo/bar/baz/") = gs "/foo/bar/baz" /\
  filepath_Dir (gs "/dirty//path///") = gs "/dirty/path" /\
  filepath_Dir (gs "dev.txt") = gs "." /\
  filepath_Dir (gs "../todo.txt") = gs ".." /\
  filepath_Dir (gs "..") = gs "." /\
  filepath_Dir (gs "/") = gs "/" /\
  filepath_Dir (gs "") = gs ".".
Proof. repeat split. Qed.

Example filepath_Ext_examples :
  filepath_Ext (gs "index") = [] /\
  filepath_Ext (gs "index.js") = gs ".js" /\
  filepath_Ext (gs "main.test.js") = gs ".js" /\
  filepath_Ext (gs "dir.d/file") = [].
Proof. repeat split. Qed.

Example filepath_Join_examples :
  filepath_Join [gs "a"; gs "b"; gs "c"] = gs "a/b/c" /\
  filepath_Join [gs "a"; gs "b/c"] = gs "a/b/c" /\
  filepath_Join [gs "a/b"; gs "/c"] = gs "a/b/c" /\
  filepath_Join [gs "a/b"; gs "../../../xyz"] = gs "../xyz" /\
  filepath_Join [gs ""; gs ""] = [] /\
  filepath_Join [gs ""; gs "a"] = gs "a".
Proof. repeat split. Qed.

Example strings_examples :
  TrimSuffix (gs "video.mkv") (gs ".mkv") = gs "video" /\
  TrimSuffix (gs "video") (gs ".mkv") = gs "video" /\
  ReplaceAll (gs "oink oink oink") (gs "oink") (gs "moo") = gs "moo moo moo" /\
  ReplaceAll (gs "aaa") (gs "aa") (gs "b") = gs "ba" /\
  @TrimSpace caselessUnicode (gs "  Hello, Gophers  ") = gs "Hello, Gophers" /\
  @ToLower caselessUnicode (gs "Gopher") = gs "gopher" /\
  removeTags (gs "x[a_b-9]y[]z[c d]") = gs "xy[]z[c d]" /\
  collapseSpaces (gs "a  b   c") = gs "a b c".
Proof. repeat split. Qed.

Example float64_literals :
  f64_zero = f64_of_int 0 /\
  f64_one = f64_of_int 1 /\
  f64_0_6 = f64_div (f64_of_int 3) (f64_of_int 5) /\
  f64_of_int (2 ^ 53 + 1) = f64_of_int (2 ^ 53) /\
  f64_div (f64_of_int (2 ^ 1024)) (f64_of_int (2 ^ 1024)) = S754_nan.
Proof. repeat split. Qed.

(** * binary64 facts *)

Lemma pow2_pred d : 0 < d -> 2 ^ d = 2 * 2 ^ (d - 1).
Proof.
  intros Hd. rewrite <- Z.pow_succ_r by lia. f_equal. lia.
Qed.

Lemma digits2_bounds p :
  2 ^ (Zpos (digits2_pos p) - 1) <= Zpos p < 2 ^ Zpos (digits2_pos p).
Proof.
  induction p as [p IH|p IH|]; cbn [digits2_pos].
  - rewrite Pos2Z.inj_succ, Z.pow_succ_r by lia.
    replace (Z.succ (Zpos (digits2_pos p)) - 1) with (Zpos (digits2_pos p)) by lia.
    rewrite (pow2_pred (Zpos (digits2_pos p))) in * by lia. lia.
  - rewrite Pos2Z.inj_succ, Z.pow_succ_r by lia.
    replace (Z.succ (Zpos (digits2_pos p)) - 1) with (Zpos (digits2_pos p)) by lia.
    rewrite (pow2_pred (Zpos (digits2_pos p))) in * by lia. lia.
  - cbn. lia.
Qed.

Lemma digits2_unique p d :
  2 ^ (d - 1) <= Zpos p < 2 ^ d -> Zpos (digits2_pos p) = d.
Proof.
  intros [Hlo Hhi]. pose proof (digits2_bounds p) as [Blo Bhi].
  assert (0 < d).
  { destruct (Z_lt_le_dec 0 d) as [|Hd]; [assumption|].
    destruct (Z.eq_dec d 0) as [->|]; [cbn in Hhi; lia|].
    rewrite (Z.pow_neg_r 2 d) in Hhi by lia. lia. }
  assert (Zpos (digits2_pos p) - 1 < d).
  { apply (Z.pow_lt_mono_r_iff 2); lia. }
  assert (d - 1 < Zpos (digits2_pos p)).
  { apply (Z.pow_lt_mono_r_iff 2); lia. }
  lia.
Qed.

Lemma iter_pos_nat {A : Type} (f : A -> A) p x :
  iter_pos f p x = Nat.iter (Pos.to_nat p) f x.
Proof.
  revert x. induction p as [p IH|p IH|]; intros x; cbn [iter_pos].
  - rewrite !IH, Pos2Nat.inj_xI. cbn [Nat.mul]. rewrite Nat.add_0_r.
    rewrite <- Nat.iter_add. now rewrite <- Nat.iter_succ_r.
  - rewrite !IH, Pos2Nat.inj_xO. cbn [Nat.mul]. rewrite Nat.add_0_r.
    now rewrite <- Nat.iter_add.
  - reflexivity.
Qed.

Lemma shr_1_nonneg m r s :
  0 <= m ->
  shr_1 {| shr_m := m; shr_r := r; shr_s := s |}
  = {| shr_m := m / 2; shr_r := Z.odd m; shr_s := r || s |}.
Proof.
  intros Hm. rewrite <- Z.div2_div.
  destruct m as [|[p|p|]|p]; try reflexivity. lia.
Qed.

Lemma mod_pow2_succ m n :
  0 <= n ->
  m mod 2 ^ (n + 1) = m mod 2 ^ n + 2 ^ n * ((m / 2 ^ n) mod 2).
Proof.
  intros Hn. rewrite Z.pow_add_r, Z.pow_1_r by lia.
  apply Z.rem_mul_r; lia.
Qed.

Lemma sticky_step m n :
  0 <= n ->
  Z.odd (m / 2 ^ n) || negb (m mod 2 ^ n =? 0) = negb (m mod 2 ^ (n + 1) =? 0).
Proof.
  intros Hn. rewrite mod_pow2_succ by assumption.
  assert (0 < 2 ^ n) by (apply Z.pow_pos_nonneg; lia).
  pose proof (Z.mod_pos_bound m (2 ^ n) ltac:(lia)).
  rewrite (Zmod_odd (m / 2 ^ n)).
  destruct (Z.odd (m / 2 ^ n)); cbn [orb].
  - symmetry. apply negb_true_iff, Z.eqb_neq. lia.
  - now rewrite Z.mul_0_r, Z.add_0_r.
Qed.

Lemma shr_iter n m r s :
  0 <= m ->
  Nat.iter (S n) shr_1 {| shr_m := m; shr_r := r; shr_s := s |}
  = {| shr_m := m / 2 ^ (Z.of_nat n + 1);
       shr_r := Z.odd (m / 2 ^ Z.of_nat n);
       shr_s := (r || s) || negb (m mod 2 ^ Z.of_nat n =? 0) |}.
Proof.
  intros Hm. induction n as [|n IH].
  - cbn [Nat.iter]. rewrite shr_1_nonneg by assumption.
    cbn [Z.of_nat Z.add]. rewrite Z.pow_0_r, Z.pow_1_r, Z.div_1_r, Z.mod_1_r.
    cbn. now rewrite orb_false_r.
  - change (Nat.iter (S (S n)) shr_1 ?x) with (shr_1 (Nat.iter (S n) shr_1 x)).
    rewrite IH, shr_1_nonneg.
    2:{ apply Z.div_pos; [assumption|apply Z.pow_pos_nonneg; lia]. }
    rewrite Nat2Z.inj_succ. unfold Z.succ.
    f_equal.
    + rewrite Z.div_div by (try apply Z.pow_pos_nonneg; lia).
      now rewrite (Z.pow_add_r 2 (Z.of_nat n + 1) 1), Z.pow_1_r by lia.
    + rewrite <- sticky_step by lia.
      destruct (Z.odd (m / 2 ^ Z.of_nat n)), r, s, (negb (m mod 2 ^ Z.of_nat n =? 0)); reflexivity.
Qed.

Lemma shr_record_of_loc_m mx lx : shr_m (shr_record_of_loc mx lx) = mx.
Proof. destruct lx as [|[]]; reflexivity. Qed.

Lemma shr_spec mx lx ex k :
  0 <= mx -> 0 <= k ->
  shr (shr_record_of_loc mx lx) ex k
  = ({| shr_m := mx / 2 ^ k; shr_r := fst (shr_bits mx lx k); shr_s := snd (shr_bits mx lx k) |},
     ex + k).
Proof.
  intros Hm Hk. unfold shr_bits. destruct k as [|p|p]; [| |lia].
  - cbn [shr Z.eqb fst snd]. rewrite Z.pow_0_r, Z.div_1_r, Z.add_0_r.
    destruct lx as [|[]]; reflexivity.
  - cbn [shr Z.eqb fst snd]. f_equal.
    rewrite iter_pos_nat. destruct (Pos2Nat.is_succ p) as [n Hn]. rewrite Hn.
    assert (Hp : Z.pos p = Z.of_nat n + 1) by lia.
    rewrite Hp. replace (Z.of_nat n + 1 - 1) with (Z.of_nat n) by lia.
    rewrite <- shr_iter by assumption. f_equal.
    pose proof (shr_record_of_loc_m mx lx).
    destruct (shr_record_of_loc mx lx); cbn in *; congruence.
Qed.

Lemma rne_spec q r s :
  round_nearest_even q (loc_of_shr_record {| shr_m := q; shr_r := r; shr_s := s |})
  = rne_up r s q.
Proof.
  unfold rne_up. destruct r, s; cbn; try reflexivity.
  rewrite <- Z.negb_odd. now destruct (Z.odd q).
Qed.

Lemma rne_up_bounds r s q : q <= rne_up r s q <= q + 1.
Proof. unfold rne_up. destruct (r && (s || Z.odd q)); lia. Qed.

Lemma div_digits_bounds p d :
  Zpos (digits2_pos p) = d -> 53 <= d ->
  2 ^ 52 <= Zpos p / 2 ^ (d - 53) < 2 ^ 53.
Proof.
  intros Hd H53. pose proof (digits2_bounds p) as [Blo Bhi]. rewrite Hd in *.
  assert (0 < 2 ^ (d - 53)) by (apply Z.pow_pos_nonneg; lia).
  assert (E1 : 2 ^ (d - 1) = 2 ^ (d - 53) * 2 ^ 52) by (rewrite <- Z.pow_add_r by lia; f_equal; lia).
  assert (E2 : 2 ^ d = 2 ^ (d - 53) * 2 ^ 53) by (rewrite <- Z.pow_add_r by lia; f_equal; lia).
  split.
  - apply Z.div_le_lower_bound; lia.
  - apply Z.div_lt_upper_bound; lia.
Qed.

(** What [binary_round_aux] computes on a positive mantissa of at least 53
    digits whose result stays in the normal range. *)
Lemma bra_normal p ex lx d :
  Zpos (digits2_pos p) = d -> 53 <= d ->
  -1074 <= ex + d - 53 -> ex + d - 52 <= 971 ->
  let q' := rne_up (fst (shr_bits (Zpos p) lx (d - 53))) (snd (shr_bits (Zpos p) lx (d - 53)))
                   (Zpos p / 2 ^ (d - 53)) in
  binary_round_aux f64_prec f64_emax false (Zpos p) ex lx
  = if q' <? 2 ^ 53 then S754_finite false (Z.to_pos q') (ex + d - 53)
    else S754_finite false (2 ^ 52)%positive (ex + d - 52).
Proof.
  intros Hd H53 Hlo Hhi q'.
  pose proof (div_digits_bounds p d Hd H53) as Hq.
  pose proof (rne_up_bounds (fst (shr_bits (Zpos p) lx (d - 53)))
                (snd (shr_bits (Zpos p) lx (d - 53))) (Zpos p / 2 ^ (d - 53))) as Hq'.
  fold q' in Hq'.
  unfold binary_round_aux, shr_fexp at 1. cbn [Zdigits2]. rewrite Hd.
  replace (fexp f64_prec f64_emax (d + ex) - ex) with (d - 53)
    by (unfold fexp, emin, f64_prec, f64_emax; lia).
  rewrite shr_spec by lia. cbn [shr_m].
  rewrite rne_spec. fold q'.
  destruct (Z.ltb_spec q' (2 ^ 53)) as [Hlt|Hge].
  - destruct q' as [|q|q] eqn:Eq'; try lia.
    unfold shr_fexp. cbn [Zdigits2].
    rewrite (digits2_unique q 53) by lia.
    replace (fexp f64_prec f64_emax (53 + (ex + (d - 53))) - (ex + (d - 53))) with 0
      by (unfold fexp, emin, f64_prec, f64_emax; lia).
    cbn [shr shr_record_of_loc shr_m Z.to_pos].
    replace (Z.leb (ex + (d - 53)) (f64_emax - f64_prec)) with true
      by (symmetry; apply Z.leb_le; unfold f64_prec, f64_emax; lia).
    f_equal. lia.
  - assert (Eq' : q' = 2 ^ 53) by lia. rewrite Eq'.
    unfold shr_fexp. change (Zdigits2 (2 ^ 53)) with 54.
    replace (fexp f64_prec f64_emax (54 + (ex + (d - 53))) - (ex + (d - 53))) with 1
      by (unfold fexp, emin, f64_prec, f64_emax; lia).
    cbn.
    replace (Z.leb (ex + (d - 53) + 1) 971) with true
      by (symmetry; apply Z.leb_le; lia).
    f_equal. lia.
Qed.

Lemma iter_xO_pow p t : Zpos (Pos.iter xO p t) = Zpos p * 2 ^ Zpos t.
Proof.
  rewrite Pos2Nat.inj_iter.
  rewrite <- (positive_nat_Z t).
  induction (Pos.to_nat t) as [|n IH].
  - cbn. lia.
  - cbn [nat_rect]. rewrite Pos2Z.inj_xO, IH, Nat2Z.inj_succ, Z.pow_succ_r by lia. lia.
Qed.

Lemma int_round_shape p :
  let d := Zpos (digits2_pos p) in
  2 ^ 52 <= fst (int_round (Zpos p)) < 2 ^ 53 /\
  (snd (int_round (Zpos p)) = d - 53 \/
   (snd (int_round (Zpos p)) = d - 52 /\ fst (int_round (Zpos p)) = 2 ^ 52)).
Proof.
  intros d. unfold int_round. cbn [Zdigits2]. fold d.
  pose proof (digits2_bounds p) as [Blo Bhi]. fold d in Blo, Bhi.
  destruct (Z.leb_spec d 53) as [Hd|Hd]; cbn [fst snd].
  - split; [|left; reflexivity].
    assert (0 < 2 ^ (53 - d)) by (apply Z.pow_pos_nonneg; lia).
    assert (E1 : 2 ^ (d - 1) * 2 ^ (53 - d) = 2 ^ 52)
      by (rewrite <- Z.pow_add_r by lia; f_equal; lia).
    assert (E2 : 2 ^ d * 2 ^ (53 - d) = 2 ^ 53)
      by (rewrite <- Z.pow_add_r by lia; f_equal; lia).
    nia.
  - pose proof (div_digits_bounds p d eq_refl ltac:(lia)) as Hq.
    match goal with |- context [rne_up ?r ?s ?q] =>
      pose proof (rne_up_bounds r s q) as Hq'; set (q' := rne_up r s q) in * end.
    destruct (Z.ltb_spec q' (2 ^ 53)); cbn [fst snd].
    + split; [lia|left; reflexivity].
    + split; [lia|right; split; [lia|reflexivity]].
Qed.

Lemma bra_exact53 p e :
  Zpos (digits2_pos p) = 53 -> -1074 <= e <= 970 ->
  binary_round_aux f64_prec f64_emax false (Zpos p) e loc_Exact = S754_finite false p e.
Proof.
  intros Hd He. pose proof (digits2_bounds p) as [_ Bhi]. rewrite Hd in Bhi.
  rewrite (bra_normal p e loc_Exact 53) by lia.
  change (53 - 53) with 0. unfold shr_bits. change (0 =? 0) with true.
  cbn [fst snd shr_record_of_loc shr_r shr_s]. unfold rne_up. cbn [andb].
  rewrite Z.pow_0_r, Z.div_1_r.
  replace (Zpos p <? 2 ^ 53) with true by (symmetry; apply Z.ltb_lt; lia).
  f_equal. lia.
Qed.

Lemma f64_of_int_round p :
  Zpos (digits2_pos p) <= 1000 ->
  f64_of_int (Zpos p)
  = S754_finite false (Z.to_pos (fst (int_round (Zpos p)))) (snd (int_round (Zpos p))).
Proof.
  intros Hd. pose proof (digits2_bounds p) as [Blo Bhi].
  unfold f64_of_int, binary_normalize, binary_round, int_round. cbn [Zdigits2].
  remember (Zpos (digits2_pos p)) as d eqn:Hdd. symmetry in Hdd.
  replace (fexp f64_prec f64_emax (d + 0)) with (d - 53)
    by (unfold fexp, emin, f64_prec, f64_emax; lia).
  unfold shl_align. rewrite Z.sub_0_r.
  destruct (Z.leb_spec d 53) as [H53|H53]; cbn [fst snd].
  - destruct (d - 53) as [|t|t] eqn:Et; try lia.
    + assert (Ed : d = 53) by lia. rewrite Ed in *.
      rewrite bra_exact53 by lia.
      change (53 - 53) with 0. rewrite Z.pow_0_r, Z.mul_1_r. reflexivity.
    + assert (E2 : 53 - d = Zpos t) by lia. rewrite E2.
      assert (0 < 2 ^ Zpos t) by (apply Z.pow_pos_nonneg; lia).
      assert (E3 : 2 ^ (d - 1) * 2 ^ Zpos t = 2 ^ 52)
        by (rewrite <- Z.pow_add_r by lia; f_equal; lia).
      assert (E4 : 2 ^ d * 2 ^ Zpos t = 2 ^ 53)
        by (rewrite <- Z.pow_add_r by lia; f_equal; lia).
      pose proof (iter_xO_pow p t) as Hit.
      rewrite bra_exact53.
      * rewrite <- Hit. reflexivity.
      * apply digits2_unique. rewrite Hit. nia.
      * lia.
  - destruct (d - 53) as [|t|t] eqn:Et; try lia.
    rewrite (bra_normal p 0 loc_Exact d) by lia.
    rewrite Et. unfold shr_bits.
    replace (Zpos t =? 0) with false by reflexivity.
    cbn [fst snd shr_record_of_loc shr_r shr_s orb].
    match goal with |- context [rne_up ?r ?s ?q] => set (q' := rne_up r s q) end.
    destruct (q' <? 2 ^ 53); cbn [fst snd]; f_equal; lia.
Qed.

Lemma rne_up_mono h n1 n2 :
  0 < h -> 0 <= n1 <= n2 ->
  rne_up (Z.odd (n1 / h)) (negb (n1 mod h =? 0)) (n1 / (h * 2))
  <= rne_up (Z.odd (n2 / h)) (negb (n2 mod h =? 0)) (n2 / (h * 2)).
Proof.
  intros Hh Hn.
  rewrite <- !Z.div_div by lia.
  pose proof (Z.div_mod n1 h ltac:(lia)) as D1.
  pose proof (Z.div_mod n2 h ltac:(lia)) as D2.
  pose proof (Z.mod_pos_bound n1 h Hh) as B1.
  pose proof (Z.mod_pos_bound n2 h Hh) as B2.
  assert (Ha : n1 / h <= n2 / h) by (apply Z.div_le_mono; lia).
  assert (Hab : n1 / h = n2 / h -> n1 mod h <= n2 mod h).
  { intros E. rewrite E in D1. lia. }
  set (a1 := n1 / h) in *. set (a2 := n2 / h) in *.
  set (b1 := n1 mod h) in *. set (b2 := n2 mod h) in *.
  clearbody a1 a2 b1 b2. clear D1 D2.
  pose proof (Z.div_mod a1 2 ltac:(lia)) as Q1.
  pose proof (Z.div_mod a2 2 ltac:(lia)) as Q2.
  rewrite (Zmod_odd a1) in Q1. rewrite (Zmod_odd a2) in Q2.
  unfold rne_up.
  destruct (Z.odd a1), (Z.odd a2), (Z.eqb_spec b1 0), (Z.eqb_spec b2 0);
    cbn [negb andb orb];
    destruct (Z.odd (a1 / 2)) eqn:O1, (Z.odd (a2 / 2)) eqn:O2; cbn [negb andb orb];
    try lia;
    assert (a1 / 2 <> a2 / 2) by (intros E; rewrite E in O1; congruence); lia.
Qed.

Lemma digits2_mono p1 p2 :
  Zpos p1 <= Zpos p2 -> Zpos (digits2_pos p1) <= Zpos (digits2_pos p2).
Proof.
  intros H. pose proof (digits2_bounds p1) as [L1 _]. pose proof (digits2_bounds p2) as [_ U2].
  assert (Zpos (digits2_pos p1) - 1 < Zpos (digits2_pos p2)); [|lia].
  apply (Z.pow_lt_mono_r_iff 2); lia.
Qed.

Lemma int_round_mono p1 p2 :
  Zpos p1 <= Zpos p2 -> fin_le (int_round (Zpos p1)) (int_round (Zpos p2)).
Proof.
  intros H. pose proof (digits2_mono p1 p2 H) as Hd.
  destruct (Z.eq_dec (Zpos (digits2_pos p1)) (Zpos (digits2_pos p2))) as [E|NE].
  - unfold fin_le, int_round. cbn [Zdigits2]. rewrite E.
    set (d := Zpos (digits2_pos p2)).
    destruct (Z.leb_spec d 53) as [H53|H53]; cbn [fst snd].
    + right. split; [reflexivity|].
      apply Z.mul_le_mono_nonneg_r; [apply Z.pow_nonneg|]; lia.
    + pose proof (div_digits_bounds p1 d E ltac:(lia)) as B1.
      pose proof (div_digits_bounds p2 d eq_refl ltac:(lia)) as B2.
      assert (Hk : 2 ^ (d - 53) = 2 ^ (d - 53 - 1) * 2).
      { rewrite (pow2_pred (d - 53)) by lia. lia. }
      rewrite Hk in *.
      pose proof (rne_up_mono (2 ^ (d - 53 - 1)) (Zpos p1) (Zpos p2)
                    ltac:(apply Z.pow_pos_nonneg; lia) ltac:(lia)) as Hm.
      match type of Hm with ?x <= ?y =>
        pose proof (rne_up_bounds (Z.odd (Z.pos p1 / 2 ^ (d - 53 - 1)))
                     (negb (Z.pos p1 mod 2 ^ (d - 53 - 1) =? 0))
                     (Z.pos p1 / (2 ^ (d - 53 - 1) * 2)));
        pose proof (rne_up_bounds (Z.odd (Z.pos p2 / 2 ^ (d - 53 - 1)))
                     (negb (Z.pos p2 mod 2 ^ (d - 53 - 1) =? 0))
                     (Z.pos p2 / (2 ^ (d - 53 - 1) * 2)));
        set (q1 := x) in *; set (q2 := y) in * end.
      destruct (Z.ltb_spec q1 (2 ^ 53)), (Z.ltb_spec q2 (2 ^ 53)); cbn [fst snd]; lia.
  - pose proof (int_round_shape p1) as [B1 S1]. pose proof (int_round_shape p2) as [B2 S2].
    cbv zeta in *. unfold fin_le. lia.
Qed.

Lemma SFdiv_core_normal m1 e1 m2 e2 :
  Zpos (digits2_pos m1) = 53 -> Zpos (digits2_pos m2) = 53 ->
  -1021 <= e1 - e2 ->
  SFdiv_core_binary f64_prec f64_emax (Zpos m1) e1 (Zpos m2) e2
  = (Zpos m1 * 2 ^ 53 / Zpos m2, e1 - e2 - 53,
     new_location (Zpos m2) ((Zpos m1 * 2 ^ 53) mod Zpos m2)).
Proof.
  intros D1 D2 He. unfold SFdiv_core_binary. cbn [Zdigits2]. rewrite D1, D2.
  replace (Z.min (fexp f64_prec f64_emax (53 + e1 - (53 + e2))) (e1 - e2)) with (e1 - e2 - 53)
    by (unfold fexp, emin, f64_prec, f64_emax; lia).
  replace (e1 - e2 - (e1 - e2 - 53)) with 53 by lia.
  rewrite Z.shiftl_mul_pow2 by lia.
  unfold Z.div, Z.modulo.
  now destruct (Z.div_eucl (Zpos m1 * 2 ^ 53) (Zpos m2)).
Qed.

Lemma new_location_0 nb : new_location nb 0 = loc_Exact.
Proof.
  unfold new_location, new_location_even, new_location_odd.
  now destruct (Z.even nb).
Qed.

(** Quotient of two normal positive doubles, the dividend not above the
    divisor: the result is a positive double not above 1.0. *)
Lemma f64_div_le_one m1 e1 m2 e2 :
  2 ^ 52 <= Zpos m1 < 2 ^ 53 -> 2 ^ 52 <= Zpos m2 < 2 ^ 53 ->
  -500 <= e1 <= 500 -> -500 <= e2 <= 500 ->
  fin_le (Zpos m1, e1) (Zpos m2, e2) ->
  exists m e,
    f64_div (S754_finite false m1 e1) (S754_finite false m2 e2) = S754_finite false m e /\
    (e < -52 \/ (e = -52 /\ m = (2 ^ 52)%positive)).
Proof.
  intros B1 B2 E1 E2 Hle. unfold fin_le in Hle. cbn [fst snd] in Hle.
  assert (D1 : Zpos (digits2_pos m1) = 53) by (apply digits2_unique; lia).
  assert (D2 : Zpos (digits2_pos m2) = 53) by (apply digits2_unique; lia).
  unfold f64_div, SFdiv. rewrite SFdiv_core_normal by lia. cbn [xorb].
  set (q := Zpos m1 * 2 ^ 53 / Zpos m2).
  set (l := new_location (Zpos m2) ((Zpos m1 * 2 ^ 53) mod Zpos m2)).
  destruct (Z.eq_dec (Zpos m1) (Zpos m2)) as [Em|Nm].
  - (* equal mantissas: the quotient of the mantissas is exactly 2^53 *)
    assert (Hq : q = 2 ^ 53).
    { unfold q. rewrite Em, Z.mul_comm. apply Z.div_mul. lia. }
    assert (Hl : l = loc_Exact).
    { unfold l. rewrite Em, Z.mul_comm, Z.mod_mul by lia. apply new_location_0. }
    rewrite Hq, Hl.
    change (2 ^ 53) with (Zpos (2 ^ 53)%positive).
    rewrite (bra_normal (2 ^ 53)%positive (e1 - e2 - 53) loc_Exact 54) by (try reflexivity; lia).
    change (if _ <? _ then ?a else _) with a.
    change (Z.to_pos _) with (2 ^ 52)%positive.
    eexists _, _. split; [reflexivity|]. lia.
  - assert (Hqlo : 2 ^ 52 <= q).
    { apply Z.div_le_lower_bound; lia. }
    assert (Hqhi : q < 2 ^ 54).
    { apply Z.div_lt_upper_bound; lia. }
    assert (Hq53 : e1 = e2 -> q < 2 ^ 53).
    { intros Ee. apply Z.div_lt_upper_bound; lia. }
    destruct q as [|pq|pq] eqn:Eq; try lia.
    destruct (Z_lt_le_dec (Zpos pq) (2 ^ 53)) as [Hs|Hs].
    + assert (Dq : Zpos (digits2_pos pq) = 53) by (apply digits2_unique; lia).
      rewrite (bra_normal pq (e1 - e2 - 53) l 53) by lia.
      match goal with |- context [rne_up ?r ?s ?x] =>
        pose proof (rne_up_bounds r s x) as Hb; set (q' := rne_up r s x) in * end.
      change (53 - 53) with 0 in Hb. rewrite Z.pow_0_r, Z.div_1_r in Hb.
      destruct (Z.ltb_spec q' (2 ^ 53)); eexists _, _; (split; [reflexivity|]); lia.
    + assert (Dq : Zpos (digits2_pos pq) = 54) by (apply digits2_unique; lia).
      rewrite (bra_normal pq (e1 - e2 - 53) l 54) by lia.
      match goal with |- context [rne_up ?r ?s ?x] => set (q' := rne_up r s x) in * end.
      destruct (Z.ltb_spec q' (2 ^ 53)); eexists _, _; (split; [reflexivity|]); lia.
Qed.

Lemma digits2_le_64 p : Zpos p < 2 ^ 63 -> Zpos (digits2_pos p) <= 63.
Proof.
  intros H. pose proof (digits2_bounds p) as [L _].
  assert (Zpos (digits2_pos p) - 1 < 63); [|lia].
  apply (Z.pow_lt_mono_r_iff 2); lia.
Qed.

(** The quotient of two converted integers [0 <= L <= M], [M] a positive
    [int], lies between 0.0 and 1.0. *)
Lemma f64_ratio_unit L M :
  0 <= L <= M -> 0 < M < 2 ^ 63 ->
  inUnitInterval (f64_div (f64_of_int L) (f64_of_int M)).
Proof.
  intros HL HM. unfold inUnitInterval.
  destruct M as [|pm|pm]; try lia.
  pose proof (digits2_le_64 pm ltac:(lia)) as DM.
  pose proof (int_round_shape pm) as [BM SM]. cbv zeta in SM.
  rewrite (f64_of_int_round pm) by lia.
  destruct L as [|pl|pl]; try lia.
  - split; reflexivity.
  - pose proof (digits2_le_64 pl ltac:(lia)) as DL.
    pose proof (int_round_shape pl) as [BL SL]. cbv zeta in SL.
    pose proof (int_round_mono pl pm ltac:(lia)) as Hmono.
    rewrite (f64_of_int_round pl) by lia.
    destruct (int_round (Zpos pl)) as [m1 e1], (int_round (Zpos pm)) as [m2 e2].
    cbn [fst snd] in *.
    destruct m1 as [|m1|m1]; try lia. destruct m2 as [|m2|m2]; try lia.
    cbn [Z.to_pos].
    destruct (f64_div_le_one m1 e1 m2 e2) as (m & e & -> & He); try lia.
    { exact Hmono. }
    split; [reflexivity|].
    unfold f64_le, SFleb, f64_one, SFcompare.
    destruct He as [He|[-> ->]].
    + apply Z.compare_lt_iff in He. now rewrite He.
    + reflexivity.
Qed.

(** * Longest common subsequence *)

Lemma string_eqb_spec s1 s2 : reflect (s1 = s2) (string_eqb s1 s2).
Proof.
  revert s2. induction s1 as [|c1 t1 IH]; intros [|c2 t2]; cbn; try (constructor; congruence).
  destruct (Ascii.eqb_spec c1 c2) as [->|Hc]; cbn.
  - destruct (IH t2) as [->|Ht]; constructor; congruence.
  - constructor; congruence.
Qed.

(** ** Lists updated by index *)

Lemma length_upd {A} (l : list A) i x : length (upd l i x) = length l.
Proof. revert i; induction l as [|h t IH]; intros [|i]; cbn; auto. Qed.

Lemma nth_upd_eq {A} (l : list A) i x d : (i < length l)%nat -> nth i (upd l i x) d = x.
Proof.
  revert i; induction l as [|h t IH]; intros [|i] Hi; cbn in *; try lia; auto.
  apply IH; lia.
Qed.

Lemma nth_upd_ne {A} (l : list A) i j x d : i <> j -> nth j (upd l i x) d = nth j l d.
Proof.
  revert i j; induction l as [|h t IH]; intros [|i] [|j] Hij; cbn; auto; try congruence.
Qed.

Lemma upd_out_of_range {A} (l : list A) i x : (length l <= i)%nat -> upd l i x = l.
Proof.
  revert i; induction l as [|h t IH]; intros [|i] Hi; cbn in *; try lia; auto.
  f_equal. apply IH. lia.
Qed.

Lemma get2_set2_eq dp i j v :
  (i < length dp)%nat -> (j < length (nth i dp []))%nat -> get2 (set2 dp i j v) i j = v.
Proof.
  intros Hi Hj. unfold get2, set2. rewrite nth_upd_eq by assumption. now apply nth_upd_eq.
Qed.

Lemma get2_set2_ne dp i j v i' j' :
  (i', j') <> (i, j) -> get2 (set2 dp i j v) i' j' = get2 dp i' j'.
Proof.
  intros Hne. unfold get2, set2.
  destruct (Nat.eq_dec i i') as [<-|Hi].
  - destruct (Nat.lt_ge_cases i (length dp)) as [Hlt|Hge].
    + rewrite nth_upd_eq by assumption. apply nth_upd_ne. congruence.
    + now rewrite upd_out_of_range.
  - now rewrite nth_upd_ne.
Qed.

(** ** The table computes the recurrence *)

Lemma fold_left_seq_inv {S : Type} (f : S -> nat -> S) (P : nat -> S -> Prop) n :
  forall a s,
    P a s ->
    (forall k s', (a <= k < a + n)%nat -> P k s' -> P (Datatypes.S k) (f s' k)) ->
    P (a + n)%nat (fold_left f (seq a n) s).
Proof.
  induction n as [|n IH]; intros a s H0 Hstep; cbn [seq fold_left].
  - now rewrite Nat.add_0_r.
  - rewrite <- Nat.add_succ_comm. apply IH.
    + apply Hstep; [lia|assumption].
    + intros k s' Hk. apply Hstep. lia.
Qed.

Lemma lcsLength_0_r s1 s2 i : lcsLength s1 s2 i 0 = 0.
Proof. now destruct i. Qed.

Lemma lcsLength_step s1 s2 i j :
  lcsLength s1 s2 (S i) (S j)
  = if Ascii.eqb (byteAt s1 i) (byteAt s2 j) then lcsLength s1 s2 i j + 1
    else Z.max (lcsLength s1 s2 i (S j)) (lcsLength s1 s2 (S i) j).
Proof. reflexivity. Qed.

Section Table.
Variables s1 s2 : gostring.

Lemma wellShaped_set2 dp i j v : wellShaped s1 s2 dp -> wellShaped s1 s2 (set2 dp i j v).
Proof.
  intros [Hl Hr]. unfold set2. split.
  - now rewrite length_upd.
  - intros i' Hi'. destruct (Nat.eq_dec i i') as [<-|Hne].
    + rewrite nth_upd_eq by lia. rewrite length_upd. now apply Hr.
    + rewrite nth_upd_ne by assumption. now apply Hr.
Qed.

Lemma wellShaped_lcsCell dp i j : wellShaped s1 s2 dp -> wellShaped s1 s2 (lcsCell s1 s2 i dp j).
Proof.
  intros Hw. unfold lcsCell.
  destruct (Ascii.eqb _ _); [|destruct (_ >? _)]; now apply wellShaped_set2.
Qed.

Lemma lcsCell_value dp i j :
  (1 <= i <= length s1)%nat -> (1 <= j <= length s2)%nat ->
  filledTo s1 s2 i j dp ->
  exists v, lcsCell s1 s2 i dp j = set2 dp i j v /\ v = lcsLength s1 s2 i j.
Proof.
  intros Hi Hj Hf. unfold lcsCell.
  destruct i as [|i]; [lia|]. destruct j as [|j]; [lia|].
  replace (S i - 1)%nat with i by lia. replace (S j - 1)%nat with j by lia.
  rewrite lcsLength_step.
  rewrite (Hf i j), (Hf i (S j)), (Hf (S i) j) by lia.
  destruct (Ascii.eqb _ _).
  - eexists; split; reflexivity.
  - destruct (Z.gtb_spec (lcsLength s1 s2 i (S j)) (lcsLength s1 s2 (S i) j));
      eexists; (split; [reflexivity|]); lia.
Qed.

Lemma filledTo_lcsCell dp i j :
  (1 <= i <= length s1)%nat -> (1 <= j <= length s2)%nat ->
  wellShaped s1 s2 dp -> filledTo s1 s2 i j dp -> filledTo s1 s2 i (S j) (lcsCell s1 s2 i dp j).
Proof.
  intros Hi Hj [Hl Hr] Hf.
  destruct (lcsCell_value dp i j Hi Hj Hf) as (v & -> & ->).
  intros i' j' Hi' Hj' Hc.
  destruct (Nat.eq_dec i' i) as [->|Hni]; [destruct (Nat.eq_dec j' j) as [->|Hnj]|].
  - apply get2_set2_eq; [lia|rewrite Hr; lia].
  - rewrite get2_set2_ne by congruence. apply Hf; lia.
  - rewrite get2_set2_ne by congruence. apply Hf; lia.
Qed.

Lemma lcsRow_inv dp i :
  (1 <= i <= length s1)%nat ->
  wellShaped s1 s2 dp /\ filledTo s1 s2 i 1 dp ->
  wellShaped s1 s2 (lcsRow s1 s2 dp i) /\ filledTo s1 s2 (S i) 1 (lcsRow s1 s2 dp i).
Proof.
  intros Hi H0. unfold lcsRow.
  pose proof (fold_left_seq_inv (lcsCell s1 s2 i)
                (fun j d => wellShaped s1 s2 d /\ filledTo s1 s2 i j d) (length s2) 1 dp H0) as Hfold.
  destruct Hfold as [Hw Hf].
  - intros k d Hk [Hw Hf]. split.
    + now apply wellShaped_lcsCell.
    + apply filledTo_lcsCell; try assumption; lia.
  - split; [assumption|].
    intros i' j' Hi' Hj' Hc. apply Hf; lia.
Qed.

Lemma init_inv :
  wellShaped s1 s2 (repeat (repeat 0 (length s2 + 1)) (length s1 + 1)) /\
  filledTo s1 s2 1 1 (repeat (repeat 0 (length s2 + 1)) (length s1 + 1)).
Proof.
  assert (Hnth : forall i, (i <= length s1)%nat ->
                   nth i (repeat (repeat 0 (length s2 + 1)) (length s1 + 1)) [] = repeat 0 (length s2 + 1)).
  { intros i Hi. apply nth_repeat_lt. lia. }
  split; [split|].
  - apply repeat_length.
  - intros i Hi. rewrite Hnth by assumption. apply repeat_length.
  - intros i j Hi Hj Hc. unfold get2. rewrite Hnth by assumption.
    rewrite nth_repeat.
    destruct Hc as [->|[->|[Hc|[_ Hc]]]].
    + reflexivity.
    + now rewrite lcsLength_0_r.
    + assert (i = 0)%nat as -> by lia. reflexivity.
    + assert (j = 0)%nat as -> by lia. now rewrite lcsLength_0_r.
Qed.

Lemma longestCommonSubsequence_recurrence :
  longestCommonSubsequence s1 s2 = lcsLength s1 s2 (length s1) (length s2).
Proof.
  unfold longestCommonSubsequence.
  pose proof (fold_left_seq_inv (lcsRow s1 s2)
                (fun i d => wellShaped s1 s2 d /\ filledTo s1 s2 i 1 d) (length s1) 1 _ init_inv) as Hfold.
  destruct Hfold as [Hw Hf].
  - intros k d Hk Hinv. apply lcsRow_inv; [lia|assumption].
  - apply Hf; lia.
Qed.
End Table.

(** ** The recurrence is the length of a longest common subsequence *)

Lemma Subseq_nil_l {A} (l : list A) : Subseq [] l.
Proof. induction l; [apply Subseq_nil|now apply Subseq_skip]. Qed.

Lemma Subseq_nil_r {A} (c : list A) : Subseq c [] -> c = [].
Proof. now inversion 1. Qed.

Lemma Subseq_refl {A} (l : list A) : Subseq l l.
Proof. induction l; [apply Subseq_nil|now apply Subseq_take]. Qed.

Lemma Subseq_length {A} (c l : list A) : Subseq c l -> (length c <= length l)%nat.
Proof. induction 1; cbn; lia. Qed.

Lemma Subseq_trans {A} (a b c : list A) : Subseq a b -> Subseq b c -> Subseq a c.
Proof.
  intros Hab Hbc. revert a Hab.
  induction Hbc as [|x l1 l2 Hbc IH|x l1 l2 Hbc IH]; intros a Hab.
  - assumption.
  - apply Subseq_skip. now apply IH.
  - inversion Hab; subst; [apply Subseq_skip|apply Subseq_take]; now apply IH.
Qed.

Lemma Subseq_snoc {A} (c l : list A) x : Subseq c l -> Subseq (c ++ [x]) (l ++ [x]).
Proof.
  induction 1; cbn.
  - apply Subseq_take, Subseq_nil.
  - now apply Subseq_skip.
  - now apply Subseq_take.
Qed.

Lemma Subseq_app_r {A} (c l : list A) x : Subseq c l -> Subseq c (l ++ [x]).
Proof.
  induction 1; cbn.
  - apply Subseq_skip, Subseq_nil.
  - now apply Subseq_skip.
  - now apply Subseq_take.
Qed.

Lemma Subseq_drop_last {A} (c l : list A) x : Subseq (c ++ [x]) l -> Subseq c l.
Proof. apply Subseq_trans, Subseq_app_r, Subseq_refl. Qed.

Lemma Subseq_snoc_inv {A} (l : list A) x :
  forall c, Subseq c (l ++ [x]) ->
            Subseq c l \/ exists c', c = c' ++ [x] /\ Subseq c' l.
Proof.
  induction l as [|y l IH]; intros c Hc; cbn in Hc.
  - inversion Hc as [|? ? ? Hs|? c0 ? Hs]; subst; apply Subseq_nil_r in Hs; subst.
    + left. apply Subseq_nil.
    + right. exists []. split; [reflexivity|apply Subseq_nil].
  - inversion Hc as [|? ? ? Hs|? c0 ? Hs]; subst.
    + destruct (IH _ Hs) as [Hl|(c' & -> & Hl)].
      * left. now apply Subseq_skip.
      * right. exists c'. split; [reflexivity|now apply Subseq_skip].
    + destruct (IH _ Hs) as [Hl|(c' & -> & Hl)].
      * left. now apply Subseq_take.
      * right. exists (y :: c'). split; [reflexivity|now apply Subseq_take].
Qed.

Lemma firstn_S_snoc (s : gostring) i :
  (i < length s)%nat -> firstn (S i) s = firstn i s ++ [byteAt s i].
Proof.
  revert i. induction s as [|c s IH]; intros i Hi; cbn in Hi; [lia|].
  destruct i as [|i]; [reflexivity|].
  change (firstn (S (S i)) (c :: s)) with (c :: firstn (S i) s).
  rewrite IH by lia. reflexivity.
Qed.

Lemma len_snoc (c : gostring) x : len (c ++ [x]) = len c + 1.
Proof. unfold len. rewrite length_app. cbn. lia. Qed.

Lemma IsLCSLength_nil_l b : IsLCSLength [] b 0.
Proof.
  split.
  - exists []. repeat split; [apply Subseq_nil|apply Subseq_nil_l].
  - intros c Hc _. apply Subseq_nil_r in Hc. now subst.
Qed.

Lemma IsLCSLength_nil_r a : IsLCSLength a [] 0.
Proof.
  split.
  - exists []. repeat split; [apply Subseq_nil_l|apply Subseq_nil].
  - intros c _ Hc. apply Subseq_nil_r in Hc. now subst.
Qed.

Lemma lcsLength_optimal s1 s2 :
  forall i j, (i <= length s1)%nat -> (j <= length s2)%nat ->
    IsLCSLength (firstn i s1) (firstn j s2) (lcsLength s1 s2 i j).
Proof.
  induction i as [|i IHi]; intros j Hi Hj.
  - apply IsLCSLength_nil_l.
  - induction j as [|j IHj].
    + rewrite lcsLength_0_r. apply IsLCSLength_nil_r.
    + rewrite lcsLength_step.
      rewrite (firstn_S_snoc s1 i), (firstn_S_snoc s2 j) by lia.
      destruct (IHi j ltac:(lia) ltac:(lia)) as [(c0 & Ha0 & Hb0 & Hl0) Hup0].
      destruct (IHi (S j) ltac:(lia) Hj) as [(c1 & Ha1 & Hb1 & Hl1) Hup1].
      destruct (IHj ltac:(lia)) as [(c2 & Ha2 & Hb2 & Hl2) Hup2].
      rewrite (firstn_S_snoc s2 j) in Hb1, Hup1 by lia.
      rewrite (firstn_S_snoc s1 i) in Ha2, Hup2 by lia.
      destruct (Ascii.eqb_spec (byteAt s1 i) (byteAt s2 j)) as [E|NE].
      * rewrite <- E in *. split.
        -- exists (c0 ++ [byteAt s1 i]). repeat split; try now apply Subseq_snoc.
           rewrite len_snoc. lia.
        -- intros c Hca Hcb.
           destruct (Subseq_snoc_inv _ _ _ Hca) as [Hl|(c' & -> & Hl)].
           ++ destruct (Subseq_snoc_inv _ _ _ Hcb) as [Hr|(c' & -> & Hr)].
              ** specialize (Hup0 c Hl Hr). lia.
              ** apply Subseq_drop_last in Hl. specialize (Hup0 c' Hl Hr).
                 rewrite len_snoc. lia.
           ++ rewrite len_snoc.
              destruct (Subseq_snoc_inv _ _ _ Hcb) as [Hr|(c'' & Ec & Hr)].
              ** apply Subseq_drop_last in Hr. specialize (Hup0 c' Hl Hr). lia.
              ** apply app_inj_tail in Ec as [-> _]. specialize (Hup0 c'' Hl Hr). lia.
      * split.
        -- destruct (Z.max_spec (lcsLength s1 s2 i (S j)) (lcsLength s1 s2 (S i) j))
             as [[_ ->]|[_ ->]].
           ++ exists c2. repeat split; try assumption. now apply Subseq_app_r.
           ++ exists c1. repeat split; try assumption. now apply Subseq_app_r.
        -- intros c Hca Hcb.
           destruct (Subseq_snoc_inv _ _ _ Hca) as [Hl|(c' & -> & Hl)].
           ++ specialize (Hup1 c Hl Hcb). lia.
           ++ destruct (Subseq_snoc_inv _ _ _ Hcb) as [Hr|(c'' & Ec & Hr)].
              ** specialize (Hup2 _ Hca Hr). lia.
              ** apply app_inj_tail in Ec as [_ Ec]. congruence.
Qed.

Lemma longestCommonSubsequence_optimal s1 s2 :
  IsLCSLength s1 s2 (longestCommonSubsequence s1 s2).
Proof.
  rewrite longestCommonSubsequence_recurrence.
  pose proof (lcsLength_optimal s1 s2 (length s1) (length s2) (Nat.le_refl _) (Nat.le_refl _)) as H.
  now rewrite !firstn_all in H.
Qed.

Lemma IsLCSLength_bounds a b L :
  IsLCSLength a b L -> 0 <= L <= Z.min (len a) (len b).
Proof.
  intros [(c & Ha & Hb & <-) _].
  apply Subseq_length in Ha, Hb. unfold len. lia.
Qed.

(** Every cell of the table is the LCS length of two prefixes, so it lies
    between 0 and the shorter length: the [int] additions of the loop never
    wrap around. *)
Lemma lcsLength_range s1 s2 i j :
  (i <= length s1)%nat -> (j <= length s2)%nat ->
  0 <= lcsLength s1 s2 i j <= Z.of_nat (Nat.min i j).
Proof.
  intros Hi Hj.
  pose proof (IsLCSLength_bounds _ _ _ (lcsLength_optimal s1 s2 i j Hi Hj)) as Hb.
  unfold len in Hb. rewrite !length_firstn in Hb. lia.
Qed.

(** * The similarity score *)

Lemma string_eqb_refl s : string_eqb s s = true.
Proof. now destruct (string_eqb_spec s s). Qed.

Lemma string_eqb_neq s1 s2 : s1 <> s2 -> string_eqb s1 s2 = false.
Proof. intros Hne. now destruct (string_eqb_spec s1 s2). Qed.

Lemma calculateSimilarity_neq a b :
  a <> b ->
  calculateSimilarity a b
  = f64_div (f64_of_int (longestCommonSubsequence a b)) (f64_of_int (Z.max (len a) (len b))).
Proof.
  intros Hne. unfold calculateSimilarity. rewrite string_eqb_neq by assumption.
  assert (Hmax : (if len b >? len a then len b else len a) = Z.max (len a) (len b)).
  { destruct (Z.gtb_spec (len b) (len a)); lia. }
  rewrite Hmax.
  destruct (Z.eqb_spec (Z.max (len a) (len b)) 0) as [E|_]; [|reflexivity].
  exfalso. apply Hne. unfold len in E.
  destruct a, b; cbn in E; try lia. reflexivity.
Qed.

Lemma calculateSimilarity_unit a b :
  len a <= maxInt -> len b <= maxInt -> inUnitInterval (calculateSimilarity a b).
Proof.
  intros Ha Hb. destruct (string_eqb_spec a b) as [->|Hne].
  - unfold calculateSimilarity. rewrite string_eqb_refl. split; reflexivity.
  - rewrite calculateSimilarity_neq by assumption.
    pose proof (IsLCSLength_bounds _ _ _ (longestCommonSubsequence_optimal a b)) as HL.
    assert (0 < Z.max (len a) (len b)).
    { unfold len in *. destruct a, b; cbn [length] in *; try lia. congruence. }
    apply f64_ratio_unit; unfold maxInt in *; lia.
Qed.

(** C1.  [calculateSimilarity(a, b)] is exactly 1.0 when [a == b] (the empty
    strings included); otherwise it is the LCS length of the two byte
    sequences, which the table computes by the classic recurrence, divided
    in [float64] by the larger of the two lengths; and the score lies
    between 0.0 and 1.0 (a Go string has at most [maxInt] bytes). *)
Theorem calculateSimilarity_spec (a b : gostring) :
  (a = b -> calculateSimilarity a b = f64_one) /\
  (a <> b ->
     IsLCSLength a b (longestCommonSubsequence a b) /\
     longestCommonSubsequence a b = lcsLength a b (length a) (length b) /\
     calculateSimilarity a b
     = f64_div (f64_of_int (longestCommonSubsequence a b))
               (f64_of_int (Z.max (len a) (len b)))) /\
  (len a <= maxInt -> len b <= maxInt -> inUnitInterval (calculateSimilarity a b)).
Proof.
  split; [|split].
  - intros ->. unfold calculateSimilarity. now rewrite string_eqb_refl.
  - intros Hne. split; [|split].
    + apply longestCommonSubsequence_optimal.
    + apply longestCommonSubsequence_recurrence.
    + now apply calculateSimilarity_neq.
  - apply calculateSimilarity_unit.
Qed.

Lemma calculateSimilarity_spec_witness :
  calculateSimilarity (gs "") (gs "") = f64_one /\
  calculateSimilarity (gs "how to code") (gs "how to cook")
  = f64_div (f64_of_int 9) (f64_of_int 11) /\
  inUnitInterval (calculateSimilarity (gs "how to code") (gs "how to cook")).
Proof.
  pose proof (calculateSimilarity_spec (gs "") (gs "")) as [Hsame _].
  pose proof (calculateSimilarity_spec (gs "how to code") (gs "how to cook")) as (_ & Hdiff & Hunit).
  split; [|split].
  - apply Hsame. reflexivity.
  - apply Hdiff. discriminate.
  - apply Hunit; vm_compute; discriminate.
Defined.

(** * Normalisation *)

Lemma replaceMatches_skip m repl s :
  forall k, replaceMatches m repl k s = replaceMatches m repl 0 (skipn k s).
Proof.
  induction s as [|c s IH]; intros [|k]; try reflexivity.
  cbn [replaceMatches skipn]. apply IH.
Qed.

Lemma replaceMatches_cons m repl c s :
  replaceMatches m repl 0 (c :: s)
  = match m (c :: s) with
    | Some (S n) => repl ++ replaceMatches m repl 0 (skipn n s)
    | _ => c :: replaceMatches m repl 0 s
    end.
Proof.
  cbn [replaceMatches]. destruct (m (c :: s)) as [[|n]|]; try reflexivity.
  now rewrite replaceMatches_skip.
Qed.

Lemma replaceMatches_forallb p m repl s :
  forallb p repl = true ->
  forall k, forallb p s = true -> forallb p (replaceMatches m repl k s) = true.
Proof.
  intros Hrepl. induction s as [|c s IH]; intros k Hs; [reflexivity|].
  cbn [forallb] in Hs. apply andb_true_iff in Hs as [Hc Hs].
  destruct k as [|k]; cbn [replaceMatches]; [|now apply IH].
  destruct (m (c :: s)) as [[|n]|].
  - cbn [forallb]. rewrite Hc. now apply IH.
  - rewrite forallb_app, Hrepl. now apply IH.
  - cbn [forallb]. rewrite Hc. now apply IH.
Qed.

Lemma replaceMatches_id_forallb p m repl s :
  (forall t, forallb p t = true -> m t = None) ->
  forallb p s = true -> replaceMatches m repl 0 s = s.
Proof.
  intros Hm. induction s as [|c s IH]; intros Hs; [reflexivity|].
  cbn [replaceMatches]. rewrite (Hm _ Hs).
  cbn [forallb] in Hs. apply andb_true_iff in Hs as [_ Hs]. now rewrite IH.
Qed.

Lemma HasPrefix_In s old :
  HasPrefix s old = true -> forall c, In c old -> In c s.
Proof.
  revert s. induction old as [|o old IH]; intros s Hp c Hc; [destruct Hc|].
  destruct s as [|a s]; [discriminate|]. cbn [HasPrefix] in Hp.
  apply andb_true_iff in Hp as [Ha Hp]. apply Ascii.eqb_eq in Ha. subst a.
  destruct Hc as [->|Hc]; [now left|right; eauto].
Qed.

Lemma matchLiteral_none p old c t :
  In c old -> p c = false -> forallb p t = true -> matchLiteral old t = None.
Proof.
  intros Hc Hpc Ht. unfold matchLiteral. destruct (HasPrefix t old) eqn:Hp; [|reflexivity].
  rewrite forallb_forall in Ht. specialize (Ht c (HasPrefix_In _ _ Hp c Hc)). congruence.
Qed.

Lemma ReplaceAll_id p old c new s :
  In c old -> p c = false -> forallb p s = true -> ReplaceAll s old new = s.
Proof.
  intros Hc Hpc. apply replaceMatches_id_forallb. intros t. now apply matchLiteral_none with c.
Qed.

Lemma ReplaceAll_underscore s :
  ReplaceAll s (gs "_") (gs " ")
  = map (fun c => if Ascii.eqb c "_"%char then " "%char else c) s.
Proof.
  unfold ReplaceAll. induction s as [|c s IH]; [reflexivity|].
  rewrite replaceMatches_cons.
  assert (Hm : matchLiteral (gs "_") (c :: s)
               = if Ascii.eqb c "_"%char then Some 1%nat else None).
  { unfold matchLiteral. cbn. now destruct (Ascii.eqb c "_"). }
  rewrite Hm. cbn [map]. destruct (Ascii.eqb c "_"); cbn [skipn]; now rewrite IH.
Qed.

Lemma isPlain_isASCII s : forallb isPlain s = true -> forallb isASCII s = true.
Proof.
  induction s as [|c s IH]; [reflexivity|]. cbn [forallb]. unfold isPlain at 1.
  intros Hs. apply andb_true_iff in Hs as [Hc Hs]. apply andb_true_iff in Hc as [Hc _].
  now rewrite Hc, IH.
Qed.

Lemma ReplaceAll_underscore_plain s :
  forallb isASCII s = true -> forallb isPlain (ReplaceAll s (gs "_") (gs " ")) = true.
Proof.
  rewrite ReplaceAll_underscore. induction s as [|c s IH]; [reflexivity|].
  cbn [forallb map]. intros Hs. apply andb_true_iff in Hs as [Hc Hs]. rewrite IH by assumption.
  unfold isPlain. destruct (Ascii.eqb c "_") eqn:E; [reflexivity|]. now rewrite Hc, E.
Qed.

(** ** TrimSpace on ASCII strings *)

Lemma forallb_dropWhile p q s : forallb p s = true -> forallb p (dropWhile q s) = true.
Proof.
  induction s as [|c s IH]; [reflexivity|]. intros Hs. cbn [dropWhile].
  destruct (q c); [|assumption]. cbn [forallb] in Hs.
  apply andb_true_iff in Hs as [_ Hs]. now apply IH.
Qed.

Lemma forallb_rev p (s : gostring) : forallb p s = true -> forallb p (rev s) = true.
Proof.
  rewrite !forallb_forall. intros Hs c Hc. apply Hs. now apply in_rev.
Qed.

Lemma trimScan_ascii s :
  forallb isASCII s = true -> trimScan s = (dropWhile isAsciiSpace s, false).
Proof.
  induction s as [|c s IH]; [reflexivity|]. cbn [forallb]. intros Hs.
  apply andb_true_iff in Hs as [Hc Hs]. cbn [trimScan dropWhile]. rewrite Hc. cbn [negb].
  destruct (isAsciiSpace c); [now apply IH|reflexivity].
Qed.

Lemma TrimSpace_ascii `{Unicode} s :
  forallb isASCII s = true ->
  TrimSpace s = rev (dropWhile isAsciiSpace (rev (dropWhile isAsciiSpace s))).
Proof.
  intros Hs. unfold TrimSpace. rewrite trimScan_ascii by assumption.
  rewrite trimScan_ascii; [reflexivity|].
  now apply forallb_rev, forallb_dropWhile.
Qed.

Lemma headNotSpace_dropWhile s : headNotSpace (dropWhile isAsciiSpace s) = true.
Proof.
  induction s as [|c s IH]; [reflexivity|]. cbn [dropWhile].
  destruct (isAsciiSpace c) eqn:E; [assumption|]. cbn. now rewrite E.
Qed.

Lemma dropWhile_id s : headNotSpace s = true -> dropWhile isAsciiSpace s = s.
Proof.
  destruct s as [|c s]; [reflexivity|]. cbn. now destruct (isAsciiSpace c).
Qed.

Lemma dropWhile_snoc p s c : p c = false -> dropWhile p (s ++ [c]) = dropWhile p s ++ [c].
Proof.
  intros Hc. induction s as [|a s IH]; cbn.
  - now rewrite Hc.
  - destruct (p a); [assumption|reflexivity].
Qed.

Lemma headNotSpace_trim_left d :
  headNotSpace d = true -> headNotSpace (rev (dropWhile isAsciiSpace (rev d))) = true.
Proof.
  destruct d as [|c d]; [reflexivity|]. cbn [headNotSpace rev]. intros Hc.
  apply negb_true_iff in Hc. rewrite dropWhile_snoc by assumption.
  rewrite rev_app_distr. cbn. now rewrite Hc.
Qed.

(** ** Collapsing runs of spaces *)

Lemma skipn_runLength p s : skipn (runLength p s) s = dropWhile p s.
Proof.
  induction s as [|c s IH]; [reflexivity|]. cbn [runLength dropWhile].
  destruct (p c); [exact IH|reflexivity].
Qed.

Lemma collapseSpaces_cons c s :
  collapseSpaces (c :: s)
  = if isReSpace c then " "%char :: collapseSpaces (dropWhile isReSpace s)
    else c :: collapseSpaces s.
Proof.
  unfold collapseSpaces. rewrite replaceMatches_cons. unfold matchSpaces.
  cbn [runLength]. destruct (isReSpace c); [|reflexivity].
  now rewrite skipn_runLength.
Qed.

Lemma length_dropWhile p s : (length (dropWhile p s) <= length s)%nat.
Proof.
  induction s as [|c s IH]; [reflexivity|]. cbn [dropWhile].
  destruct (p c); cbn [length]; lia.
Qed.

Lemma headIsReSpace_dropWhile s : headIsReSpace (dropWhile isReSpace s) = false.
Proof.
  induction s as [|c s IH]; [reflexivity|]. cbn [dropWhile].
  destruct (isReSpace c) eqn:E; [assumption|exact E].
Qed.

Lemma headIsReSpace_collapse s :
  headIsReSpace s = false -> headIsReSpace (collapseSpaces s) = false.
Proof.
  destruct s as [|c s]; [reflexivity|]. cbn [headIsReSpace]. intros Hc.
  rewrite collapseSpaces_cons, Hc. exact Hc.
Qed.

Lemma collapsed_collapseSpaces_bounded n :
  forall s, (length s <= n)%nat -> collapsed (collapseSpaces s) = true.
Proof.
  induction n as [|n IH]; intros [|c s] Hlen; try reflexivity; cbn [length] in Hlen; [lia|].
  rewrite collapseSpaces_cons. destruct (isReSpace c) eqn:Hc.
  - cbn [collapsed]. change (isReSpace " ") with true. cbv iota.
    rewrite headIsReSpace_collapse by apply headIsReSpace_dropWhile.
    rewrite IH; [reflexivity|]. pose proof (length_dropWhile isReSpace s). lia.
  - cbn [collapsed]. rewrite Hc. apply IH. lia.
Qed.

Lemma collapsed_collapseSpaces s : collapsed (collapseSpaces s) = true.
Proof. now apply (collapsed_collapseSpaces_bounded (length s)). Qed.

Lemma dropWhile_re_id s : headIsReSpace s = false -> dropWhile isReSpace s = s.
Proof.
  destruct s as [|c s]; [reflexivity|]. cbn. now intros ->.
Qed.

Lemma collapseSpaces_id s : collapsed s = true -> collapseSpaces s = s.
Proof.
  induction s as [|c s IH]; [reflexivity|]. cbn [collapsed]. intros Hs.
  apply andb_true_iff in Hs as [Hc Hs]. rewrite collapseSpaces_cons.
  destruct (isReSpace c).
  - apply andb_true_iff in Hc as [Hsp Hhd]. apply Ascii.eqb_eq in Hsp.
    apply negb_true_iff in Hhd. rewrite dropWhile_re_id by assumption.
    rewrite IH by assumption. now subst c.
  - now rewrite IH.
Qed.

Lemma isReSpace_isAsciiSpace c : isReSpace c = true -> isAsciiSpace c = true.
Proof. destruct c as [[] [] [] [] [] [] [] []]; vm_compute; congruence. Qed.

Lemma headNotSpace_collapse s :
  headNotSpace s = true -> headNotSpace (collapseSpaces s) = true.
Proof.
  destruct s as [|c s]; [reflexivity|]. cbn [headNotSpace]. intros Hc.
  rewrite collapseSpaces_cons. destruct (isReSpace c) eqn:E; [|exact Hc].
  apply isReSpace_isAsciiSpace in E. rewrite E in Hc. discriminate.
Qed.

Lemma collapseSpaces_snoc_bounded n c :
  isReSpace c = false ->
  forall s, (length s <= n)%nat -> collapseSpaces (s ++ [c]) = collapseSpaces s ++ [c].
Proof.
  intros Hc. induction n as [|n IH]; intros [|a s] Hlen; cbn [length] in Hlen; try lia.
  - cbn [app]. rewrite collapseSpaces_cons, Hc. reflexivity.
  - cbn [app]. rewrite collapseSpaces_cons, Hc. reflexivity.
  - cbn [app]. rewrite !collapseSpaces_cons. destruct (isReSpace a).
    + rewrite dropWhile_snoc by assumption. rewrite IH; [reflexivity|].
      pose proof (length_dropWhile isReSpace s). lia.
    + rewrite IH by lia. reflexivity.
Qed.

Lemma headNotSpace_rev_collapse s :
  headNotSpace (rev s) = true -> headNotSpace (rev (collapseSpaces s)) = true.
Proof.
  destruct (rev s) as [|c r] eqn:Er.
  - apply (f_equal (@rev ascii)) in Er. rewrite rev_involutive in Er. now subst s.
  - apply (f_equal (@rev ascii)) in Er. rewrite rev_involutive in Er. cbn [rev] in Er.
    subst s. cbn [headNotSpace]. intros Hc.
    assert (Hre : isReSpace c = false).
    { destruct (isReSpace c) eqn:E; [|reflexivity].
      apply isReSpace_isAsciiSpace in E. rewrite E in Hc. discriminate. }
    rewrite (collapseSpaces_snoc_bounded (length (rev r)) c Hre) by lia.
    rewrite rev_app_distr. exact Hc.
Qed.

(** ** Lower case *)

Lemma lowerASCII_idem c : lowerASCII (lowerASCII c) = lowerASCII c.
Proof. destruct c as [[] [] [] [] [] [] [] []]; reflexivity. Qed.

Lemma isPlain_lower c : isPlain (lowerASCII c) = isPlain c.
Proof. destruct c as [[] [] [] [] [] [] [] []]; reflexivity. Qed.

Lemma isAsciiSpace_lower c : isAsciiSpace (lowerASCII c) = isAsciiSpace c.
Proof. destruct c as [[] [] [] [] [] [] [] []]; reflexivity. Qed.

Lemma isReSpace_lower c : isReSpace (lowerASCII c) = isReSpace c.
Proof. destruct c as [[] [] [] [] [] [] [] []]; reflexivity. Qed.

Lemma isSpaceByte_lower c : Ascii.eqb (lowerASCII c) " " = Ascii.eqb c " ".
Proof. destruct c as [[] [] [] [] [] [] [] []]; reflexivity. Qed.

Lemma forallb_isPlain_lower s : forallb isPlain (map lowerASCII s) = forallb isPlain s.
Proof.
  induction s as [|c s IH]; [reflexivity|]. cbn [map forallb]. now rewrite isPlain_lower, IH.
Qed.

Lemma headNotSpace_lower s : headNotSpace (map lowerASCII s) = headNotSpace s.
Proof. destruct s as [|c s]; [reflexivity|]. cbn. now rewrite isAsciiSpace_lower. Qed.

Lemma headIsReSpace_lower s : headIsReSpace (map lowerASCII s) = headIsReSpace s.
Proof. destruct s as [|c s]; [reflexivity|]. cbn. now rewrite isReSpace_lower. Qed.

Lemma collapsed_lower s : collapsed (map lowerASCII s) = collapsed s.
Proof.
  induction s as [|c s IH]; [reflexivity|]. cbn [map collapsed].
  now rewrite isReSpace_lower, isSpaceByte_lower, headIsReSpace_lower, IH.
Qed.

Lemma ToLower_ascii `{Unicode} s : forallb isASCII s = true -> ToLower s = map lowerASCII s.
Proof. unfold ToLower. now intros ->. Qed.

(** ** Tags *)

Lemma removeTags_id s : containsTag s = false -> removeTags s = s.
Proof.
  unfold removeTags. induction s as [|c s IH]; [reflexivity|].
  cbn [containsTag]. rewrite replaceMatches_cons.
  destruct (matchTag (c :: s)); [discriminate|]. intros Hs. now rewrite IH.
Qed.

Lemma not_plain_underscore : isPlain "_"%char = false.
Proof. reflexivity. Qed.

Lemma not_plain_0xEF : isPlain (ascii_of_nat 239) = false.
Proof. reflexivity. Qed.


(** ** Lengths: a tag, once removed, is gone for good *)

Lemma length_replaceMatches m repl s :
  (length repl <= 1)%nat ->
  forall k, (length (replaceMatches m repl k s) <= length s)%nat.
Proof.
  intros Hrepl. induction s as [|c s IH]; intros k; [reflexivity|].
  destruct k as [|k]; cbn [replaceMatches length].
  - destruct (m (c :: s)) as [[|n]|]; cbn [length].
    + specialize (IH 0%nat). lia.
    + rewrite length_app. specialize (IH n). lia.
    + specialize (IH 0%nat). lia.
  - specialize (IH k). lia.
Qed.

Lemma matchTag_positive s n : matchTag s = Some n -> (0 < n)%nat.
Proof.
  unfold matchTag. destruct s as [|c s]; [discriminate|].
  destruct (Ascii.eqb c "["); [|discriminate].
  destruct (_ && _); [|discriminate]. intros [= <-]. lia.
Qed.

Lemma length_removeTags s :
  containsTag s = true -> (length (removeTags s) < length s)%nat.
Proof.
  unfold removeTags. induction s as [|c s IH]; [discriminate|].
  cbn [containsTag replaceMatches length].
  destruct (matchTag (c :: s)) as [n|] eqn:Hm.
  - intros _. pose proof (matchTag_positive _ _ Hm) as Hn.
    destruct n as [|n]; [lia|]. cbn [app].
    pose proof (length_replaceMatches matchTag [] s ltac:(cbn; lia) n). lia.
  - intros Hs. specialize (IH Hs). cbn [length]. lia.
Qed.

Section Normalisation.
Context `{Unicode}.

Lemma normalizeTitle_normal x :
  forallb isASCII x = true -> NormalTitle (normalizeTitle x).
Proof.
  intros Hx. unfold normalizeTitle.
  assert (H1 : forallb isASCII (removeTags x) = true)
    by (apply replaceMatches_forallb; [reflexivity|assumption]).
  set (x1 := removeTags x) in *.
  assert (H2 : forallb isASCII (ReplaceAll x1 (gs "-_YouTube-zh-CN-dual-double") []) = true)
    by (apply replaceMatches_forallb; [reflexivity|assumption]).
  set (x2 := ReplaceAll x1 _ []) in *.
  assert (H3 : forallb isASCII (ReplaceAll x2 (gs "_-_YouTube") []) = true)
    by (apply replaceMatches_forallb; [reflexivity|assumption]).
  set (x3 := ReplaceAll x2 _ []) in *.
  pose proof (ReplaceAll_underscore_plain x3 H3) as H4.
  set (x4 := ReplaceAll x3 (gs "_") (gs " ")) in *.
  rewrite (ReplaceAll_id isPlain fullwidthQuestion (ascii_of_nat 239) (gs "?") x4)
    by first [assumption | reflexivity | now left].
  rewrite TrimSpace_ascii by now apply isPlain_isASCII.
  set (d := dropWhile isAsciiSpace x4).
  assert (Hd : forallb isPlain d = true) by now apply forallb_dropWhile.
  set (t := rev (dropWhile isAsciiSpace (rev d))).
  assert (Ht : forallb isPlain t = true)
    by now apply forallb_rev, forallb_dropWhile, forallb_rev.
  assert (Hthead : headNotSpace t = true)
    by apply headNotSpace_trim_left, headNotSpace_dropWhile.
  assert (Htlast : headNotSpace (rev t) = true)
    by (unfold t; rewrite rev_involutive; apply headNotSpace_dropWhile).
  assert (Hc : forallb isPlain (collapseSpaces t) = true)
    by (apply replaceMatches_forallb; [reflexivity|assumption]).
  rewrite ToLower_ascii by now apply isPlain_isASCII.
  unfold NormalTitle. rewrite forallb_isPlain_lower, headNotSpace_lower, <- map_rev,
    headNotSpace_lower, collapsed_lower, map_map.
  repeat split.
  - assumption.
  - now apply headNotSpace_collapse.
  - now apply headNotSpace_rev_collapse.
  - apply collapsed_collapseSpaces.
  - apply map_ext. apply lowerASCII_idem.
Qed.

Lemma normalizeTitle_fixes y :
  NormalTitle y -> containsTag y = false -> normalizeTitle y = y.
Proof.
  intros (Hplain & Hhead & Hlast & Hcol & Hlow) Htag. unfold normalizeTitle.
  rewrite removeTags_id by assumption.
  rewrite (ReplaceAll_id isPlain (gs "-_YouTube-zh-CN-dual-double") "_"%char [] y)
    by first [assumption | reflexivity | (cbn; auto 10)].
  rewrite (ReplaceAll_id isPlain (gs "_-_YouTube") "_"%char [] y)
    by first [assumption | reflexivity | (cbn; auto 10)].
  rewrite (ReplaceAll_id isPlain (gs "_") "_"%char (gs " ") y)
    by first [assumption | reflexivity | (cbn; auto 10)].
  rewrite (ReplaceAll_id isPlain fullwidthQuestion (ascii_of_nat 239) (gs "?") y)
    by first [assumption | reflexivity | now left].
  rewrite TrimSpace_ascii by now apply isPlain_isASCII.
  rewrite (dropWhile_id y Hhead), (dropWhile_id (rev y) Hlast), rev_involutive.
  rewrite collapseSpaces_id by assumption.
  rewrite ToLower_ascii by now apply isPlain_isASCII.
  exact Hlow.
Qed.

Lemma length_normalizeTitle_ascii y :
  forallb isASCII y = true -> (length (normalizeTitle y) <= length (removeTags y))%nat.
Proof.
  intros Hy. unfold normalizeTitle.
  assert (H1 : forallb isASCII (removeTags y) = true)
    by (apply replaceMatches_forallb; [reflexivity|assumption]).
  set (x1 := removeTags y) in *.
  assert (H2 : forallb isASCII (ReplaceAll x1 (gs "-_YouTube-zh-CN-dual-double") []) = true)
    by (apply replaceMatches_forallb; [reflexivity|assumption]).
  pose proof (length_replaceMatches (matchLiteral (gs "-_YouTube-zh-CN-dual-double")) [] x1
                ltac:(cbn; lia) 0) as L2.
  fold (ReplaceAll x1 (gs "-_YouTube-zh-CN-dual-double") []) in L2.
  set (x2 := ReplaceAll x1 _ []) in *.
  assert (H3 : forallb isASCII (ReplaceAll x2 (gs "_-_YouTube") []) = true)
    by (apply replaceMatches_forallb; [reflexivity|assumption]).
  pose proof (length_replaceMatches (matchLiteral (gs "_-_YouTube")) [] x2
                ltac:(cbn; lia) 0) as L3.
  fold (ReplaceAll x2 (gs "_-_YouTube") []) in L3.
  set (x3 := ReplaceAll x2 _ []) in *.
  pose proof (ReplaceAll_underscore_plain x3 H3) as H4.
  pose proof (length_replaceMatches (matchLiteral (gs "_")) (gs " ") x3
                ltac:(cbn; lia) 0) as L4.
  fold (ReplaceAll x3 (gs "_") (gs " ")) in L4.
  set (x4 := ReplaceAll x3 (gs "_") (gs " ")) in *.
  rewrite (ReplaceAll_id isPlain fullwidthQuestion (ascii_of_nat 239) (gs "?") x4)
    by first [assumption | reflexivity | now left].
  rewrite TrimSpace_ascii by now apply isPlain_isASCII.
  assert (Ht : forallb isPlain (rev (dropWhile isAsciiSpace (rev (dropWhile isAsciiSpace x4))))
               = true)
    by now apply forallb_rev, forallb_dropWhile, forallb_rev, forallb_dropWhile.
  pose proof (length_dropWhile isAsciiSpace x4) as L5.
  pose proof (length_dropWhile isAsciiSpace (rev (dropWhile isAsciiSpace x4))) as L6.
  rewrite length_rev in L6.
  rewrite <- (length_rev (dropWhile isAsciiSpace (rev (dropWhile isAsciiSpace x4)))) in L6.
  set (t := rev (dropWhile isAsciiSpace (rev (dropWhile isAsciiSpace x4)))) in *.
  assert (Hc : forallb isPlain (collapseSpaces t) = true)
    by (apply replaceMatches_forallb; [reflexivity|assumption]).
  pose proof (length_replaceMatches matchSpaces (gs " ") t ltac:(cbn; lia) 0) as L7.
  fold (collapseSpaces t) in L7.
  rewrite ToLower_ascii by now apply isPlain_isASCII.
  rewrite length_map. clearbody x1 x2 x3 x4 t. lia.
Qed.

(** Removing a tag can bring the brackets around it together into a new
    tag, which only a second pass removes. *)
Lemma normalizeTitle_nested_tag :
  normalizeTitle (gs "[[a]b]") = gs "[b]" /\ normalizeTitle (gs "[b]") = [].
Proof. split; reflexivity. Qed.

End Normalisation.

(** * Normalisation of arbitrary byte strings *)

(** ** Occurrences and counts *)

Lemma occurs_cons pat c s :
  occurs pat (c :: s) = HasPrefix (c :: s) pat || occurs pat s.
Proof. reflexivity. Qed.

Lemma occurs_app_r pat a s : occurs pat s = true -> occurs pat (a ++ s) = true.
Proof.
  intros Hs. induction a as [|c a IH]; [assumption|].
  cbn [app]. rewrite occurs_cons, IH. apply orb_true_r.
Qed.

Lemma HasPrefix_app_l s b pat : HasPrefix s pat = true -> HasPrefix (s ++ b) pat = true.
Proof.
  revert s. induction pat as [|p pat IH]; intros s; [reflexivity|].
  destruct s as [|c s]; cbn; [discriminate|].
  intros Hp. apply andb_true_iff in Hp. destruct Hp as [-> Hp]. now apply IH.
Qed.

Lemma occurs_app_l pat s b : occurs pat s = true -> occurs pat (s ++ b) = true.
Proof.
  induction s as [|c s IH].
  - cbn. rewrite orb_false_r. intros Hp.
    destruct pat; [destruct b; reflexivity|discriminate].
  - cbn [app]. rewrite !occurs_cons. intros Hs. apply orb_true_iff in Hs.
    destruct Hs as [Hp|Hs].
    + change (c :: s ++ b) with ((c :: s) ++ b). now rewrite HasPrefix_app_l.
    + rewrite IH by assumption. apply orb_true_r.
Qed.

(** A part of a string holds no occurrence the string does not hold. *)
Lemma occurs_part pat a s b : occurs pat s = true -> occurs pat (a ++ s ++ b) = true.
Proof. intros Hs. now apply occurs_app_r, occurs_app_l. Qed.

Lemma countByte_cons c d s :
  countByte c (d :: s) = ((if Ascii.eqb c d then 1 else 0) + countByte c s)%nat.
Proof. unfold countByte. cbn. now destruct (Ascii.eqb c d). Qed.

Lemma countByte_app c a b : countByte c (a ++ b) = (countByte c a + countByte c b)%nat.
Proof. unfold countByte. now rewrite filter_app, length_app. Qed.

Lemma countByte_zero c s : countByte c s = 0%nat <-> ~ In c s.
Proof.
  induction s as [|d s IH]; [cbn; tauto|].
  rewrite countByte_cons. cbn [In]. destruct (Ascii.eqb_spec c d) as [->|Hne].
  - split; [discriminate|]. intros Hn. elim Hn. now left.
  - cbn [Nat.add]. rewrite IH. split.
    + intros Hn [E|Hin]; [congruence|contradiction].
    + intros Hn Hin. apply Hn. now right.
Qed.

Lemma countByte_skipn c k s : (countByte c (skipn k s) <= countByte c s)%nat.
Proof.
  revert s. induction k as [|k IH]; intros s; [apply Nat.le_refl|].
  destruct s as [|d s]; [apply Nat.le_refl|]. cbn [skipn]. rewrite countByte_cons.
  specialize (IH s). lia.
Qed.

(** A replacement that does not hold the byte [c] adds no [c]. *)
Lemma countByte_replaceMatches c m repl s :
  countByte c repl = 0%nat ->
  forall k, (countByte c (replaceMatches m repl k s) <= countByte c s)%nat.
Proof.
  intros Hr. induction s as [|d s IH]; intros k; [cbn; lia|].
  cbn [replaceMatches]. rewrite countByte_cons. destruct k as [|k].
  - destruct (m (d :: s)) as [[|n]|].
    + rewrite countByte_cons. specialize (IH 0%nat). lia.
    + rewrite countByte_app, Hr. specialize (IH n). lia.
    + rewrite countByte_cons. specialize (IH 0%nat). lia.
  - specialize (IH k). lia.
Qed.

(** Removing a tag removes its opening bracket. *)
Lemma countByte_removeTags s :
  containsTag s = true ->
  (countByte "["%char (removeTags s) < countByte "["%char s)%nat.
Proof.
  unfold removeTags. induction s as [|d s IH]; [discriminate|].
  intros Ht. cbn [containsTag] in Ht. cbn [replaceMatches].
  destruct (matchTag (d :: s)) as [n|] eqn:Hm.
  - assert (Hd : d = "["%char).
    { unfold matchTag in Hm. destruct (Ascii.eqb_spec d "["%char); [assumption|discriminate]. }
    pose proof (matchTag_positive _ _ Hm) as Hn. destruct n as [|n]; [lia|].
    subst d. rewrite countByte_cons. cbn [app Ascii.eqb Bool.eqb andb].
    pose proof (countByte_replaceMatches "["%char matchTag [] s eq_refl n). cbn. lia.
  - rewrite !countByte_cons. specialize (IH Ht). lia.
Qed.

(** ** The replacement of the full-width question mark *)

Lemma ReplaceAll_id_occurs s old new :
  old <> [] -> occurs old s = false -> ReplaceAll s old new = s.
Proof.
  intros Hold. unfold ReplaceAll. induction s as [|c s IH]; [reflexivity|].
  rewrite occurs_cons. intros Ho. apply orb_false_iff in Ho. destruct Ho as [Hp Ho].
  cbn [replaceMatches]. unfold matchLiteral at 1. rewrite Hp. f_equal. now apply IH.
Qed.

Lemma replaceQuestion_head s :
  HasPrefix s fullwidthQuestion = false ->
  HasPrefix (ReplaceAll s fullwidthQuestion (gs "?")) fullwidthQuestion = false.
Proof.
  unfold ReplaceAll.
  assert (H3 : forall t, HasPrefix t [ascii_of_nat 159] = false ->
                         HasPrefix (replaceMatches (matchLiteral fullwidthQuestion) (gs "?") 0 t)
                                   [ascii_of_nat 159] = false).
  { intros [|c t]; [reflexivity|]. cbn [replaceMatches]. unfold matchLiteral at 1.
    destruct (HasPrefix (c :: t) fullwidthQuestion); [reflexivity|].
    cbn [HasPrefix]. now rewrite !andb_true_r. }
  assert (H2 : forall t, HasPrefix t [ascii_of_nat 188; ascii_of_nat 159] = false ->
                         HasPrefix (replaceMatches (matchLiteral fullwidthQuestion) (gs "?") 0 t)
                                   [ascii_of_nat 188; ascii_of_nat 159] = false).
  { intros [|c t]; [reflexivity|]. cbn [replaceMatches]. unfold matchLiteral at 1.
    destruct (HasPrefix (c :: t) fullwidthQuestion); [reflexivity|].
    change (HasPrefix (c :: ?u) (?p :: ?q)) with (Ascii.eqb c p && HasPrefix u q).
    destruct (Ascii.eqb c (ascii_of_nat 188)); [|reflexivity]. cbn [andb]. apply H3. }
  destruct s as [|c s]; [reflexivity|]. intros Hp.
  cbn [replaceMatches]. unfold matchLiteral at 1. rewrite Hp.
  revert Hp. unfold fullwidthQuestion.
  change (HasPrefix (c :: ?u) (?p :: ?q)) with (Ascii.eqb c p && HasPrefix u q).
  destruct (Ascii.eqb c (ascii_of_nat 239)); [|reflexivity]. cbn [andb]. apply H2.
Qed.

(** After the replacement no full-width question mark is left. *)
Lemma occurs_replaceQuestion s :
  occurs fullwidthQuestion (ReplaceAll s fullwidthQuestion (gs "?")) = false.
Proof.
  unfold ReplaceAll.
  enough (Hk : forall k, occurs fullwidthQuestion
                           (replaceMatches (matchLiteral fullwidthQuestion) (gs "?") k s)
                         = false) by apply Hk.
  induction s as [|c s IH]; intros k; [reflexivity|].
  destruct k as [|k]; [|apply IH].
  pose proof (replaceQuestion_head (c :: s)) as Hhead. unfold ReplaceAll in Hhead.
  cbn [replaceMatches] in *. unfold matchLiteral at 1. unfold matchLiteral at 1 in Hhead.
  destruct (HasPrefix (c :: s) fullwidthQuestion).
  - cbn [length fullwidthQuestion gs list_ascii_of_string app].
    rewrite occurs_cons, IH. reflexivity.
  - rewrite occurs_cons, IH, Hhead; reflexivity.
Qed.

(** ** Bytes >= 0x80 and the collapsing of white space *)

Lemma isHigh_not_re c : isHigh c = true -> isReSpace c = false.
Proof. destruct c as [[] [] [] [] [] [] [] []]; vm_compute; congruence. Qed.

Lemma isHigh_not_space c : isHigh c = true -> isAsciiSpace c = false.
Proof. destruct c as [[] [] [] [] [] [] [] []]; vm_compute; congruence. Qed.

Lemma isAsciiSpace_isASCII c : isAsciiSpace c = true -> isASCII c = true.
Proof. destruct c as [[] [] [] [] [] [] [] []]; vm_compute; congruence. Qed.

Lemma isHigh_isASCII c : isHigh c = negb (isASCII c).
Proof. reflexivity. Qed.

Lemma isASCII_not_high c : isASCII c = true -> isHigh c = false.
Proof. unfold isHigh. now intros ->. Qed.

Lemma HasPrefix_cons c s p pat :
  HasPrefix (c :: s) (p :: pat) = Ascii.eqb c p && HasPrefix s pat.
Proof. reflexivity. Qed.

Lemma HasPrefix_collapse u :
  forallb isHigh u = true ->
  forall s, HasPrefix (collapseSpaces s) u = true -> HasPrefix s u = true.
Proof.
  induction u as [|p u IH]; [reflexivity|].
  cbn [forallb]. intros Hu. apply andb_true_iff in Hu. destruct Hu as [Hp Hu].
  intros [|c s]; [discriminate|]. rewrite collapseSpaces_cons.
  destruct (isReSpace c) eqn:Hc; rewrite !HasPrefix_cons; intros Hpre;
    apply andb_true_iff in Hpre; destruct Hpre as [E Hpre].
  - apply Ascii.eqb_eq in E. subst p. discriminate Hp.
  - rewrite E. now apply IH.
Qed.

(** Collapsing white space brings no bytes >= 0x80 together. *)
Lemma occurs_collapse pat s :
  pat <> [] -> forallb isHigh pat = true ->
  occurs pat (collapseSpaces s) = true -> occurs pat s = true.
Proof.
  intros Hne Hpat. unfold collapseSpaces.
  enough (Hk : forall k, occurs pat (replaceMatches matchSpaces (gs " ") k s) = true ->
                         occurs pat s = true) by apply Hk.
  induction s as [|c s IH]; intros k; [intros Ho; exact Ho|].
  rewrite occurs_cons. destruct k as [|k].
  - assert (Hplain : occurs pat (c :: replaceMatches matchSpaces (gs " ") 0 s) = true ->
                     collapseSpaces (c :: s) = c :: replaceMatches matchSpaces (gs " ") 0 s ->
                     HasPrefix (c :: s) pat || occurs pat s = true).
    { rewrite occurs_cons. intros Ho E. apply orb_true_iff in Ho. destruct Ho as [Hp|Ho].
      - rewrite <- E in Hp. now rewrite (HasPrefix_collapse pat Hpat _ Hp).
      - rewrite (IH 0%nat Ho). apply orb_true_r. }
    unfold collapseSpaces in Hplain. cbn [replaceMatches] in *.
    destruct (matchSpaces (c :: s)) as [[|n]|].
    + intros Ho. now apply Hplain.
    + cbn [gs list_ascii_of_string app]. rewrite occurs_cons.
      destruct pat as [|p pat]; [contradiction|]. rewrite HasPrefix_cons.
      cbn [forallb] in Hpat. apply andb_true_iff in Hpat. destruct Hpat as [Hp _].
      destruct (Ascii.eqb_spec " "%char p) as [<-|_]; [discriminate Hp|].
      cbn [andb orb]. intros Ho. rewrite (IH n Ho). apply orb_true_r.
    + intros Ho. now apply Hplain.
  - cbn [replaceMatches]. intros Ho. rewrite (IH k Ho). apply orb_true_r.
Qed.

Lemma takeWhile_high_collapse s :
  takeWhile isHigh (collapseSpaces s) = takeWhile isHigh s.
Proof.
  induction s as [|c s IH]; [reflexivity|]. rewrite collapseSpaces_cons.
  destruct (isHigh c) eqn:Hc.
  - rewrite (isHigh_not_re c Hc). cbn [takeWhile]. now rewrite Hc, IH.
  - destruct (isReSpace c); cbn [takeWhile]; rewrite Hc; reflexivity.
Qed.

Lemma collapseSpaces_snoc s c :
  isReSpace c = false -> collapseSpaces (s ++ [c]) = collapseSpaces s ++ [c].
Proof. intros Hc. now apply (collapseSpaces_snoc_bounded (length s)). Qed.

Lemma dropWhile_app p s t :
  dropWhile p (s ++ t) = if forallb p s then dropWhile p t else dropWhile p s ++ t.
Proof.
  induction s as [|c s IH]; [reflexivity|]. cbn. destruct (p c); [exact IH|reflexivity].
Qed.

(** A string that ends in white space collapses to one that ends in a
    space. *)
Lemma collapseSpaces_snoc_space c :
  isReSpace c = true ->
  forall n s, (length s <= n)%nat -> exists q, collapseSpaces (s ++ [c]) = q ++ [" "%char].
Proof.
  intros Hc. induction n as [|n IH]; intros s Hn.
  - destruct s; [|cbn in Hn; lia]. exists []. cbn [app]. rewrite collapseSpaces_cons, Hc.
    reflexivity.
  - destruct s as [|d s].
    + exists []. cbn [app]. rewrite collapseSpaces_cons, Hc. reflexivity.
    + cbn [app]. rewrite collapseSpaces_cons. cbn [length] in Hn.
      destruct (isReSpace d).
      * rewrite dropWhile_app. destruct (forallb isReSpace s).
        -- exists []. cbn [dropWhile]. now rewrite Hc.
        -- destruct (IH (dropWhile isReSpace s)) as (q & ->).
           { pose proof (length_dropWhile isReSpace s). lia. }
           now exists (" "%char :: q).
      * destruct (IH s) as (q & ->); [lia|]. now exists (d :: q).
Qed.

Lemma collapseSpaces_last_ascii s c :
  isASCII c = true ->
  exists q d, collapseSpaces (s ++ [c]) = q ++ [d] /\ isASCII d = true.
Proof.
  intros Hc. destruct (isReSpace c) eqn:Hre.
  - destruct (collapseSpaces_snoc_space c Hre (length s) s (Nat.le_refl _)) as (q & ->).
    now exists q, " "%char.
  - rewrite collapseSpaces_snoc by assumption. now exists (collapseSpaces s), c.
Qed.

Lemma takeWhile_high_rev_collapse s :
  takeWhile isHigh (rev (collapseSpaces s)) = takeWhile isHigh (rev s).
Proof.
  induction s as [|c s IH] using rev_ind; [reflexivity|].
  rewrite rev_app_distr. cbn [rev app takeWhile]. destruct (isHigh c) eqn:Hc.
  - rewrite collapseSpaces_snoc by now apply isHigh_not_re.
    rewrite rev_app_distr. cbn [rev app takeWhile]. now rewrite Hc, IH.
  - destruct (collapseSpaces_last_ascii s c) as (q & d & -> & Hd).
    { unfold isHigh in Hc. now destruct (isASCII c). }
    rewrite rev_app_distr. cbn [rev app takeWhile]. now rewrite (isASCII_not_high d Hd).
Qed.

(** Collapsing leaves the first and the last rune of a trimmed string in
    place. *)
Lemma leadBytes_collapse s :
  headNotSpace s = true -> leadBytes (collapseSpaces s) = leadBytes s.
Proof.
  destruct s as [|c s]; [reflexivity|]. cbn [headNotSpace]. intros Hc.
  pose proof (takeWhile_high_collapse (c :: s)) as Ht.
  rewrite collapseSpaces_cons in *.
  assert (Hre : isReSpace c = false).
  { destruct (isReSpace c) eqn:E; [|reflexivity].
    apply isReSpace_isAsciiSpace in E. rewrite E in Hc. discriminate. }
  rewrite Hre in *. cbn [leadBytes]. destruct (isASCII c); [reflexivity|exact Ht].
Qed.

Lemma trailBytes_collapse s :
  headNotSpace (rev s) = true -> trailBytes (collapseSpaces s) = trailBytes s.
Proof.
  unfold trailBytes. intros Hs. f_equal.
  pose proof (takeWhile_high_rev_collapse s) as Ht.
  destruct s as [|c s _] using rev_ind; [reflexivity|].
  rewrite rev_app_distr in *. cbn [rev app] in *. cbn [headNotSpace] in Hs.
  assert (Hre : isReSpace c = false).
  { destruct (isReSpace c) eqn:E; [|reflexivity].
    apply isReSpace_isAsciiSpace in E. rewrite E in Hs. discriminate. }
  rewrite collapseSpaces_snoc in * by assumption.
  rewrite rev_app_distr in *. cbn [rev app] in *. cbn [leadBytes].
  destruct (isASCII c); [reflexivity|exact Ht].
Qed.

(** ** Runs of bytes >= 0x80 *)

Lemma takeWhile_dropWhile p s : s = takeWhile p s ++ dropWhile p s.
Proof.
  induction s as [|c s IH]; [reflexivity|]. cbn. destruct (p c); [|reflexivity].
  cbn [app]. now f_equal.
Qed.

Lemma forallb_takeWhile p s : forallb p (takeWhile p s) = true.
Proof.
  induction s as [|c s IH]; [reflexivity|]. cbn. destruct (p c) eqn:Hc; [|reflexivity].
  cbn. now rewrite Hc.
Qed.

Lemma dropWhile_head p s d r : dropWhile p s = d :: r -> p d = false.
Proof.
  induction s as [|c s IH]; [discriminate|]. cbn. destruct (p c) eqn:Hc; [exact IH|].
  intros E. injection E as <- _. exact Hc.
Qed.

(** A string is empty, or starts with an ASCII byte, or is a run of bytes
    >= 0x80, or starts with such a run followed by an ASCII byte. *)
Lemma high_run_ind (P : gostring -> Prop) :
  P [] ->
  (forall c s, isASCII c = true -> P s -> P (c :: s)) ->
  (forall h, h <> [] -> forallb isHigh h = true -> P h) ->
  (forall h c s, h <> [] -> forallb isHigh h = true -> isASCII c = true ->
                 P s -> P (h ++ c :: s)) ->
  forall s, P s.
Proof.
  intros Hnil Hascii Hrun Hstep s.
  remember (length s) as n eqn:Hn. revert s Hn.
  induction n as [n IH] using lt_wf_ind. intros s Hn.
  destruct s as [|c s]; [exact Hnil|].
  destruct (isASCII c) eqn:Hc.
  - apply Hascii; [assumption|]. apply (IH (length s)); [cbn in Hn; lia|reflexivity].
  - pose proof (takeWhile_dropWhile isHigh (c :: s)) as E.
    pose proof (forallb_takeWhile isHigh (c :: s)) as Hh.
    assert (Hne : takeWhile isHigh (c :: s) <> []).
    { cbn. unfold isHigh at 1. rewrite Hc. discriminate. }
    destruct (dropWhile isHigh (c :: s)) as [|d r] eqn:Hd.
    + rewrite app_nil_r in E. rewrite E. now apply Hrun.
    + rewrite E. apply Hstep; try assumption.
      * apply dropWhile_head in Hd. unfold isHigh in Hd. now destruct (isASCII d).
      * apply (IH (length r)); [|reflexivity].
        apply (f_equal (@length ascii)) in E. rewrite length_app in E. cbn [length] in *.
        lia.
Qed.

Lemma lowerASCII_upper d : byteIn 65 90 d = true -> byteIn 97 122 (lowerASCII d) = true.
Proof. destruct d as [[] [] [] [] [] [] [] []]; vm_compute; congruence. Qed.

Lemma lowerASCII_not_upper d : byteIn 65 90 d = false -> lowerASCII d = d.
Proof. unfold lowerASCII. now intros ->. Qed.

Lemma letter_not_re c : byteIn 97 122 c = true -> isReSpace c = false.
Proof. destruct c as [[] [] [] [] [] [] [] []]; vm_compute; congruence. Qed.

(** Lowering maps no byte to an ASCII byte that is not a letter, except
    that byte itself. *)
Lemma eqb_lowerASCII c d :
  byteIn 65 90 c = false -> byteIn 97 122 c = false ->
  Ascii.eqb c (lowerASCII d) = Ascii.eqb c d.
Proof.
  intros Hu Hl. destruct (byteIn 65 90 d) eqn:Hd.
  - pose proof (lowerASCII_upper d Hd) as Hld.
    destruct (Ascii.eqb_spec c (lowerASCII d)) as [->|_]; [congruence|].
    destruct (Ascii.eqb_spec c d) as [->|_]; [congruence|reflexivity].
  - now rewrite lowerASCII_not_upper.
Qed.

Lemma collapsed_app_plain a b :
  forallb (fun c => negb (isReSpace c)) a = true -> collapsed (a ++ b) = collapsed b.
Proof.
  induction a as [|c a IH]; [reflexivity|]. cbn [forallb app collapsed].
  intros Ha. apply andb_true_iff in Ha. destruct Ha as [Hc Ha].
  destruct (isReSpace c); [discriminate|]. now apply IH.
Qed.

Lemma headIsReSpace_app_plain a b :
  a <> [] -> forallb (fun c => negb (isReSpace c)) a = true -> headIsReSpace (a ++ b) = false.
Proof.
  destruct a as [|c a]; [contradiction|]. cbn. intros _ Ha.
  apply andb_true_iff in Ha. destruct Ha as [Hc _]. now destruct (isReSpace c).
Qed.

Lemma forallb_high_plain h :
  forallb isHigh h = true -> forallb (fun c => negb (isReSpace c)) h = true.
Proof.
  intros Hh. apply forallb_forall. intros c Hc.
  rewrite forallb_forall in Hh. now rewrite (isHigh_not_re c (Hh c Hc)).
Qed.

Lemma high_not_In c h : isASCII c = true -> forallb isHigh h = true -> ~ In c h.
Proof.
  intros Hc Hh Hin. rewrite forallb_forall in Hh. specialize (Hh c Hin).
  unfold isHigh in Hh. rewrite Hc in Hh. discriminate.
Qed.

(** ** What the properties of the library functions give *)

Section Lawful.
Context {U : Unicode} {HL : UnicodeLaws U}.

Lemma MapToLower_cons c s :
  isASCII c = true -> unicode_MapToLower (c :: s) = lowerASCII c :: unicode_MapToLower s.
Proof.
  intros Hc. change (c :: s) with ([] ++ c :: s).
  now rewrite MapToLower_ascii, MapToLower_nil.
Qed.

(** The ASCII path of [strings.ToLower] computes what [strings.Map] with
    [unicode.ToLower] computes. *)
Lemma ToLower_MapToLower s : ToLower s = unicode_MapToLower s.
Proof.
  unfold ToLower. destruct (forallb isASCII s) eqn:Hs; [|reflexivity].
  induction s as [|c s IH]; [now rewrite MapToLower_nil|].
  cbn [forallb] in Hs. apply andb_true_iff in Hs. destruct Hs as [Hc Hs].
  rewrite MapToLower_cons by assumption. cbn [map]. f_equal. now apply IH.
Qed.

Lemma trimScan_right v :
  forall d, isASCII d = true -> isAsciiSpace d = false ->
    (let '(r, slow) := trimScan (v ++ [d]) in
     if slow then unicode_TrimRightFunc (rev r) else rev r)
    = unicode_TrimRightFunc (rev (v ++ [d])).
Proof.
  induction v as [|c v IH]; intros d Hd Hsp.
  - cbn [app trimScan rev]. rewrite Hd, Hsp. cbn [negb rev app].
    change [d] with ([] ++ [d]) at 2. now rewrite TrimRightFunc_ascii_last, Hsp.
  - cbn [app trimScan]. destruct (isASCII c) eqn:Hc; cbn [negb]; [|reflexivity].
    cbn [rev]. rewrite TrimRightFunc_ascii_last by assumption.
    destruct (isAsciiSpace c); [now apply IH|reflexivity].
Qed.

(** The ASCII paths of [strings.TrimSpace] compute what [strings.TrimFunc]
    with [unicode.IsSpace] computes. *)
Lemma TrimSpace_TrimFunc s : TrimSpace s = unicode_TrimFunc s.
Proof.
  induction s as [|c s IH].
  - unfold TrimSpace. cbn. now rewrite TrimFunc_nil.
  - unfold TrimSpace. cbn [trimScan]. destruct (isASCII c) eqn:Hc; cbn [negb]; [|reflexivity].
    rewrite TrimFunc_ascii_head by assumption.
    destruct (isAsciiSpace c) eqn:Hsp; [exact IH|].
    cbn [rev]. rewrite (trimScan_right (rev s) c Hc Hsp).
    now rewrite rev_app_distr, rev_involutive.
Qed.

Lemma MapToLower_countByte c :
  isASCII c = true -> byteIn 65 90 c = false -> byteIn 97 122 c = false ->
  forall s, countByte c (unicode_MapToLower s) = countByte c s.
Proof.
  intros Hc Hu Hl.
  assert (Hrun : forall h, h <> [] -> forallb isHigh h = true ->
                           countByte c (unicode_MapToLower h) = countByte c h).
  { intros h Hne Hh. destruct (MapToLower_high h Hne Hh) as [_ Hletters].
    transitivity 0%nat; [|symmetry]; apply countByte_zero.
    - intros Hin. specialize (Hletters c Hin Hc). congruence.
    - now apply high_not_In. }
  induction s as [|d s Hd IH|h Hne Hh|h d s Hne Hh Hd IH] using high_run_ind.
  - now rewrite MapToLower_nil.
  - rewrite MapToLower_cons, !countByte_cons, eqb_lowerASCII, IH by assumption. reflexivity.
  - now apply Hrun.
  - rewrite MapToLower_ascii, !countByte_app, !countByte_cons, eqb_lowerASCII, IH, Hrun
      by assumption. reflexivity.
Qed.

Lemma MapToLower_run_plain h :
  h <> [] -> forallb isHigh h = true ->
  forallb (fun c => negb (isReSpace c)) (unicode_MapToLower h) = true.
Proof.
  intros Hne Hh. destruct (MapToLower_high h Hne Hh) as [_ Hletters].
  apply forallb_forall. intros c Hc. destruct (isASCII c) eqn:Ha.
  - now rewrite (letter_not_re c (Hletters c Hc Ha)).
  - rewrite isHigh_not_re; [reflexivity|]. unfold isHigh. now rewrite Ha.
Qed.

Lemma MapToLower_collapsed s :
  collapsed (unicode_MapToLower s) = collapsed s /\
  headIsReSpace (unicode_MapToLower s) = headIsReSpace s.
Proof.
  induction s as [|d s Hd [IHc IHh]|h Hne Hh|h d s Hne Hh Hd [IHc IHh]] using high_run_ind.
  - now rewrite MapToLower_nil.
  - rewrite MapToLower_cons by assumption. cbn [collapsed headIsReSpace].
    now rewrite isReSpace_lower, isSpaceByte_lower, IHc, IHh.
  - pose proof (MapToLower_run_plain h Hne Hh) as Hp.
    destruct (MapToLower_high h Hne Hh) as [Hne' _].
    pose proof (collapsed_app_plain _ [] Hp) as E1.
    pose proof (collapsed_app_plain _ [] (forallb_high_plain h Hh)) as E2.
    pose proof (headIsReSpace_app_plain _ [] Hne' Hp) as E3.
    pose proof (headIsReSpace_app_plain _ [] Hne (forallb_high_plain h Hh)) as E4.
    rewrite app_nil_r in *. split; congruence.
  - pose proof (MapToLower_run_plain h Hne Hh) as Hp.
    destruct (MapToLower_high h Hne Hh) as [Hne' _].
    rewrite MapToLower_ascii by assumption.
    rewrite !collapsed_app_plain, !headIsReSpace_app_plain
      by first [assumption | now apply forallb_high_plain].
    split; [|reflexivity]. cbn [collapsed].
    now rewrite isReSpace_lower, isSpaceByte_lower, IHc, IHh.
Qed.

Lemma TrimFunc_length s : (length (unicode_TrimFunc s) <= length s)%nat.
Proof.
  destruct (TrimFunc_part s) as (a & b & E). apply (f_equal (@length ascii)) in E.
  rewrite !length_app in E. lia.
Qed.

(** A trimmed string has no ASCII white space at either end. *)
Lemma trimmed_head s : unicode_TrimFunc s = s -> headNotSpace s = true.
Proof.
  destruct s as [|c s]; [reflexivity|]. cbn [headNotSpace]. intros E.
  destruct (isAsciiSpace c) eqn:Hsp; [|reflexivity]. exfalso.
  rewrite TrimFunc_ascii_head, Hsp in E by now apply isAsciiSpace_isASCII.
  pose proof (TrimFunc_length s) as Hlen. rewrite E in Hlen. cbn in Hlen. lia.
Qed.

Lemma trimmed_last s : unicode_TrimFunc s = s -> headNotSpace (rev s) = true.
Proof.
  destruct s as [|c s _] using rev_ind; [reflexivity|].
  rewrite rev_app_distr. cbn [rev app headNotSpace]. intros E.
  destruct (isAsciiSpace c) eqn:Hsp; [|reflexivity]. exfalso.
  rewrite TrimFunc_space_last in E by assumption.
  pose proof (TrimFunc_length s) as Hlen. rewrite E, length_app in Hlen. cbn in Hlen. lia.
Qed.

(** Collapsing white space keeps a trimmed string trimmed. *)
Lemma TrimFunc_collapseSpaces s :
  unicode_TrimFunc s = s -> unicode_TrimFunc (collapseSpaces s) = collapseSpaces s.
Proof.
  intros E. apply (TrimFunc_ends s); [assumption| |].
  - now apply leadBytes_collapse, trimmed_head.
  - now apply trailBytes_collapse, trimmed_last.
Qed.

Lemma countByte_TrimFunc c s : (countByte c (unicode_TrimFunc s) <= countByte c s)%nat.
Proof.
  destruct (TrimFunc_part s) as (a & b & E). rewrite E at 2. rewrite !countByte_app. lia.
Qed.

Lemma occurs_TrimFunc pat s :
  occurs pat (unicode_TrimFunc s) = true -> occurs pat s = true.
Proof.
  destruct (TrimFunc_part s) as (a & b & E). intros Ho. rewrite E. now apply occurs_part.
Qed.

End Lawful.

(** ** The normal form under the properties of the library functions *)

Lemma normalizeTitle_stages `{Unicode} x :
  normalizeTitle x = ToLower (collapseSpaces (TrimSpace (replacedTitle x))).
Proof. reflexivity. Qed.

Lemma countByte_underscore_replacedTitle x : countByte "_"%char (replacedTitle x) = 0%nat.
Proof.
  unfold replacedTitle. cbv zeta.
  set (x3 := ReplaceAll (ReplaceAll (removeTags x) _ []) _ []).
  pose proof (countByte_replaceMatches "_"%char (matchLiteral fullwidthQuestion) (gs "?")
                (ReplaceAll x3 (gs "_") (gs " ")) eq_refl 0) as Hle.
  fold (ReplaceAll (ReplaceAll x3 (gs "_") (gs " ")) fullwidthQuestion (gs "?")) in Hle.
  assert (H4 : countByte "_"%char (ReplaceAll x3 (gs "_") (gs " ")) = 0%nat).
  { apply countByte_zero. rewrite ReplaceAll_underscore. intros Hin.
    apply in_map_iff in Hin. destruct Hin as (d & Hd & _).
    destruct (Ascii.eqb_spec d "_"%char); [discriminate|congruence]. }
  lia.
Qed.

Lemma no_underscore_forallb s :
  countByte "_"%char s = 0%nat ->
  forallb (fun c => negb (Ascii.eqb c "_"%char)) s = true.
Proof.
  intros Hs. apply countByte_zero in Hs. apply forallb_forall. intros c Hc.
  destruct (Ascii.eqb_spec c "_"%char) as [->|_]; [contradiction|reflexivity].
Qed.

Section LawfulNormalisation.
Context {U : Unicode} {HL : UnicodeLaws U}.

(** What [normalizeTitle] leaves of any title, the tags apart. *)
Lemma normalizeTitle_lawful_normal x :
  countByte "_"%char (normalizeTitle x) = 0%nat /\
  occurs fullwidthQuestion (normalizeTitle x) = false /\
  unicode_TrimFunc (normalizeTitle x) = normalizeTitle x /\
  collapsed (normalizeTitle x) = true /\
  unicode_MapToLower (normalizeTitle x) = normalizeTitle x.
Proof.
  rewrite normalizeTitle_stages, ToLower_MapToLower, TrimSpace_TrimFunc.
  set (r := replacedTitle x). repeat split.
  - rewrite MapToLower_countByte by reflexivity.
    pose proof (countByte_replaceMatches "_"%char matchSpaces (gs " ") (unicode_TrimFunc r)
                  eq_refl 0) as H1.
    fold (collapseSpaces (unicode_TrimFunc r)) in H1.
    pose proof (countByte_TrimFunc "_"%char r) as H2.
    pose proof (countByte_underscore_replacedTitle x) as H3. fold r in H3. lia.
  - destruct (occurs fullwidthQuestion
                (unicode_MapToLower (collapseSpaces (unicode_TrimFunc r)))) eqn:Ho;
      [|reflexivity].
    apply MapToLower_question, occurs_collapse, occurs_TrimFunc in Ho;
      [|discriminate|reflexivity].
    unfold r, replacedTitle in Ho. cbv zeta in Ho.
    now rewrite occurs_replaceQuestion in Ho.
  - rewrite TrimFunc_MapToLower. f_equal.
    apply TrimFunc_collapseSpaces, TrimFunc_idempotent.
  - destruct (MapToLower_collapsed (collapseSpaces (unicode_TrimFunc r))) as [-> _].
    apply collapsed_collapseSpaces.
  - apply MapToLower_idempotent.
Qed.

Lemma normalizeTitle_lawful_fixes y :
  countByte "_"%char y = 0%nat ->
  occurs fullwidthQuestion y = false ->
  unicode_TrimFunc y = y ->
  collapsed y = true ->
  unicode_MapToLower y = y ->
  containsTag y = false -> normalizeTitle y = y.
Proof.
  intros Hu Hq Htrim Hcol Hlow Htag. apply no_underscore_forallb in Hu.
  unfold normalizeTitle. rewrite removeTags_id by assumption.
  rewrite (ReplaceAll_id (fun c => negb (Ascii.eqb c "_"%char)) (gs "-_YouTube-zh-CN-dual-double") "_"%char [] y)
    by first [assumption | reflexivity | (cbn; auto 10)].
  rewrite (ReplaceAll_id (fun c => negb (Ascii.eqb c "_"%char)) (gs "_-_YouTube") "_"%char [] y)
    by first [assumption | reflexivity | (cbn; auto 10)].
  rewrite (ReplaceAll_id (fun c => negb (Ascii.eqb c "_"%char)) (gs "_") "_"%char (gs " ") y)
    by first [assumption | reflexivity | (cbn; auto 10)].
  rewrite ReplaceAll_id_occurs by first [assumption | discriminate].
  rewrite TrimSpace_TrimFunc, Htrim, collapseSpaces_id by assumption.
  now rewrite ToLower_MapToLower.
Qed.

(** Normalising a title that holds a tag removes an opening bracket. *)
Lemma countByte_normalizeTitle_tag y :
  containsTag y = true ->
  (countByte "["%char (normalizeTitle y) < countByte "["%char y)%nat.
Proof.
  intros Htag. rewrite normalizeTitle_stages, ToLower_MapToLower, TrimSpace_TrimFunc.
  rewrite MapToLower_countByte by reflexivity.
  pose proof (countByte_replaceMatches "["%char matchSpaces (gs " ")
                (unicode_TrimFunc (replacedTitle y)) eq_refl 0) as H7.
  fold (collapseSpaces (unicode_TrimFunc (replacedTitle y))) in H7.
  pose proof (countByte_TrimFunc "["%char (replacedTitle y)) as H6.
  unfold replacedTitle in *. cbv zeta in *.
  pose proof (countByte_removeTags y Htag) as H1.
  set (x1 := removeTags y) in *.
  pose proof (countByte_replaceMatches "["%char
                (matchLiteral (gs "-_YouTube-zh-CN-dual-double")) [] x1 eq_refl 0) as H2.
  fold (ReplaceAll x1 (gs "-_YouTube-zh-CN-dual-double") []) in H2.
  set (x2 := ReplaceAll x1 _ []) in *.
  pose proof (countByte_replaceMatches "["%char (matchLiteral (gs "_-_YouTube")) [] x2
                eq_refl 0) as H3.
  fold (ReplaceAll x2 (gs "_-_YouTube") []) in H3.
  set (x3 := ReplaceAll x2 _ []) in *.
  pose proof (countByte_replaceMatches "["%char (matchLiteral (gs "_")) (gs " ") x3
                eq_refl 0) as H4.
  fold (ReplaceAll x3 (gs "_") (gs " ")) in H4.
  set (x4 := ReplaceAll x3 (gs "_") (gs " ")) in *.
  pose proof (countByte_replaceMatches "["%char (matchLiteral fullwidthQuestion) (gs "?") x4
                eq_refl 0) as H5.
  fold (ReplaceAll x4 fullwidthQuestion (gs "?")) in H5.
  set (x5 := ReplaceAll x4 fullwidthQuestion (gs "?")) in *.
  clearbody x1 x2 x3 x4 x5. lia.
Qed.

Lemma normalizeTitle_lawful_idempotent x :
  containsTag (normalizeTitle x) = false <->
  normalizeTitle (normalizeTitle x) = normalizeTitle x.
Proof.
  split.
  - intros Htag.
    destruct (normalizeTitle_lawful_normal x) as (Hu & Hq & Htrim & Hcol & Hlow).
    now apply normalizeTitle_lawful_fixes.
  - intros Hfix. destruct (containsTag (normalizeTitle x)) eqn:Htag; [|reflexivity].
    exfalso. apply countByte_normalizeTitle_tag in Htag. rewrite Hfix in Htag. lia.
Qed.

End LawfulNormalisation.

(** ** Titles that are ASCII once the replacements are made *)

Section ReplacedNormalisation.
Context `{Unicode}.

Lemma normalizeTitle_normal_replaced x :
  forallb isASCII (replacedTitle x) = true -> NormalTitle (normalizeTitle x).
Proof.
  intros Hx. rewrite normalizeTitle_stages.
  assert (H5 : forallb isPlain (replacedTitle x) = true).
  { pose proof (no_underscore_forallb _ (countByte_underscore_replacedTitle x)) as Hu.
    apply forallb_forall. intros c Hc. rewrite forallb_forall in Hx, Hu.
    unfold isPlain. now rewrite (Hx c Hc), (Hu c Hc). }
  set (x5 := replacedTitle x) in *.
  rewrite TrimSpace_ascii by assumption.
  set (d := dropWhile isAsciiSpace x5).
  assert (Hd : forallb isPlain d = true) by now apply forallb_dropWhile.
  set (t := rev (dropWhile isAsciiSpace (rev d))).
  assert (Ht : forallb isPlain t = true)
    by now apply forallb_rev, forallb_dropWhile, forallb_rev.
  assert (Hthead : headNotSpace t = true)
    by apply headNotSpace_trim_left, headNotSpace_dropWhile.
  assert (Htlast : headNotSpace (rev t) = true)
    by (unfold t; rewrite rev_involutive; apply headNotSpace_dropWhile).
  assert (Hc : forallb isPlain (collapseSpaces t) = true)
    by (apply replaceMatches_forallb; [reflexivity|assumption]).
  rewrite ToLower_ascii by now apply isPlain_isASCII.
  unfold NormalTitle. rewrite forallb_isPlain_lower, headNotSpace_lower, <- map_rev,
    headNotSpace_lower, collapsed_lower, map_map.
  repeat split.
  - assumption.
  - now apply headNotSpace_collapse.
  - now apply headNotSpace_rev_collapse.
  - apply collapsed_collapseSpaces.
  - apply map_ext. apply lowerASCII_idem.
Qed.

Lemma normalizeTitle_replaced_idempotent x :
  forallb isASCII (replacedTitle x) = true ->
  (containsTag (normalizeTitle x) = false <->
   normalizeTitle (normalizeTitle x) = normalizeTitle x).
Proof.
  intros Hx. pose proof (normalizeTitle_normal_replaced x Hx) as Hn. split.
  - intros Htag. now apply normalizeTitle_fixes.
  - intros Hfix. destruct (containsTag (normalizeTitle x)) eqn:Htag; [|reflexivity].
    exfalso. apply length_removeTags in Htag.
    assert (Hascii : forallb isASCII (normalizeTitle x) = true)
      by (apply isPlain_isASCII, Hn).
    pose proof (length_normalizeTitle_ascii _ Hascii) as Hlen.
    rewrite Hfix in Hlen. lia.
Qed.

End ReplacedNormalisation.

(** ** Tables without white space or letters beyond ASCII *)

Lemma lowerASCII_high c : isASCII (lowerASCII c) = false -> lowerASCII c = c.
Proof. destruct c as [[] [] [] [] [] [] [] []]; vm_compute; congruence. Qed.

Lemma lowerASCII_of_high c : isHigh c = true -> lowerASCII c = c.
Proof. destruct c as [[] [] [] [] [] [] [] []]; vm_compute; congruence. Qed.

Lemma HasPrefix_map_lower u :
  forallb isHigh u = true ->
  forall s, HasPrefix (map lowerASCII s) u = true -> HasPrefix s u = true.
Proof.
  induction u as [|p u IH]; [reflexivity|].
  cbn [forallb]. intros Hu. apply andb_true_iff in Hu. destruct Hu as [Hp Hu].
  intros [|c s]; [discriminate|]. cbn [map]. rewrite !HasPrefix_cons. intros Hpre.
  apply andb_true_iff in Hpre. destruct Hpre as [E Hpre].
  apply Ascii.eqb_eq in E. rewrite (IH Hu s Hpre), andb_true_r.
  apply Ascii.eqb_eq. rewrite <- E. symmetry. apply lowerASCII_high.
  rewrite E. unfold isHigh in Hp. now destruct (isASCII p).
Qed.

Lemma occurs_map_lower u s :
  forallb isHigh u = true -> occurs u (map lowerASCII s) = true -> occurs u s = true.
Proof.
  intros Hu. induction s as [|c s IH]; [intros Ho; exact Ho|].
  cbn [map]. rewrite !occurs_cons. intros Ho. apply orb_true_iff in Ho.
  destruct Ho as [Hp|Ho].
  - change (lowerASCII c :: map lowerASCII s) with (map lowerASCII (c :: s)) in Hp.
    now rewrite (HasPrefix_map_lower u Hu _ Hp).
  - rewrite (IH Ho). apply orb_true_r.
Qed.

Lemma dropWhile_prefix p s : exists a, s = a ++ dropWhile p s.
Proof. exists (takeWhile p s). apply takeWhile_dropWhile. Qed.

Lemma plainTrimRight_prefix s : exists b, s = plainTrimRight s ++ b.
Proof.
  unfold plainTrimRight. destruct (dropWhile_prefix isAsciiSpace (rev s)) as (a & E).
  exists (rev a). rewrite <- rev_app_distr, <- E. now rewrite rev_involutive.
Qed.

Lemma dropWhile_map_lower s :
  dropWhile isAsciiSpace (map lowerASCII s) = map lowerASCII (dropWhile isAsciiSpace s).
Proof.
  induction s as [|c s IH]; [reflexivity|]. cbn. rewrite isAsciiSpace_lower.
  destruct (isAsciiSpace c); [exact IH|reflexivity].
Qed.

Lemma plainTrim_fixed s :
  plainTrim s = s <-> headNotSpace s = true /\ headNotSpace (rev s) = true.
Proof.
  unfold plainTrim, plainTrimRight. split.
  - intros E. rewrite <- E. split.
    + apply headNotSpace_trim_left, headNotSpace_dropWhile.
    + rewrite rev_involutive. apply headNotSpace_dropWhile.
  - intros [Hh Hl]. now rewrite (dropWhile_id s Hh), (dropWhile_id (rev s) Hl), rev_involutive.
Qed.

Lemma headNotSpace_leadBytes s : headNotSpace (leadBytes s) = headNotSpace s.
Proof.
  destruct s as [|c s]; [reflexivity|]. cbn [leadBytes].
  destruct (isASCII c) eqn:Hc; [reflexivity|]. cbn [takeWhile]. unfold isHigh at 1.
  now rewrite Hc.
Qed.

Lemma plainUnicode_lawful : UnicodeLaws plainUnicode.
Proof.
  constructor; cbn [unicode_TrimFunc unicode_TrimRightFunc unicode_MapToLower plainUnicode].
  - reflexivity.
  - intros a c b _. now rewrite map_app.
  - intros h Hne Hh. split.
    + destruct h; [contradiction|discriminate].
    + intros c Hc Ha. apply in_map_iff in Hc. destruct Hc as (d & <- & Hd).
      rewrite forallb_forall in Hh. rewrite (lowerASCII_of_high d (Hh d Hd)) in Ha.
      specialize (Hh d Hd). unfold isHigh in Hh. rewrite Ha in Hh. discriminate.
  - intros s. rewrite map_map. apply map_ext, lowerASCII_idem.
  - intros s. now apply occurs_map_lower.
  - intros s. unfold plainTrim.
    destruct (dropWhile_prefix isAsciiSpace s) as (a & Ea).
    destruct (plainTrimRight_prefix (dropWhile isAsciiSpace s)) as (b & Eb).
    exists a, b. now rewrite <- Eb.
  - reflexivity.
  - intros c s _. unfold plainTrim. cbn [dropWhile]. now destruct (isAsciiSpace c).
  - intros s c Hc. unfold plainTrim. rewrite dropWhile_app.
    destruct (forallb isAsciiSpace s) eqn:Hs.
    + cbn [dropWhile]. rewrite Hc.
      assert (E : dropWhile isAsciiSpace s = []); [|now rewrite E].
      clear -Hs. induction s as [|d s IH]; [reflexivity|]. cbn in *.
      apply andb_true_iff in Hs. destruct Hs as [-> Hs]. now apply IH.
    + unfold plainTrimRight. rewrite rev_app_distr. cbn [rev app dropWhile]. now rewrite Hc.
  - intros s c _. unfold plainTrimRight. rewrite rev_app_distr. cbn [rev app dropWhile].
    destruct (isAsciiSpace c); [reflexivity|]. cbn [rev]. now rewrite rev_involutive.
  - intros s. apply plainTrim_fixed. unfold plainTrim, plainTrimRight. split.
    + apply headNotSpace_trim_left, headNotSpace_dropWhile.
    + rewrite rev_involutive. apply headNotSpace_dropWhile.
  - intros s t Hs Hlead Htrail. apply plainTrim_fixed in Hs. destruct Hs as [Hh Hl].
    apply plainTrim_fixed. split.
    + now rewrite <- headNotSpace_leadBytes, Hlead, headNotSpace_leadBytes.
    + unfold trailBytes in Htrail. apply (f_equal (@rev ascii)) in Htrail.
      rewrite !rev_involutive in Htrail.
      now rewrite <- headNotSpace_leadBytes, Htrail, headNotSpace_leadBytes.
  - intros s. unfold plainTrim, plainTrimRight.
    now rewrite dropWhile_map_lower, <- map_rev, dropWhile_map_lower, map_rev.
Qed.

(** C2 (amended).  Normalising twice gives what normalising once gives
    exactly when the normal form holds no bracketed tag.  This holds of
    every title, whatever its bytes, given the properties [UnicodeLaws] of
    the three library functions that depend on the Unicode tables; and it
    holds without them of every title that is ASCII once the tags are
    removed and the literals replaced, the full-width question mark among
    them. *)
Theorem normalizeTitle_idempotent_without_tag (U : Unicode) :
  (UnicodeLaws U ->
   forall x : gostring,
     containsTag (normalizeTitle x) = false <->
     normalizeTitle (normalizeTitle x) = normalizeTitle x) /\
  (forall x : gostring,
      forallb isASCII (replacedTitle x) = true ->
      (containsTag (normalizeTitle x) = false <->
       normalizeTitle (normalizeTitle x) = normalizeTitle x)).
Proof.
  split.
  - intros HL x. apply normalizeTitle_lawful_idempotent.
  - intros x Hx. now apply normalizeTitle_replaced_idempotent.
Qed.

Lemma normalizeTitle_idempotent_without_tag_witness :
  UnicodeLaws plainUnicode /\
  @normalizeTitle plainUnicode
     (gs " Tea_" ++ [ascii_of_nat 232; ascii_of_nat 140; ascii_of_nat 182] ++ gs "_[HD]__What"
      ++ fullwidthQuestion ++ gs " ")
  = gs "tea " ++ [ascii_of_nat 232; ascii_of_nat 140; ascii_of_nat 182] ++ gs " what?" /\
  @normalizeTitle plainUnicode
     (@normalizeTitle plainUnicode
        (gs " Tea_" ++ [ascii_of_nat 232; ascii_of_nat 140; ascii_of_nat 182] ++ gs "_[HD]__What"
         ++ fullwidthQuestion ++ gs " "))
  = @normalizeTitle plainUnicode
      (gs " Tea_" ++ [ascii_of_nat 232; ascii_of_nat 140; ascii_of_nat 182] ++ gs "_[HD]__What"
       ++ fullwidthQuestion ++ gs " ") /\
  @normalizeTitle caselessUnicode (gs "What" ++ fullwidthQuestion) = gs "what?" /\
  @normalizeTitle caselessUnicode
     (@normalizeTitle caselessUnicode (gs "What" ++ fullwidthQuestion))
  = @normalizeTitle caselessUnicode (gs "What" ++ fullwidthQuestion) /\
  @normalizeTitle caselessUnicode
     (@normalizeTitle caselessUnicode (gs "  How_to  code_[ABC123]_-_YouTube "))
  = @normalizeTitle caselessUnicode (gs "  How_to  code_[ABC123]_-_YouTube ").
Proof.
  split; [exact plainUnicode_lawful|]. split; [reflexivity|]. split; [|split; [reflexivity|split]].
  - apply (proj1 (normalizeTitle_idempotent_without_tag plainUnicode) plainUnicode_lawful).
    reflexivity.
  - apply (proj2 (normalizeTitle_idempotent_without_tag caselessUnicode)); reflexivity.
  - apply (proj2 (normalizeTitle_idempotent_without_tag caselessUnicode)); reflexivity.
Defined.

(** The claim as worded fails: normalising ["[[a]b]"] gives ["[b]"], and
    normalising that gives the empty string. *)
Lemma normalizeTitle_not_idempotent_counterexample :
  @normalizeTitle caselessUnicode (gs "[[a]b]") = gs "[b]" /\
  @normalizeTitle caselessUnicode (@normalizeTitle caselessUnicode (gs "[[a]b]")) = [] /\
  @normalizeTitle caselessUnicode (@normalizeTitle caselessUnicode (gs "[[a]b]"))
  <> @normalizeTitle caselessUnicode (gs "[[a]b]").
Proof. repeat split. discriminate. Qed.

(** * Comparisons of binary64 *)

Lemma SFcompare_antisym x y : SFcompare y x = option_map CompOpp (SFcompare x y).
Proof.
  destruct x as [sx|sx| |sx mx ex], y as [sy|sy| |sy my ey]; cbn;
    try destruct sx; try destruct sy; try reflexivity;
    rewrite (Z.compare_antisym ex ey); destruct (ex ?= ey); cbn; try reflexivity;
    assert (E : Pos.compare_cont Eq my mx = CompOpp (Pos.compare_cont Eq mx my))
      by (symmetry; apply (Pos.compare_cont_antisym mx my Eq));
    rewrite E; now destruct (Pos.compare_cont Eq mx my).
Qed.

Lemma f64_le_not_gt x y : f64_le x y = true -> f64_gt x y = false.
Proof.
  unfold f64_le, f64_gt, f64_lt, SFleb, SFltb. rewrite (SFcompare_antisym x y).
  now destruct (SFcompare x y) as [[]|].
Qed.



Lemma f64_eq_zero_not_gt x : f64_eq x f64_zero = true -> f64_gt x f64_zero = false.
Proof. destruct x as [s|s| |s m e]; try destruct s; cbn; congruence. Qed.

(** * Configuration *)

Lemma applyOption_threshold vsm o :
  inUnitInterval (similarityThreshold vsm) ->
  inUnitInterval (similarityThreshold (applyOption vsm o)).
Proof.
  intros Hin. destruct o; cbn; try assumption.
  destruct (f64_ge threshold f64_zero && f64_le threshold f64_one) eqn:E; [|assumption].
  apply andb_true_iff in E as [E0 E1]. cbn. split; assumption.
Qed.

Lemma fold_applyOption_threshold options :
  forall vsm, inUnitInterval (similarityThreshold vsm) ->
              inUnitInterval (similarityThreshold (fold_left applyOption options vsm)).
Proof.
  induction options as [|o options IH]; intros vsm Hin; cbn.
  - assumption.
  - apply IH. now apply applyOption_threshold.
Qed.

Lemma New_threshold dir options : inUnitInterval (similarityThreshold (New dir options)).
Proof. unfold New. apply fold_applyOption_threshold. split; reflexivity. Qed.

(** C8.  Whatever the directory and the options, the matcher [New] builds
    has its threshold between 0.0 and 1.0; [SimilarityThreshold(t)] with [t]
    outside that range (NaN included) changes nothing, so the value set
    before, or the default 0.6, stays; [New] has no error result. *)
Theorem New_threshold_in_unit_interval (dir : gostring) (options : list Option) :
  inUnitInterval (similarityThreshold (New dir options)) /\
  similarityThreshold (New dir []) = f64_0_6 /\
  (forall vsm t,
      f64_ge t f64_zero && f64_le t f64_one = false ->
      applyOption vsm (SimilarityThreshold t) = vsm) /\
  (forall t,
      f64_ge t f64_zero && f64_le t f64_one = false ->
      New dir (options ++ [SimilarityThreshold t]) = New dir options).
Proof.
  split; [apply New_threshold|]. split; [reflexivity|]. split.
  - intros vsm t Ht. cbn. now rewrite Ht.
  - intros t Ht. unfold New. rewrite fold_left_app. cbn. now rewrite Ht.
Qed.

Lemma New_threshold_in_unit_interval_witness :
  similarityThreshold
    (New (gs "/videos")
         [SimilarityThreshold (f64_div (f64_of_int 4) (f64_of_int 5));
          SimilarityThreshold (f64_of_int 2);
          SimilarityThreshold S754_nan;
          SimilarityThreshold (S754_infinity true)])
  = f64_div (f64_of_int 4) (f64_of_int 5) /\
  New (gs "/videos") ([DryRun false] ++ [SimilarityThreshold (f64_of_int (-1))])
  = New (gs "/videos") [DryRun false].
Proof.
  split.
  - reflexivity.
  - apply (New_threshold_in_unit_interval (gs "/videos") [DryRun false]). reflexivity.
Defined.

(** * Selection of the best candidate *)

Section Selection.
Context `{Unicode}.

Lemma bestStep_eq sub bm bs v :
  bestStep (normalizeTitle (stem sub)) (bm, bs) v
  = if f64_gt (videoScore sub v) bs then (v, videoScore sub v) else (bm, bs).
Proof. reflexivity. Qed.

Lemma best_below sub S pre :
  forall bm bs,
    f64_lt bs S = true ->
    (forall v, In v pre -> f64_lt (videoScore sub v) S = true) ->
    f64_lt (snd (fold_left (bestStep (normalizeTitle (stem sub))) pre (bm, bs))) S = true.
Proof.
  induction pre as [|v pre IH]; intros bm bs Hbs Hpre; cbn [fold_left].
  - assumption.
  - rewrite bestStep_eq.
    destruct (f64_gt _ bs); apply IH; auto using in_eq, in_cons.
Qed.

Lemma best_kept sub post :
  forall bm bs,
    (forall v, In v post -> f64_le (videoScore sub v) bs = true) ->
    fold_left (bestStep (normalizeTitle (stem sub))) post (bm, bs) = (bm, bs).
Proof.
  induction post as [|v post IH]; intros bm bs Hpost; cbn [fold_left].
  - reflexivity.
  - rewrite bestStep_eq, f64_le_not_gt by auto using in_eq.
    apply IH. auto using in_cons.
Qed.

Lemma findBestMatch_first_max sub videos k :
  FirstMaximal (map (videoScore sub) videos) k ->
  f64_lt f64_zero (nth k (map (videoScore sub) videos) f64_zero) = true ->
  findBestMatch sub videos
  = (nth k videos [], nth k (map (videoScore sub) videos) f64_zero).
Proof.
  intros (Hk & Hmax & Hfirst) Hpos. rewrite length_map in Hk, Hmax.
  assert (Hnth : forall j, (j < length videos)%nat ->
            nth j (map (videoScore sub) videos) f64_zero = videoScore sub (nth j videos [])).
  { intros j Hj. rewrite (nth_indep _ f64_zero (videoScore sub [])) by now rewrite length_map.
    apply map_nth. }
  rewrite (Hnth k Hk) in Hpos, Hmax, Hfirst |- *.
  destruct (nth_split videos [] Hk) as (pre & post & Hsplit & Hlen).
  assert (Hlenv : length videos = (length pre + 1 + length post)%nat).
  { rewrite Hsplit at 1. rewrite length_app. cbn [length]. lia. }
  assert (Hpre : f64_lt (snd (fold_left (bestStep (normalizeTitle (stem sub))) pre
                                        ([], f64_zero)))
                        (videoScore sub (nth k videos [])) = true).
  { apply best_below; [assumption|].
    intros v Hv. destruct (In_nth _ _ [] Hv) as (j & Hj & <-).
    specialize (Hfirst j ltac:(lia)). rewrite Hnth in Hfirst by lia.
    replace (nth j pre []) with (nth j videos []); [exact Hfirst|].
    rewrite Hsplit. now rewrite app_nth1. }
  unfold findBestMatch. rewrite Hsplit at 1. rewrite fold_left_app. cbn [fold_left].
  destruct (fold_left (bestStep (normalizeTitle (stem sub))) pre ([], f64_zero)) as [bm bs].
  cbn [snd] in Hpre.
  rewrite bestStep_eq. unfold f64_gt. rewrite Hpre.
  apply best_kept. intros v Hv. destruct (In_nth _ _ [] Hv) as (j & Hj & <-).
  specialize (Hmax (length pre + 1 + j)%nat ltac:(lia)).
  rewrite Hnth in Hmax by lia.
  replace (nth (length pre + 1 + j) videos []) with (nth j post []) in Hmax; [exact Hmax|].
  rewrite Hsplit. rewrite app_nth2 by lia.
  replace (length pre + 1 + j - length pre)%nat with (S j) by lia. reflexivity.
Qed.

Lemma findBestMatch_zero sub videos :
  (forall v, In v videos -> f64_eq (videoScore sub v) f64_zero = true) ->
  findBestMatch sub videos = ([], f64_zero).
Proof.
  intros Hz. unfold findBestMatch. apply best_kept.
  intros v Hv. specialize (Hz v Hv).
  destruct (videoScore sub v) as [s|s| |s m e]; try destruct s; cbn in *; congruence.
Qed.

End Selection.

(** C4 (amended).  When the greatest score among the candidates is above
    0.0, [findBestMatch] returns the first candidate that attains it, with
    that score, however many candidates tie for it: a candidate whose score
    equals the best so far never replaces it. *)
Theorem findBestMatch_first_of_ties `{Unicode} (sub : gostring) (videos : list gostring)
        (k : nat) :
  FirstMaximal (map (videoScore sub) videos) k ->
  f64_gt (nth k (map (videoScore sub) videos) f64_zero) f64_zero = true ->
  findBestMatch sub videos = (nth k videos [], nth k (map (videoScore sub) videos) f64_zero)
  /\ (forall bm bs v,
         f64_eq (videoScore sub v) bs = true ->
         bestStep (normalizeTitle (stem sub)) (bm, bs) v = (bm, bs)).
Proof.
  intros Hmax Hpos. split.
  - now apply findBestMatch_first_max.
  - intros bm bs v He. rewrite bestStep_eq, f64_le_not_gt; [reflexivity|].
    unfold f64_eq, f64_le, SFeqb, SFleb in *. now destruct (SFcompare _ _) as [[]|].
Qed.

Lemma findBestMatch_first_of_ties_witness :
  @findBestMatch caselessUnicode (gs "dir/ab.srt")
                 [gs "dir/b.mkv"; gs "dir/ab.mkv"; gs "dir/ab.mp4"]
  = (gs "dir/ab.mkv", f64_one).
Proof.
  refine (proj1 (@findBestMatch_first_of_ties caselessUnicode (gs "dir/ab.srt")
                   [gs "dir/b.mkv"; gs "dir/ab.mkv"; gs "dir/ab.mp4"] 1 _ _)).
  - split; [cbn; lia|split].
    + intros [|[|[|j]]] Hj; [reflexivity|reflexivity|reflexivity|cbn in Hj; lia].
    + intros [|j] Hj; [reflexivity|lia].
  - reflexivity.
Defined.

(** The claim as the specification words it fails when every candidate
    scores 0.0: both candidates tie for the greatest score, the first of
    them is the first maximal one, yet the empty path is returned. *)
Lemma findBestMatch_tie_at_zero_counterexample :
  @videoScore caselessUnicode (gs "a.srt") (gs "b.mkv") = f64_zero /\
  @videoScore caselessUnicode (gs "a.srt") (gs "c.mkv") = f64_zero /\
  FirstMaximal (map (@videoScore caselessUnicode (gs "a.srt")) [gs "b.mkv"; gs "c.mkv"]) 0 /\
  @findBestMatch caselessUnicode (gs "a.srt") [gs "b.mkv"; gs "c.mkv"] = ([], f64_zero) /\
  fst (@findBestMatch caselessUnicode (gs "a.srt") [gs "b.mkv"; gs "c.mkv"]) <> gs "b.mkv".
Proof.
  split; [reflexivity|]. split; [reflexivity|]. split; [|split].
  - split; [cbn; lia|split].
    + intros [|[|j]] Hj; [reflexivity|reflexivity|cbn in Hj; lia].
    + intros j Hj. lia.
  - reflexivity.
  - discriminate.
Qed.

(** * The loop of Match *)

Lemma fold_left_invariant {A B : Type} (f : A -> B -> A) (P : A -> Prop) l :
  forall a, P a -> (forall a' b, In b l -> P a' -> P (f a' b)) -> P (fold_left f l a).
Proof.
  induction l as [|b l IH]; intros a Ha Hstep; cbn.
  - assumption.
  - apply IH; auto using in_eq, in_cons.
Qed.

Section MatchLoop.
Context `{Unicode} `{FileSystem}.

(** The five ways one iteration ends. *)
Lemma matchStep_rejected vsm videos st s :
  accepted vsm videos s = false ->
  matchStep vsm videos st s
  = {| results := results st
                  ++ [{| SubtitlePath := s; VideoPath := fst (findBestMatch s videos);
                         NewSubtitlePath := []; Similarity := snd (findBestMatch s videos);
                         Renamed := false; Error := None |}];
       world := world st; renames := renames st |}.
Proof.
  unfold accepted, matchStep. destruct (findBestMatch s videos) as [best score].
  cbn [fst snd]. now intros ->.
Qed.

Lemma matchStep_suppressed vsm videos st s :
  suppressed vsm videos s = true -> matchStep vsm videos st s = st.
Proof.
  unfold suppressed, accepted, targetPath, matchStep.
  destruct (findBestMatch s videos) as [best score]. cbn [fst snd].
  intros Hs. apply andb_true_iff in Hs as [Hs Heq]. apply andb_true_iff in Hs as [Hi Ha].
  now rewrite Ha, Hi, Heq.
Qed.

Lemma matchStep_dry vsm videos st s :
  accepted vsm videos s = true -> suppressed vsm videos s = false -> dryRun vsm = true ->
  matchStep vsm videos st s
  = {| results := results st
                  ++ [{| SubtitlePath := s; VideoPath := fst (findBestMatch s videos);
                         NewSubtitlePath := targetPath videos s;
                         Similarity := snd (findBestMatch s videos);
                         Renamed := false; Error := None |}];
       world := world st; renames := renames st |}.
Proof.
  unfold suppressed, accepted, targetPath, matchStep.
  destruct (findBestMatch s videos) as [best score]. cbn [fst snd].
  intros Ha Hs Hd. rewrite Ha, Hd. rewrite Ha, andb_true_r in Hs. now rewrite Hs.
Qed.

Lemma matchStep_same_name vsm videos st s :
  accepted vsm videos s = true -> suppressed vsm videos s = false -> dryRun vsm = false ->
  s = targetPath videos s ->
  matchStep vsm videos st s
  = {| results := results st
                  ++ [{| SubtitlePath := s; VideoPath := fst (findBestMatch s videos);
                         NewSubtitlePath := targetPath videos s;
                         Similarity := snd (findBestMatch s videos);
                         Renamed := true; Error := None |}];
       world := world st; renames := renames st |}.
Proof.
  unfold suppressed, accepted, targetPath, matchStep.
  destruct (findBestMatch s videos) as [best score]. cbn [fst snd].
  intros Ha Hs Hd He. rewrite Ha, Hd. rewrite Ha, andb_true_r in Hs. rewrite Hs.
  assert (Heq : string_eqb s (newSubtitlePathFor s best) = true)
    by (rewrite <- He; apply string_eqb_refl).
  now rewrite Heq.
Qed.

Lemma matchStep_rename vsm videos st s :
  accepted vsm videos s = true -> dryRun vsm = false -> s <> targetPath videos s ->
  matchStep vsm videos st s
  = {| results := results st
                  ++ [{| SubtitlePath := s; VideoPath := fst (findBestMatch s videos);
                         NewSubtitlePath := targetPath videos s;
                         Similarity := snd (findBestMatch s videos);
                         Renamed := match fst (os_Rename s (targetPath videos s) (world st)) with
                                    | Some _ => false
                                    | None => true
                                    end;
                         Error := fst (os_Rename s (targetPath videos s) (world st)) |}];
       world := snd (os_Rename s (targetPath videos s) (world st));
       renames := renames st ++ [(s, targetPath videos s)] |}.
Proof.
  unfold accepted, targetPath, matchStep.
  destruct (findBestMatch s videos) as [best score]. cbn [fst snd].
  intros Ha Hd He. rewrite Ha, Hd. rewrite (string_eqb_neq _ _ He), andb_false_r. cbn [negb].
  now destruct (os_Rename s (newSubtitlePathFor s best) (world st)) as [[e|] w'].
Qed.

(** One iteration appends at most one result, which describes its subtitle. *)
Lemma matchStep_results vsm videos st s :
  (suppressed vsm videos s = true /\ matchStep vsm videos st s = st) \/
  (suppressed vsm videos s = false /\
   exists r, results (matchStep vsm videos st s) = results st ++ [r] /\
             SubtitlePath r = s /\ describes vsm videos r).
Proof.
  destruct (suppressed vsm videos s) eqn:Hs.
  - left. split; [reflexivity|]. now apply matchStep_suppressed.
  - right. split; [reflexivity|].
    destruct (accepted vsm videos s) eqn:Ha.
    + destruct (dryRun vsm) eqn:Hd.
      * rewrite matchStep_dry by assumption. eexists. split; [reflexivity|].
        split; [reflexivity|]. unfold describes. cbn. rewrite Ha. repeat split; congruence.
      * destruct (string_eqb_spec s (targetPath videos s)) as [He|Hne].
        -- rewrite matchStep_same_name by assumption. eexists. split; [reflexivity|].
           split; [reflexivity|]. unfold describes. cbn. rewrite Ha. repeat split; congruence.
        -- rewrite matchStep_rename by assumption. eexists. split; [reflexivity|].
           split; [reflexivity|]. unfold describes. cbn. rewrite Ha. repeat split; congruence.
    + rewrite matchStep_rejected by assumption. eexists. split; [reflexivity|].
      split; [reflexivity|]. unfold describes. cbn. rewrite Ha. repeat split; congruence.
Qed.

(** The loop appends, in order, one result for each subtitle that is not
    suppressed. *)
Lemma Match_loop_results vsm videos subs :
  forall st,
  exists l,
    results (fold_left (matchStep vsm videos) subs st) = results st ++ l /\
    map SubtitlePath l = filter (fun s => negb (suppressed vsm videos s)) subs /\
    Forall (describes vsm videos) l.
Proof.
  induction subs as [|s subs IH]; intros st; cbn [fold_left filter].
  - exists []. rewrite app_nil_r. repeat split. constructor.
  - destruct (IH (matchStep vsm videos st s)) as (l & Hl & Hmap & Hall).
    destruct (matchStep_results vsm videos st s) as [[Hs Hst]|(Hs & r & Hr & Hsub & Hdesc)];
      rewrite Hs; cbn [negb]; cbv iota.
    + exists l. rewrite Hst in Hl |- *. repeat split; assumption.
    + exists (r :: l). split; [|split].
      * rewrite Hl, Hr, <- app_assoc. reflexivity.
      * cbn [map]. now rewrite Hsub, Hmap.
      * now constructor.
Qed.

Lemma Match_scanned vsm w videos subs :
  scanFiles vsm w = (videos, subs, None) ->
  Match vsm w
  = ((results (fold_left (matchStep vsm videos) subs (initialState w)), None),
     world (fold_left (matchStep vsm videos) subs (initialState w)),
     renames (fold_left (matchStep vsm videos) subs (initialState w))).
Proof. unfold Match. now intros ->. Qed.

Lemma Match_scan_failed vsm w videos subs err :
  scanFiles vsm w = (videos, subs, Some err) ->
  Match vsm w = (([], Some (ScanFailed err)), w, []).
Proof. unfold Match. now intros ->. Qed.

End MatchLoop.

(** The path [Match] computes for an accepted subtitle is never empty. *)
Lemma filepath_Clean_nonempty path : filepath_Clean path <> [].
Proof.
  unfold filepath_Clean. destruct path as [|c path]; [discriminate|].
  destruct (isPathSeparator c); [discriminate|].
  destruct (strings_Join _ _); discriminate.
Qed.

Lemma newSubtitlePathFor_nonempty s best : newSubtitlePathFor s best <> [].
Proof.
  unfold newSubtitlePathFor, filepath_Join.
  pose proof (filepath_Clean_nonempty
                (rev (dropWhile (fun c => negb (isPathSeparator c)) (rev s)))) as Hd.
  fold (filepath_Dir s) in Hd.
  destruct (filepath_Dir s) as [|c d]; [contradiction|].
  apply filepath_Clean_nonempty.
Qed.

Section MatchClaims.
Context `{Unicode} `{FileSystem}.

Lemma Match_results_describe vsm w videos subs :
  scanFiles vsm w = (videos, subs, None) ->
  map SubtitlePath (fst (fst (fst (Match vsm w))))
  = filter (fun s => negb (suppressed vsm videos s)) subs /\
  Forall (describes vsm videos) (fst (fst (fst (Match vsm w)))).
Proof.
  intros Hscan. rewrite (Match_scanned _ _ _ _ Hscan). cbn [fst].
  destruct (Match_loop_results vsm videos subs (initialState w)) as (l & Hl & Hmap & Hall).
  rewrite Hl. cbn [initialState results app]. split; assumption.
Qed.


(** C6.  With [ignoreExisting] set, an accepted subtitle whose new path is
    its own path leaves the loop state as it is: no result is appended.  In
    every other case the iteration appends one result for the subtitle.  So
    the subtitles of the results [Match] returns are, in order, the scanned
    subtitles without the suppressed ones. *)
Theorem Match_ignoreExisting_skips (vsm : VideoSubtitleMatcher) (w : World)
        (videos subs : list gostring) :
  scanFiles vsm w = (videos, subs, None) ->
  (forall st s,
      ignoreExisting vsm = true -> accepted vsm videos s = true ->
      s = targetPath videos s ->
      matchStep vsm videos st s = st) /\
  (forall st s,
      ~ (ignoreExisting vsm = true /\ accepted vsm videos s = true /\
         s = targetPath videos s) ->
      exists r, results (matchStep vsm videos st s) = results st ++ [r] /\
                SubtitlePath r = s) /\
  map SubtitlePath (fst (fst (fst (Match vsm w))))
  = filter (fun s => negb (suppressed vsm videos s)) subs.
Proof.
  intros Hscan. split; [|split].
  - intros st s Hi Ha He. apply matchStep_suppressed.
    unfold suppressed. rewrite Hi, Ha, <- He. apply string_eqb_refl.
  - intros st s Hno.
    destruct (matchStep_results vsm videos st s) as [[Hs _]|(_ & r & Hr & Hsub & _)].
    + exfalso. apply Hno. unfold suppressed in Hs.
      apply andb_true_iff in Hs as [Hs He]. apply andb_true_iff in Hs as [Hi Ha].
      repeat split; try assumption. now destruct (string_eqb_spec s (targetPath videos s)).
    + exists r. auto.
  - apply (Match_results_describe vsm w videos subs Hscan).
Qed.

Lemma matchStep_dry_frame vsm videos st s :
  dryRun vsm = true ->
  world (matchStep vsm videos st s) = world st /\
  renames (matchStep vsm videos st s) = renames st.
Proof.
  intros Hd. destruct (suppressed vsm videos s) eqn:Hs.
  - rewrite matchStep_suppressed by assumption. auto.
  - destruct (accepted vsm videos s) eqn:Ha.
    + rewrite matchStep_dry by assumption. auto.
    + rewrite matchStep_rejected by assumption. auto.
Qed.

(** C7.  In dry-run mode [Match] issues no call of [os.Rename] and leaves
    the file system as it found it, and every result it returns has
    [Renamed == false] and [Error == nil], whatever the scores, the
    threshold and the paths. *)
Theorem Match_dryRun_no_effect (vsm : VideoSubtitleMatcher) (w : World) :
  dryRun vsm = true ->
  snd (fst (Match vsm w)) = w /\
  snd (Match vsm w) = [] /\
  Forall (fun r => Renamed r = false /\ Error r = None) (fst (fst (fst (Match vsm w)))).
Proof.
  intros Hd. destruct (scanFiles vsm w) as [[videos subs] [err|]] eqn:Hscan.
  - rewrite (Match_scan_failed _ _ _ _ _ Hscan). cbn. auto.
  - split; [|split].
    + rewrite (Match_scanned _ _ _ _ Hscan). cbn [fst snd].
      apply (fold_left_invariant (matchStep vsm videos) (fun st => world st = w)).
      * reflexivity.
      * intros st s _ Hw. now rewrite (proj1 (matchStep_dry_frame vsm videos st s Hd)).
    + rewrite (Match_scanned _ _ _ _ Hscan). cbn [fst snd].
      apply (fold_left_invariant (matchStep vsm videos) (fun st => renames st = [])).
      * reflexivity.
      * intros st s _ Hr. now rewrite (proj2 (matchStep_dry_frame vsm videos st s Hd)).
    + destruct (Match_results_describe vsm w videos subs Hscan) as [_ Hall].
      eapply Forall_impl; [|exact Hall].
      intros r (_ & _ & _ & _ & Hdry). now apply Hdry.
Qed.

(** C9.  With dry-run off, when the rename of one subtitle fails, its result
    carries the error with [Renamed == false] and is appended after the
    results of the subtitles before it; the loop goes on through the
    remaining subtitles, each of which gets its result unless suppressed; and
    [Match] returns all of them with a nil top-level error. *)
Theorem Match_rename_failure_isolated (vsm : VideoSubtitleMatcher) (w : World)
        (videos pre post : list gostring) (s : gostring) (e : OSError) (w' : World) :
  dryRun vsm = false ->
  scanFiles vsm w = (videos, pre ++ s :: post, None) ->
  accepted vsm videos s = true ->
  s <> targetPath videos s ->
  os_Rename s (targetPath videos s)
            (world (fold_left (matchStep vsm videos) pre (initialState w))) = (Some e, w') ->
  exists rest,
    fst (fst (Match vsm w))
    = (results (fold_left (matchStep vsm videos) pre (initialState w))
       ++ {| SubtitlePath := s; VideoPath := fst (findBestMatch s videos);
             NewSubtitlePath := targetPath videos s;
             Similarity := snd (findBestMatch s videos);
             Renamed := false; Error := Some e |} :: rest,
       None) /\
    map SubtitlePath rest = filter (fun p => negb (suppressed vsm videos p)) post /\
    Forall (describes vsm videos) rest.
Proof.
  intros Hd Hscan Ha Hne Hren.
  rewrite (Match_scanned _ _ _ _ Hscan). cbn [fst].
  rewrite fold_left_app. cbn [fold_left].
  set (st1 := fold_left (matchStep vsm videos) pre (initialState w)) in *.
  destruct (Match_loop_results vsm videos post (matchStep vsm videos st1 s))
    as (rest & Hrest & Hmap & Hall).
  exists rest. rewrite Hrest.
  rewrite matchStep_rename by assumption. rewrite Hren. cbn [fst snd results].
  rewrite <- app_assoc. auto.
Qed.

(** C10.  When every candidate scores 0.0 against the subtitle,
    [findBestMatch] returns the empty path with score 0.0, as it does for no
    candidates at all; the result [Match] appends for that subtitle then has
    an empty [VideoPath] although candidates existed. *)
Theorem findBestMatch_all_zero (sub : gostring) (videos : list gostring) :
  videos <> [] ->
  (forall v, In v videos -> f64_eq (videoScore sub v) f64_zero = true) ->
  findBestMatch sub videos = ([], f64_zero) /\
  findBestMatch sub videos = findBestMatch sub [] /\
  (forall vsm st,
      matchStep vsm videos st sub = st \/
      exists r, results (matchStep vsm videos st sub) = results st ++ [r] /\
                SubtitlePath r = sub /\ VideoPath r = [] /\ Similarity r = f64_zero).
Proof.
  intros _ Hz. pose proof (findBestMatch_zero sub videos Hz) as Hfb.
  split; [assumption|]. split; [assumption|].
  intros vsm st.
  destruct (matchStep_results vsm videos st sub) as [[_ Hst]|(_ & r & Hr & Hsub & Hd)].
  - now left.
  - right. exists r. destruct Hd as (Hv & Hsim & _). rewrite Hsub, Hfb in *. auto.
Qed.

End MatchClaims.

(** * The worked example of the specification *)

Section HowToCode.
Context `{Unicode} `{FileSystem}.

Lemma stem_video_in_dir d :
  stem (d ++ gs "/How_to_code_[ABC123].mkv") = gs "How_to_code_[ABC123]".
Proof.
  unfold stem, filepath_Base, filepath_Ext.
  rewrite rev_app_distr. destruct d; reflexivity.
Qed.

Lemma stem_subtitle_in_dir d :
  stem (d ++ gs "/How_to_code_-_YouTube-zh-CN-dual-double.srt")
  = gs "How_to_code_-_YouTube-zh-CN-dual-double".
Proof.
  unfold stem, filepath_Base, filepath_Ext.
  rewrite rev_app_distr. destruct d; reflexivity.
Qed.

Lemma ext_subtitle_in_dir d :
  filepath_Ext (d ++ gs "/How_to_code_-_YouTube-zh-CN-dual-double.srt") = gs ".srt".
Proof. unfold filepath_Ext. rewrite rev_app_distr. reflexivity. Qed.

(** C5.  The stems ["How_to_code_-_YouTube-zh-CN-dual-double"] and
    ["How_to_code_[ABC123]"] both normalise to ["how to code"], so their
    similarity is 1.0; for the bare file names the new subtitle path is
    ["How_to_code_[ABC123].srt"], and for files in any directories it is the
    subtitle's directory joined with that name; the loop of [Match] records
    it, and so does [Match] on a directory holding the two files, for every
    configuration [New] can build. *)
Theorem how_to_code_example (dsub dvid : gostring) :
  normalizeTitle (gs "How_to_code_-_YouTube-zh-CN-dual-double") = gs "how to code" /\
  normalizeTitle (gs "How_to_code_[ABC123]") = gs "how to code" /\
  calculateSimilarity
    (normalizeTitle (stem (gs "How_to_code_-_YouTube-zh-CN-dual-double.srt")))
    (normalizeTitle (stem (gs "How_to_code_[ABC123].mkv"))) = f64_one /\
  newSubtitlePathFor (gs "How_to_code_-_YouTube-zh-CN-dual-double.srt")
                     (gs "How_to_code_[ABC123].mkv")
  = gs "How_to_code_[ABC123].srt" /\
  findBestMatch (dsub ++ gs "/How_to_code_-_YouTube-zh-CN-dual-double.srt")
                [dvid ++ gs "/How_to_code_[ABC123].mkv"]
  = (dvid ++ gs "/How_to_code_[ABC123].mkv", f64_one) /\
  newSubtitlePathFor (dsub ++ gs "/How_to_code_-_YouTube-zh-CN-dual-double.srt")
                     (dvid ++ gs "/How_to_code_[ABC123].mkv")
  = filepath_Join [filepath_Dir (dsub ++ gs "/How_to_code_-_YouTube-zh-CN-dual-double.srt");
                   gs "How_to_code_[ABC123].srt"] /\
  (forall dir options st,
      exists r,
        results (matchStep (New dir options) [gs "How_to_code_[ABC123].mkv"] st
                           (gs "How_to_code_-_YouTube-zh-CN-dual-double.srt"))
        = results st ++ [r] /\
        SubtitlePath r = gs "How_to_code_-_YouTube-zh-CN-dual-double.srt" /\
        VideoPath r = gs "How_to_code_[ABC123].mkv" /\
        Similarity r = f64_one /\
        NewSubtitlePath r = gs "How_to_code_[ABC123].srt") /\
  (forall dir options w,
      scanFiles (New dir options) w
      = ([gs "How_to_code_[ABC123].mkv"],
         [gs "How_to_code_-_YouTube-zh-CN-dual-double.srt"], None) ->
      exists r,
        fst (fst (fst (Match (New dir options) w))) = [r] /\
        SubtitlePath r = gs "How_to_code_-_YouTube-zh-CN-dual-double.srt" /\
        VideoPath r = gs "How_to_code_[ABC123].mkv" /\
        Similarity r = f64_one /\
        NewSubtitlePath r = gs "How_to_code_[ABC123].srt").
Proof.
  assert (Hstep : forall dir options st,
      exists r,
        results (matchStep (New dir options) [gs "How_to_code_[ABC123].mkv"] st
                           (gs "How_to_code_-_YouTube-zh-CN-dual-double.srt"))
        = results st ++ [r] /\
        SubtitlePath r = gs "How_to_code_-_YouTube-zh-CN-dual-double.srt" /\
        VideoPath r = gs "How_to_code_[ABC123].mkv" /\
        Similarity r = f64_one /\
        NewSubtitlePath r = gs "How_to_code_[ABC123].srt").
  { intros dir options st.
    set (sub := gs "How_to_code_-_YouTube-zh-CN-dual-double.srt").
    set (videos := [gs "How_to_code_[ABC123].mkv"]).
    assert (Hfb : findBestMatch sub videos = (gs "How_to_code_[ABC123].mkv", f64_one))
      by reflexivity.
    assert (Ha : accepted (New dir options) videos sub = true).
    { unfold accepted. rewrite Hfb. apply New_threshold. }
    assert (Hs : suppressed (New dir options) videos sub = false).
    { unfold suppressed.
      replace (string_eqb sub (targetPath videos sub)) with false by reflexivity.
      apply andb_false_r. }
    destruct (matchStep_results (New dir options) videos st sub)
      as [[Hs' _]|(_ & r & Hr & Hsub & Hv & Hsim & Hnew & _)]; [congruence|].
    exists r. rewrite Hsub, Ha in *. rewrite Hfb in *. repeat split; assumption. }
  split; [reflexivity|]. split; [reflexivity|]. split; [reflexivity|].
  split; [reflexivity|]. split; [|split; [|split]].
  - unfold findBestMatch. cbn [fold_left]. unfold bestStep.
    rewrite stem_subtitle_in_dir, stem_video_in_dir. reflexivity.
  - unfold newSubtitlePathFor. now rewrite stem_video_in_dir, ext_subtitle_in_dir.
  - exact Hstep.
  - intros dir options w Hscan. rewrite (Match_scanned _ _ _ _ Hscan). cbn [fst fold_left].
    destruct (Hstep dir options (initialState w)) as (r & Hr & Hrest).
    exists r. split; [exact Hr|exact Hrest].
Qed.

End HowToCode.

(** ** The claims on the in-memory file system *)


Lemma Match_ignoreExisting_skips_witness :
  map SubtitlePath
      (fst (fst (fst (@Match caselessUnicode memFS
                        (New (gs ".") [IgnoreExisting true])
                        (memDisk [gs "a.srt"; gs "a.mkv"; gs "b_x.srt"; gs "b x.mkv"] false)))))
  = [gs "b_x.srt"].
Proof.
  apply (@Match_ignoreExisting_skips caselessUnicode memFS
           (New (gs ".") [IgnoreExisting true])
           (memDisk [gs "a.srt"; gs "a.mkv"; gs "b_x.srt"; gs "b x.mkv"] false)
           [gs "a.mkv"; gs "b x.mkv"] [gs "a.srt"; gs "b_x.srt"]).
  reflexivity.
Defined.

Lemma Match_dryRun_no_effect_witness :
  snd (@Match caselessUnicode memFS (New (gs ".") [SimilarityThreshold f64_zero])
              (memDisk [gs "a_b.srt"; gs "a b.mkv"; gs "c.srt"] false))
  = [].
Proof.
  apply (@Match_dryRun_no_effect caselessUnicode memFS
           (New (gs ".") [SimilarityThreshold f64_zero])
           (memDisk [gs "a_b.srt"; gs "a b.mkv"; gs "c.srt"] false)).
  reflexivity.
Defined.

Lemma Match_rename_failure_isolated_witness :
  exists rest,
    fst (fst (@Match caselessUnicode memFS (New (gs ".") [DryRun false])
                     (memDisk [gs "a_b.srt"; gs "a b.mkv"; gs "c_d.srt"; gs "c d.mkv"] true)))
    = ([] ++ {| SubtitlePath := gs "a_b.srt"; VideoPath := gs "a b.mkv";
                NewSubtitlePath := gs "a b.srt"; Similarity := f64_one;
                Renamed := false; Error := memFailure EROFS |} :: rest,
       None) /\
    map SubtitlePath rest = [gs "c_d.srt"] /\
    Forall (@describes caselessUnicode memFS (New (gs ".") [DryRun false]) [gs "a b.mkv"; gs "c d.mkv"]) rest.
Proof.
  assert (Hne : gs "a_b.srt" <> @targetPath caselessUnicode [gs "a b.mkv"; gs "c d.mkv"] (gs "a_b.srt"))
    by (vm_compute; discriminate).
  destruct (@Match_rename_failure_isolated caselessUnicode memFS
           (New (gs ".") [DryRun false])
           (memDisk [gs "a_b.srt"; gs "a b.mkv"; gs "c_d.srt"; gs "c d.mkv"] true)
           [gs "a b.mkv"; gs "c d.mkv"] [] [gs "c_d.srt"] (gs "a_b.srt") EROFS
           (memDisk [gs "a_b.srt"; gs "a b.mkv"; gs "c_d.srt"; gs "c d.mkv"] true)
           eq_refl eq_refl eq_refl Hne eq_refl) as (rest & H1 & H2 & H3).
  exists rest. split; [|split].
  - exact H1.
  - exact H2.
  - exact H3.
Defined.

Lemma findBestMatch_all_zero_witness :
  @findBestMatch caselessUnicode (gs "a.srt") [gs "b.mkv"; gs "c.mkv"] = ([], f64_zero).
Proof.
  apply (@findBestMatch_all_zero caselessUnicode memFS (gs "a.srt") [gs "b.mkv"; gs "c.mkv"]).
  - discriminate.
  - intros v [<-|[<-|[]]]; reflexivity.
Defined.

Lemma how_to_code_example_witness :
  exists r,
    fst (fst (fst (@Match caselessUnicode memFS (New (gs ".") [DryRun false])
                          (memDisk [gs "How_to_code_-_YouTube-zh-CN-dual-double.srt";
                                    gs "How_to_code_[ABC123].mkv"] false))))
    = [r] /\
    SubtitlePath r = gs "How_to_code_-_YouTube-zh-CN-dual-double.srt" /\
    VideoPath r = gs "How_to_code_[ABC123].mkv" /\
    Similarity r = f64_one /\
    NewSubtitlePath r = gs "How_to_code_[ABC123].srt".
Proof.
  destruct (@how_to_code_example caselessUnicode memFS [] [])
    as (_ & _ & _ & _ & _ & _ & _ & Hmatch).
  apply (Hmatch (gs ".") [DryRun false]
           (memDisk [gs "How_to_code_-_YouTube-zh-CN-dual-double.srt";
                     gs "How_to_code_[ABC123].mkv"] false)).
  reflexivity.
Defined.

(** * Further properties of the similarity score *)

Lemma IsLCSLength_unique a b L L' : IsLCSLength a b L -> IsLCSLength a b L' -> L = L'.
Proof.
  intros [(c & Ha & Hb & Hc) Hmax] [(c' & Ha' & Hb' & Hc') Hmax'].
  specialize (Hmax c' Ha' Hb'). specialize (Hmax' c Ha Hb). lia.
Qed.

Lemma IsLCSLength_sym a b L : IsLCSLength a b L -> IsLCSLength b a L.
Proof.
  intros [(c & Ha & Hb & Hc) Hmax]. split.
  - exists c. now repeat split.
  - intros c' Hb' Ha'. now apply Hmax.
Qed.

Lemma longestCommonSubsequence_sym a b :
  longestCommonSubsequence a b = longestCommonSubsequence b a.
Proof.
  apply (IsLCSLength_unique a b).
  - apply longestCommonSubsequence_optimal.
  - apply IsLCSLength_sym, longestCommonSubsequence_optimal.
Qed.

Lemma string_eqb_sym a b : string_eqb a b = string_eqb b a.
Proof.
  destruct (string_eqb_spec a b) as [->|Hne].
  - now rewrite string_eqb_refl.
  - symmetry. apply string_eqb_neq. congruence.
Qed.

Lemma Subseq_In {A} (c l : list A) x : Subseq c l -> In x c -> In x l.
Proof.
  induction 1 as [|y l1 l2 _ IH|y l1 l2 _ IH]; cbn; intros Hx.
  - assumption.
  - right. now apply IH.
  - destruct Hx as [->|Hx]; [now left|right; now apply IH].
Qed.

Lemma Subseq_single {A} (l : list A) x : In x l -> Subseq [x] l.
Proof.
  induction l as [|y l IH]; cbn; intros Hx; [contradiction|].
  destruct Hx as [->|Hx].
  - apply Subseq_take, Subseq_nil_l.
  - apply Subseq_skip, IH, Hx.
Qed.

Lemma Subseq_full {A} (c l : list A) : Subseq c l -> length c = length l -> c = l.
Proof.
  induction 1 as [|y l1 l2 Hs IH|y l1 l2 Hs IH]; cbn; intros Hlen.
  - reflexivity.
  - apply Subseq_length in Hs. lia.
  - f_equal. apply IH. lia.
Qed.

Lemma longestCommonSubsequence_zero a b :
  longestCommonSubsequence a b = 0 <-> disjointBytes a b.
Proof.
  destruct (longestCommonSubsequence_optimal a b) as [(c & Ha & Hb & Hc) Hmax].
  split.
  - intros H0 x Hxa Hxb.
    specialize (Hmax [x] (Subseq_single _ _ Hxa) (Subseq_single _ _ Hxb)).
    rewrite H0 in Hmax. cbn in Hmax. lia.
  - intros Hdis. destruct c as [|x c].
    + rewrite <- Hc. reflexivity.
    + exfalso. apply (Hdis x).
      * apply (Subseq_In _ _ _ Ha). now left.
      * apply (Subseq_In _ _ _ Hb). now left.
Qed.

(** The quotient of two converted integers [0 < L <= M] is a positive
    double. *)
Lemma f64_ratio_pos L M :
  0 < L <= M -> M < 2 ^ 63 ->
  exists m e, f64_div (f64_of_int L) (f64_of_int M) = S754_finite false m e.
Proof.
  intros HL HM.
  destruct M as [|pm|pm]; try lia.
  pose proof (digits2_le_64 pm ltac:(lia)) as DM.
  pose proof (int_round_shape pm) as [BM SM]. cbv zeta in SM.
  rewrite (f64_of_int_round pm) by lia.
  destruct L as [|pl|pl]; try lia.
  pose proof (digits2_le_64 pl ltac:(lia)) as DL.
  pose proof (int_round_shape pl) as [BL SL]. cbv zeta in SL.
  pose proof (int_round_mono pl pm ltac:(lia)) as Hmono.
  rewrite (f64_of_int_round pl) by lia.
  destruct (int_round (Zpos pl)) as [m1 e1], (int_round (Zpos pm)) as [m2 e2].
  cbn [fst snd] in *.
  destruct m1 as [|m1|m1]; try lia. destruct m2 as [|m2|m2]; try lia.
  cbn [Z.to_pos].
  destruct (f64_div_le_one m1 e1 m2 e2) as (m & e & -> & He); try lia.
  { exact Hmono. }
  now exists m, e.
Qed.

Lemma f64_ratio_zero M :
  0 < M < 2 ^ 63 -> f64_div (f64_of_int 0) (f64_of_int M) = f64_zero.
Proof.
  intros HM. destruct M as [|pm|pm]; try lia.
  pose proof (digits2_le_64 pm ltac:(lia)) as DM.
  rewrite (f64_of_int_round pm) by lia. reflexivity.
Qed.

(** X1.  The score does not depend on the order of its arguments:
    [calculateSimilarity(a, b) == calculateSimilarity(b, a)], bit for bit. *)
Theorem calculateSimilarity_symmetric (a b : gostring) :
  calculateSimilarity a b = calculateSimilarity b a.
Proof.
  unfold calculateSimilarity.
  rewrite (string_eqb_sym b a), (longestCommonSubsequence_sym b a).
  destruct (string_eqb a b); [reflexivity|].
  replace (if len b >? len a then len b else len a)
    with (if len a >? len b then len a else len b); [reflexivity|].
  destruct (Z.gtb_spec (len b) (len a)), (Z.gtb_spec (len a) (len b)); lia.
Qed.

(** X2.  [longestCommonSubsequence] is symmetric and its result lies between
    0 and the length of the shorter string. *)
Theorem longestCommonSubsequence_symmetric_bounded (a b : gostring) :
  longestCommonSubsequence a b = longestCommonSubsequence b a /\
  0 <= longestCommonSubsequence a b <= Z.min (len a) (len b).
Proof.
  split.
  - apply longestCommonSubsequence_sym.
  - apply IsLCSLength_bounds, longestCommonSubsequence_optimal.
Qed.

(** X3.  [longestCommonSubsequence(a, b)] reaches [len(a)] exactly when [a]
    is a subsequence of [b]; so a string against itself gives its length. *)
Theorem longestCommonSubsequence_full (a b : gostring) :
  (longestCommonSubsequence a b = len a <-> Subseq a b) /\
  longestCommonSubsequence a a = len a.
Proof.
  assert (Hfull : forall x y, Subseq x y -> longestCommonSubsequence x y = len x).
  { intros x y Hs.
    destruct (longestCommonSubsequence_optimal x y) as [(c & Ha & Hb & Hc) Hmax].
    specialize (Hmax x (Subseq_refl x) Hs).
    apply Subseq_length in Ha. unfold len in *. lia. }
  split; [split|].
  - intros HL.
    destruct (longestCommonSubsequence_optimal a b) as [(c & Ha & Hb & Hc) _].
    assert (c = a) as <-; [|assumption].
    apply Subseq_full; [assumption|]. unfold len in *. lia.
  - apply Hfull.
  - apply Hfull, Subseq_refl.
Qed.

(** X4.  For two different strings the score is 0.0 exactly when they share
    no byte, and greater than 0.0 otherwise. *)
Theorem calculateSimilarity_zero_iff_disjoint (a b : gostring) :
  a <> b -> len a <= maxInt -> len b <= maxInt ->
  (calculateSimilarity a b = f64_zero <-> disjointBytes a b) /\
  (f64_gt (calculateSimilarity a b) f64_zero = true <-> ~ disjointBytes a b).
Proof.
  intros Hne Ha Hb.
  rewrite calculateSimilarity_neq by assumption.
  pose proof (IsLCSLength_bounds _ _ _ (longestCommonSubsequence_optimal a b)) as HL.
  pose proof (longestCommonSubsequence_zero a b) as Hz.
  assert (HM : 0 < Z.max (len a) (len b) < 2 ^ 63).
  { unfold maxInt, len in *. destruct a, b; cbn [length] in *; try lia. congruence. }
  destruct (Z.eq_dec (longestCommonSubsequence a b) 0) as [E|NE].
  - rewrite E, f64_ratio_zero by assumption. apply Hz in E.
    split; split; try easy; intros Hnd; now elim Hnd.
  - destruct (f64_ratio_pos (longestCommonSubsequence a b) (Z.max (len a) (len b)))
      as (m & e & ->); try lia.
    assert (Hnd : ~ disjointBytes a b) by (intros Hd; apply NE, Hz, Hd).
    split; split; try easy; intros Hd; now elim Hnd.
Qed.

Lemma calculateSimilarity_zero_iff_disjoint_witness :
  calculateSimilarity (gs "abc") (gs "xyz") = f64_zero /\
  f64_gt (calculateSimilarity (gs "abc") (gs "xbz")) f64_zero = true.
Proof.
  split.
  - apply (calculateSimilarity_zero_iff_disjoint (gs "abc") (gs "xyz")).
    + discriminate.
    + vm_compute; discriminate.
    + vm_compute; discriminate.
    + intros c Ha Hb. cbn in Ha, Hb.
      repeat (destruct Ha as [<-|Ha]; [repeat (destruct Hb as [Hb|Hb]; [discriminate|]); exact Hb|]).
      exact Ha.
  - apply (calculateSimilarity_zero_iff_disjoint (gs "abc") (gs "xbz")).
    + discriminate.
    + vm_compute; discriminate.
    + vm_compute; discriminate.
    + intros Hd. apply (Hd "b"%char); cbn; auto.
Defined.

(** ** A score of 1.0 means equal strings *)

(** Quotient of two normal positive doubles, the dividend strictly below the
    divisor: the result is a positive double strictly below 1.0. *)
Lemma f64_div_lt_one m1 e1 m2 e2 :
  2 ^ 52 <= Zpos m1 < 2 ^ 53 -> 2 ^ 52 <= Zpos m2 < 2 ^ 53 ->
  -500 <= e1 <= 500 -> -500 <= e2 <= 500 ->
  e1 < e2 \/ (e1 = e2 /\ Zpos m1 < Zpos m2) ->
  exists m e,
    f64_div (S754_finite false m1 e1) (S754_finite false m2 e2) = S754_finite false m e /\
    e < -52.
Proof.
  intros B1 B2 E1 E2 Hlt.
  assert (D1 : Zpos (digits2_pos m1) = 53) by (apply digits2_unique; lia).
  assert (D2 : Zpos (digits2_pos m2) = 53) by (apply digits2_unique; lia).
  unfold f64_div, SFdiv. rewrite SFdiv_core_normal by lia. cbn [xorb].
  set (q := Zpos m1 * 2 ^ 53 / Zpos m2).
  set (l := new_location (Zpos m2) ((Zpos m1 * 2 ^ 53) mod Zpos m2)).
  destruct (Z.eq_dec (Zpos m1) (Zpos m2)) as [Em|Nm].
  - assert (Hq : q = 2 ^ 53).
    { unfold q. rewrite Em, Z.mul_comm. apply Z.div_mul. lia. }
    assert (Hl : l = loc_Exact).
    { unfold l. rewrite Em, Z.mul_comm, Z.mod_mul by lia. apply new_location_0. }
    rewrite Hq, Hl.
    change (2 ^ 53) with (Zpos (2 ^ 53)%positive).
    rewrite (bra_normal (2 ^ 53)%positive (e1 - e2 - 53) loc_Exact 54) by (try reflexivity; lia).
    change (if _ <? _ then ?a else _) with a.
    change (Z.to_pos _) with (2 ^ 52)%positive.
    eexists _, _. split; [reflexivity|]. lia.
  - assert (Hqlo : 2 ^ 52 <= q).
    { apply Z.div_le_lower_bound; lia. }
    assert (Hqhi : q < 2 ^ 54 - 1).
    { apply Z.div_lt_upper_bound; lia. }
    assert (Hq53 : e1 = e2 -> q < 2 ^ 53 - 1).
    { intros Ee. apply Z.div_lt_upper_bound; lia. }
    destruct q as [|pq|pq] eqn:Eq; try lia.
    destruct (Z_lt_le_dec (Zpos pq) (2 ^ 53)) as [Hs|Hs].
    + assert (Dq : Zpos (digits2_pos pq) = 53) by (apply digits2_unique; lia).
      rewrite (bra_normal pq (e1 - e2 - 53) l 53) by lia.
      match goal with |- context [rne_up ?r ?s ?x] =>
        pose proof (rne_up_bounds r s x) as Hb; set (q' := rne_up r s x) in * end.
      change (53 - 53) with 0 in Hb. rewrite Z.pow_0_r, Z.div_1_r in Hb.
      destruct (Z.ltb_spec q' (2 ^ 53)); eexists _, _; (split; [reflexivity|]); lia.
    + assert (Dq : Zpos (digits2_pos pq) = 54) by (apply digits2_unique; lia).
      rewrite (bra_normal pq (e1 - e2 - 53) l 54) by lia.
      assert (Hq' : rne_up (fst (shr_bits (Zpos pq) l (54 - 53)))
                           (snd (shr_bits (Zpos pq) l (54 - 53)))
                           (Zpos pq / 2 ^ (54 - 53)) < 2 ^ 53).
      { unfold shr_bits. change (54 - 53 =? 0) with false. cbv iota. cbn [fst snd].
        change (54 - 53 - 1) with 0. change (54 - 53) with 1.
        rewrite Z.pow_0_r, Z.div_1_r, Z.pow_1_r.
        unfold rne_up. destruct (Z.odd (Zpos pq)) eqn:Hodd; cbn [andb].
        - apply Z.odd_spec in Hodd. destruct Hodd as [k Hk].
          assert (Hk2 : Zpos pq / 2 = k).
          { rewrite Hk, Z.mul_comm, Z.div_add_l by lia. change (1 / 2) with 0. lia. }
          clear - Hqhi Hk Hk2. destruct (_ || _); lia.
        - apply Z.div_lt_upper_bound; [lia|]. clear - Hqhi. lia. }
      apply Z.ltb_lt in Hq'. rewrite Hq'.
      eexists _, _. split; [reflexivity|]. lia.
Qed.

(** Conversion to [float64] is exact up to 2^53, so it keeps the strict
    order there. *)
Lemma int_round_strict p1 p2 :
  Zpos p1 < Zpos p2 -> Zpos p2 <= 2 ^ 53 ->
  snd (int_round (Zpos p1)) < snd (int_round (Zpos p2)) \/
  (snd (int_round (Zpos p1)) = snd (int_round (Zpos p2)) /\
   fst (int_round (Zpos p1)) < fst (int_round (Zpos p2))).
Proof.
  intros Hlt Hhi.
  pose proof (digits2_bounds p1) as [L1 U1].
  assert (D1 : Zpos (digits2_pos p1) <= 53).
  { assert (Zpos (digits2_pos p1) - 1 < 53); [|lia].
    apply (Z.pow_lt_mono_r_iff 2); lia. }
  assert (E1 : int_round (Zpos p1)
               = (Zpos p1 * 2 ^ (53 - Zpos (digits2_pos p1)), Zpos (digits2_pos p1) - 53)).
  { unfold int_round. cbn [Zdigits2].
    destruct (Z.leb_spec (Zpos (digits2_pos p1)) 53); [reflexivity|lia]. }
  rewrite E1. cbn [fst snd].
  destruct (Z.eq_dec (Zpos p2) (2 ^ 53)) as [E2|N2].
  - rewrite E2. left. change (snd (int_round (2 ^ 53))) with 1. lia.
  - pose proof (digits2_bounds p2) as [L2 U2].
    assert (D2 : Zpos (digits2_pos p2) <= 53).
    { assert (Zpos (digits2_pos p2) - 1 < 53); [|lia].
      apply (Z.pow_lt_mono_r_iff 2); lia. }
    assert (E2 : int_round (Zpos p2)
                 = (Zpos p2 * 2 ^ (53 - Zpos (digits2_pos p2)), Zpos (digits2_pos p2) - 53)).
    { unfold int_round. cbn [Zdigits2].
      destruct (Z.leb_spec (Zpos (digits2_pos p2)) 53); [reflexivity|lia]. }
    rewrite E2. cbn [fst snd].
    pose proof (digits2_mono p1 p2 ltac:(lia)) as Hd.
    destruct (Z.eq_dec (Zpos (digits2_pos p1)) (Zpos (digits2_pos p2))) as [E|NE].
    + right. split; [lia|]. rewrite E.
      apply Z.mul_lt_mono_pos_r; [apply Z.pow_pos_nonneg; lia|assumption].
    + left. lia.
Qed.

Lemma f64_ratio_lt_one L M :
  0 <= L < M -> M <= 2 ^ 53 ->
  f64_lt (f64_div (f64_of_int L) (f64_of_int M)) f64_one = true.
Proof.
  intros HL HM.
  destruct M as [|pm|pm]; try lia.
  assert (DM : Zpos (digits2_pos pm) <= 63) by (apply digits2_le_64; lia).
  pose proof (int_round_shape pm) as [BM SM]. cbv zeta in SM.
  rewrite (f64_of_int_round pm) by lia.
  destruct L as [|pl|pl]; try lia.
  - reflexivity.
  - assert (DL : Zpos (digits2_pos pl) <= 63) by (apply digits2_le_64; lia).
    pose proof (int_round_shape pl) as [BL SL]. cbv zeta in SL.
    pose proof (int_round_strict pl pm ltac:(lia) ltac:(lia)) as Hstrict.
    rewrite (f64_of_int_round pl) by lia.
    destruct (int_round (Zpos pl)) as [m1 e1], (int_round (Zpos pm)) as [m2 e2].
    cbn [fst snd] in *.
    destruct m1 as [|m1|m1]; try lia. destruct m2 as [|m2|m2]; try lia.
    cbn [Z.to_pos].
    destruct (f64_div_lt_one m1 e1 m2 e2) as (m & e & -> & He); try lia.
    unfold f64_lt, SFltb, f64_one, SFcompare.
    apply Z.compare_lt_iff in He. now rewrite He.
Qed.

Lemma calculateSimilarity_lt_one a b :
  a <> b -> len a <= 2 ^ 53 -> len b <= 2 ^ 53 ->
  f64_lt (calculateSimilarity a b) f64_one = true.
Proof.
  intros Hne Ha Hb. rewrite calculateSimilarity_neq by assumption.
  pose proof (IsLCSLength_bounds _ _ _ (longestCommonSubsequence_optimal a b)) as HL.
  apply f64_ratio_lt_one; [|lia].
  split; [lia|].
  destruct (Z.eq_dec (longestCommonSubsequence a b) (Z.max (len a) (len b))) as [E|NE]; [|lia].
  exfalso. apply Hne.
  destruct (longestCommonSubsequence_optimal a b) as [(c & Hca & Hcb & Hc) _].
  assert (c = a) as <- by (apply Subseq_full; [assumption|unfold len in *; lia]).
  apply Subseq_full; [assumption|unfold len in *; lia].
Qed.

(** X5.  For strings of at most 2^53 bytes the score is exactly 1.0 only for
    equal strings: two different strings score strictly less than 1.0. *)
Theorem calculateSimilarity_one_iff_equal (a b : gostring) :
  len a <= 2 ^ 53 -> len b <= 2 ^ 53 ->
  (calculateSimilarity a b = f64_one <-> a = b) /\
  (a <> b -> f64_lt (calculateSimilarity a b) f64_one = true).
Proof.
  intros Ha Hb.
  assert (Hlt : a <> b -> f64_lt (calculateSimilarity a b) f64_one = true)
    by (intros Hne; now apply calculateSimilarity_lt_one).
  split; [split|exact Hlt].
  - intros H1. destruct (string_eqb_spec a b) as [E|Hne]; [assumption|].
    specialize (Hlt Hne). rewrite H1 in Hlt. discriminate.
  - intros ->. unfold calculateSimilarity. now rewrite string_eqb_refl.
Qed.

Lemma calculateSimilarity_one_iff_equal_witness :
  f64_lt (calculateSimilarity (gs "how to code") (gs "how to cook")) f64_one = true.
Proof.
  apply (calculateSimilarity_one_iff_equal (gs "how to code") (gs "how to cook")).
  - vm_compute; discriminate.
  - vm_compute; discriminate.
  - discriminate.
Defined.

(** X6.  [longestCommonSubsequence] is monotone: extending either string,
    anywhere, never lowers the result. *)
Theorem longestCommonSubsequence_monotone (a a' b b' : gostring) :
  Subseq a a' -> Subseq b b' ->
  longestCommonSubsequence a b <= longestCommonSubsequence a' b'.
Proof.
  intros Ha Hb.
  destruct (longestCommonSubsequence_optimal a b) as [(c & Hca & Hcb & <-) _].
  destruct (longestCommonSubsequence_optimal a' b') as [_ Hmax].
  apply Hmax; [exact (Subseq_trans _ _ _ Hca Ha)|exact (Subseq_trans _ _ _ Hcb Hb)].
Qed.

Lemma longestCommonSubsequence_monotone_witness :
  longestCommonSubsequence (gs "code") (gs "cook")
  <= longestCommonSubsequence (gs "how to code") (gs "how to cook").
Proof.
  apply longestCommonSubsequence_monotone.
  - repeat (first [apply Subseq_nil | apply Subseq_take | apply Subseq_skip]).
  - repeat (first [apply Subseq_nil | apply Subseq_take | apply Subseq_skip]).
Defined.

(** * Further properties of the selection *)

Lemma SFltb_key x y :
  SFltb x y = true <-> x <> S754_nan /\ y <> S754_nan /\ lexlt (f64_key x) (f64_key y).
Proof.
  unfold SFltb, SFcompare, lexlt, f64_key.
  destruct x as [sx|sx| |sx mx ex], y as [sy|sy| |sy my ey];
    try destruct sx; try destruct sy;
    try (split; [intros H; try discriminate H; repeat split; try discriminate; lia
                |intros (H1 & H2 & H3); try congruence; try reflexivity; lia]).
  - (* both negative *)
    change (Pos.compare_cont Eq mx my) with (Pos.compare mx my).
    destruct (Z.compare_spec ex ey) as [E|E|E];
      [destruct (Pos.compare_spec mx my) as [M|M|M]|..]; cbn [CompOpp];
      (split; [intros H; try discriminate H; repeat split; try discriminate; lia
              |intros (H1 & H2 & H3); try reflexivity; lia]).
  - (* both positive *)
    change (Pos.compare_cont Eq mx my) with (Pos.compare mx my).
    destruct (Z.compare_spec ex ey) as [E|E|E];
      [destruct (Pos.compare_spec mx my) as [M|M|M]|..];
      (split; [intros H; try discriminate H; repeat split; try discriminate; lia
              |intros (H1 & H2 & H3); try reflexivity; lia]).
Qed.

Lemma SFltb_trans x y z : SFltb x y = true -> SFltb y z = true -> SFltb x z = true.
Proof.
  rewrite !SFltb_key. intros (Hx & _ & Hxy) (_ & Hz & Hyz).
  repeat split; try assumption.
  unfold lexlt in *.
  destruct (f64_key x) as [[a1 b1] c1], (f64_key y) as [[a2 b2] c2],
           (f64_key z) as [[a3 b3] c3].
  lia.
Qed.

Lemma SFltb_irrefl x : SFltb x x = false.
Proof.
  destruct (SFltb x x) eqn:E; [|reflexivity].
  apply SFltb_key in E. destruct E as (_ & _ & E). unfold lexlt in E.
  destruct (f64_key x) as [[a b] c]. lia.
Qed.

(** A score that beats the best so far is not beaten by what the best so
    far was not beaten by. *)
Lemma f64_gt_new_best x s b :
  f64_gt x b = false -> f64_gt s b = true -> f64_gt x s = false.
Proof.
  unfold f64_gt, f64_lt. intros Hxb Hsb.
  destruct (SFltb s x) eqn:Hsx; [|reflexivity].
  now rewrite (SFltb_trans b s x Hsb Hsx) in Hxb.
Qed.

Section SelectionMaximal.
Context `{Unicode}.

Lemma bestStep_bestOf sub seen best v :
  bestOf sub seen best ->
  bestOf sub (seen ++ [v]) (bestStep (normalizeTitle (stem sub)) best v).
Proof.
  destruct best as [bm bs]. unfold bestOf. intros [Hmax Hbest]. cbn [fst snd] in *.
  rewrite bestStep_eq.
  destruct (f64_gt (videoScore sub v) bs) eqn:Hgt; split; cbn [fst snd].
  - intros v' Hin. apply in_app_or in Hin. destruct Hin as [Hin|[<-|[]]].
    + apply (f64_gt_new_best _ _ bs); [now apply Hmax|assumption].
    + apply SFltb_irrefl.
  - right. split; [apply in_or_app; right; now left|]. split; [reflexivity|].
    destruct Hbest as [[_ ->]|(_ & _ & Hpos)]; [assumption|].
    unfold f64_gt, f64_lt in *. now apply (SFltb_trans _ bs).
  - intros v' Hin. apply in_app_or in Hin. destruct Hin as [Hin|[<-|[]]].
    + now apply Hmax.
    + assumption.
  - destruct Hbest as [Hbest|(Hin & Hs & Hpos)]; [now left|].
    right. split; [apply in_or_app; now left|]. now split.
Qed.

Lemma fold_bestStep_bestOf sub post :
  forall seen best,
    bestOf sub seen best ->
    bestOf sub (seen ++ post) (fold_left (bestStep (normalizeTitle (stem sub))) post best).
Proof.
  induction post as [|v post IH]; intros seen best Hb; cbn [fold_left].
  - now rewrite app_nil_r.
  - replace (seen ++ v :: post) with ((seen ++ [v]) ++ post)
      by (now rewrite <- app_assoc).
    apply IH, bestStep_bestOf, Hb.
Qed.

(** X7.  The score [findBestMatch] returns is exceeded by the score of no
    candidate; it returns either no path with the score 0.0, or one of the
    candidates, with that candidate's score, which is then above 0.0. *)
Theorem findBestMatch_maximal (sub : gostring) (videos : list gostring) :
  (forall v, In v videos ->
             f64_gt (videoScore sub v) (snd (findBestMatch sub videos)) = false) /\
  ((fst (findBestMatch sub videos) = [] /\ snd (findBestMatch sub videos) = f64_zero) \/
   (In (fst (findBestMatch sub videos)) videos /\
    snd (findBestMatch sub videos) = videoScore sub (fst (findBestMatch sub videos)) /\
    f64_gt (snd (findBestMatch sub videos)) f64_zero = true)).
Proof.
  apply (fold_bestStep_bestOf sub videos [] ([], f64_zero)).
  split; [intros v []|left; now split].
Qed.

End SelectionMaximal.

Section ExactMatch.
Context `{Unicode}.

Lemma nth_map_scores sub videos j :
  (j < length videos)%nat ->
  nth j (map (videoScore sub) videos) f64_zero = videoScore sub (nth j videos []).
Proof.
  intros Hj. rewrite (nth_indep _ f64_zero (videoScore sub [])) by (now rewrite length_map).
  apply map_nth.
Qed.

(** X8.  When the normalised name of a video equals that of the subtitle,
    [findBestMatch] returns the first such video with the score 1.0 (names
    of at most 2^53 bytes), and the subtitle is accepted under every
    threshold [New] can set. *)
Theorem findBestMatch_exact_match (sub : gostring) (videos : list gostring) (k : nat) :
  (k < length videos)%nat ->
  normalizeTitle (stem (nth k videos [])) = normalizeTitle (stem sub) ->
  (forall j, (j < k)%nat ->
             normalizeTitle (stem (nth j videos [])) <> normalizeTitle (stem sub)) ->
  len (normalizeTitle (stem sub)) <= 2 ^ 53 ->
  (forall v, In v videos -> len (normalizeTitle (stem v)) <= 2 ^ 53) ->
  findBestMatch sub videos = (nth k videos [], f64_one) /\
  (forall dir options, accepted (New dir options) videos sub = true).
Proof.
  intros Hk Heq Hbefore Hsub Hvid.
  assert (Hone : videoScore sub (nth k videos []) = f64_one).
  { unfold videoScore, calculateSimilarity. now rewrite Heq, string_eqb_refl. }
  assert (Hfind : findBestMatch sub videos = (nth k videos [], f64_one)).
  { rewrite <- Hone, <- (nth_map_scores sub videos k Hk).
    apply findBestMatch_first_max.
    - split; [now rewrite length_map|]. split.
      + intros j Hj. rewrite length_map in Hj.
        rewrite !nth_map_scores, Hone by assumption.
        apply calculateSimilarity_unit.
        * unfold maxInt. lia.
        * specialize (Hvid (nth j videos []) (nth_In _ _ Hj)). unfold maxInt. lia.
      + intros j Hj. rewrite !nth_map_scores, Hone by lia.
        apply calculateSimilarity_lt_one.
        * intros E. apply (Hbefore j Hj). now symmetry.
        * assumption.
        * apply Hvid, nth_In. lia.
    - now rewrite nth_map_scores, Hone. }
  split; [exact Hfind|].
  intros dir options. unfold accepted. rewrite Hfind. cbn [snd].
  apply (New_threshold dir options).
Qed.

End ExactMatch.

Lemma findBestMatch_exact_match_witness :
  @findBestMatch caselessUnicode (gs "dir/A_b.srt") [gs "dir/ab.mkv"; gs "dir/a b [x1].mkv"]
  = (gs "dir/a b [x1].mkv", f64_one).
Proof.
  refine (proj1 (@findBestMatch_exact_match caselessUnicode (gs "dir/A_b.srt")
                   [gs "dir/ab.mkv"; gs "dir/a b [x1].mkv"] 1 _ _ _ _ _)).
  - cbn. lia.
  - reflexivity.
  - intros j Hj. assert (j = 0)%nat as -> by lia. vm_compute. discriminate.
  - vm_compute. discriminate.
  - intros v [<-|[<-|[]]]; vm_compute; discriminate.
Defined.

(** * The shape of a normalised title *)

Lemma lowerASCII_fixed_not_upper c : lowerASCII c = c -> byteIn 65 90 c = false.
Proof.
  destruct c as [[] [] [] [] [] [] [] []]; vm_compute; congruence.
Qed.

Lemma map_fixed_In {A} (f : A -> A) l x : map f l = l -> In x l -> f x = x.
Proof.
  induction l as [|y l IH]; cbn; intros Hm Hx; [contradiction|].
  injection Hm as Hy Hl. destruct Hx as [<-|Hx]; [assumption|now apply IH].
Qed.

Lemma collapsed_space s c :
  collapsed s = true -> In c s -> isReSpace c = true -> c = " "%char.
Proof.
  induction s as [|d s IH]; cbn; intros Hc Hin Hsp; [contradiction|].
  apply andb_true_iff in Hc. destruct Hc as [Hd Hc].
  destruct Hin as [->|Hin]; [|now apply IH].
  rewrite Hsp in Hd. apply andb_true_iff in Hd. destruct Hd as [Hd _].
  now apply Ascii.eqb_eq in Hd.
Qed.

Lemma collapsed_no_double_space a b :
  collapsed (a ++ " "%char :: " "%char :: b) = false.
Proof.
  induction a as [|d a IH]; [reflexivity|].
  cbn [app collapsed]. rewrite IH. apply andb_false_r.
Qed.

(** X9.  Of an ASCII title [normalizeTitle] leaves a string with no
    underscore and no upper-case letter, without ASCII white space (tab,
    newline, vertical tab, form feed, carriage return, space) at either end,
    without tab, newline, form feed or carriage return anywhere and without
    two spaces in a row, and which is not longer than the title.  A vertical
    tab inside the title is not of the class [\s] and stays: the title
    "a\v\vb" is its own normal form. *)
Theorem normalizeTitle_shape `{Unicode} (x : gostring) :
  forallb isASCII x = true ->
  NormalTitle (normalizeTitle x) /\
  (forall c, In c (normalizeTitle x) ->
             c <> "_"%char /\ byteIn 65 90 c = false /\ isASCII c = true) /\
  (length (normalizeTitle x) <= length x)%nat /\
  (forall c, In c (normalizeTitle x) -> isReSpace c = true -> c = " "%char) /\
  (forall a b, normalizeTitle x <> a ++ " "%char :: " "%char :: b) /\
  normalizeTitle ["a"; "011"; "011"; "b"]%char = ["a"; "011"; "011"; "b"]%char.
Proof.
  intros Hx. pose proof (normalizeTitle_normal x Hx) as HN.
  split; [exact HN|]. split; [|split; [|split; [|split]]].
  - destruct HN as (Hplain & _ & _ & _ & Hlow).
    intros c Hc. rewrite forallb_forall in Hplain. specialize (Hplain c Hc).
    unfold isPlain in Hplain. apply andb_true_iff in Hplain. destruct Hplain as [Ha Hu].
    repeat split.
    + intros ->. discriminate Hu.
    + apply lowerASCII_fixed_not_upper, (map_fixed_In _ _ _ Hlow Hc).
    + assumption.
  - pose proof (length_normalizeTitle_ascii x Hx) as H1.
    pose proof (length_replaceMatches matchTag [] x ltac:(cbn; lia) 0%nat) as H2.
    unfold removeTags in H1. lia.
  - destruct HN as (_ & _ & _ & Hcol & _). intros c. now apply collapsed_space.
  - destruct HN as (_ & _ & _ & Hcol & _). intros a b E. rewrite E in Hcol.
    now rewrite collapsed_no_double_space in Hcol.
  - reflexivity.
Qed.

Lemma normalizeTitle_shape_witness :
  @normalizeTitle caselessUnicode (gs "  My__Video_[abc-1]  Part_2 ")
  = gs "my video part 2" /\
  NormalTitle (@normalizeTitle caselessUnicode (gs "  My__Video_[abc-1]  Part_2 ")).
Proof.
  split; [reflexivity|].
  apply (@normalizeTitle_shape caselessUnicode (gs "  My__Video_[abc-1]  Part_2 ")).
  reflexivity.
Defined.

(** * The directory scan *)

Section Scan.
Context `{Unicode} `{FileSystem}.

Lemma fold_walkStep vsm entries :
  forall videoFiles subtitleFiles,
    fold_left (walkStep vsm) entries (videoFiles, subtitleFiles)
    = (videoFiles ++ filter (isVideoFile vsm) (regularFiles entries),
       subtitleFiles
       ++ filter (fun p => negb (isVideoFile vsm p) && isSubtitleFile vsm p)
                 (regularFiles entries)).
Proof.
  unfold regularFiles.
  induction entries as [|[path isDir] entries IH]; intros vs ss; cbn [fold_left].
  - cbn. now rewrite !app_nil_r.
  - destruct isDir.
    + cbn [walkStep filter snd negb]. apply IH.
    + assert (Hstep : walkStep vsm (vs, ss) (path, false)
                      = if isVideoFile vsm path then (vs ++ [path], ss)
                        else if isSubtitleFile vsm path then (vs, ss ++ [path])
                        else (vs, ss)) by reflexivity.
      rewrite Hstep. cbn [filter snd negb map fst].
      destruct (isVideoFile vsm path), (isSubtitleFile vsm path); cbn [negb andb];
        rewrite IH, <- ?app_assoc; reflexivity.
Qed.

Lemma fold_readDirStep vsm entries :
  forall videoFiles subtitleFiles,
    fold_left (readDirStep vsm) entries (videoFiles, subtitleFiles)
    = (videoFiles
       ++ map (fun name => filepath_Join [directory vsm; name])
              (filter (isVideoFile vsm) (regularFiles entries)),
       subtitleFiles
       ++ map (fun name => filepath_Join [directory vsm; name])
              (filter (isSubtitleFile vsm) (regularFiles entries))).
Proof.
  unfold regularFiles.
  induction entries as [|[name isDir] entries IH]; intros vs ss; cbn [fold_left].
  - cbn. now rewrite !app_nil_r.
  - destruct isDir.
    + cbn [readDirStep filter snd negb]. apply IH.
    + assert (Hstep : readDirStep vsm (vs, ss) (name, false)
                      = (if isVideoFile vsm name
                         then vs ++ [filepath_Join [directory vsm; name]] else vs,
                         if isSubtitleFile vsm name
                         then ss ++ [filepath_Join [directory vsm; name]] else ss))
        by reflexivity.
      rewrite Hstep. cbn [filter snd negb map fst].
      destruct (isVideoFile vsm name), (isSubtitleFile vsm name);
        rewrite IH; cbn [map]; rewrite <- ?app_assoc; reflexivity.
Qed.

(** X10.  The recursive scan lists, in the order of the walk, the regular
    files whose lower-cased extension is a video extension as videos and,
    of the others, those whose extension is a subtitle extension as
    subtitles; no path is listed as both, and the lists gathered before an
    error of the walk are returned with that error. *)
Theorem scanFiles_recursive (vsm : VideoSubtitleMatcher) (w : World) :
  recursive vsm = true ->
  scanFiles vsm w
  = (filter (isVideoFile vsm) (regularFiles (fst (filepath_Walk (directory vsm) w))),
     filter (fun p => negb (isVideoFile vsm p) && isSubtitleFile vsm p)
            (regularFiles (fst (filepath_Walk (directory vsm) w))),
     snd (filepath_Walk (directory vsm) w)) /\
  (forall p, In p (fst (fst (scanFiles vsm w))) -> In p (snd (fst (scanFiles vsm w))) -> False).
Proof.
  intros Hrec.
  assert (E : scanFiles vsm w
              = (filter (isVideoFile vsm) (regularFiles (fst (filepath_Walk (directory vsm) w))),
                 filter (fun p => negb (isVideoFile vsm p) && isSubtitleFile vsm p)
                        (regularFiles (fst (filepath_Walk (directory vsm) w))),
                 snd (filepath_Walk (directory vsm) w))).
  { unfold scanFiles. rewrite Hrec.
    destruct (filepath_Walk (directory vsm) w) as [entries err]. cbn [fst snd].
    now rewrite fold_walkStep. }
  split; [exact E|].
  rewrite E. cbn [fst snd]. intros p Hv Hs.
  apply filter_In in Hv, Hs. destruct Hv as [_ Hv], Hs as [_ Hs].
  rewrite Hv in Hs. discriminate.
Qed.

(** X11.  The flat scan returns no list with the error of [os.ReadDir];
    otherwise it lists each regular entry, joined to the directory, as a
    video when the lower-cased extension of its name is a video extension
    and, independently, as a subtitle when it is a subtitle extension: an
    extension in both lists puts the file in both results. *)
Theorem scanFiles_flat (vsm : VideoSubtitleMatcher) (w : World) :
  recursive vsm = false ->
  (forall err,
      os_ReadDir (directory vsm) w = inr err -> scanFiles vsm w = ([], [], Some err)) /\
  (forall entries,
      os_ReadDir (directory vsm) w = inl entries ->
      scanFiles vsm w
      = (map (fun name => filepath_Join [directory vsm; name])
             (filter (isVideoFile vsm) (regularFiles entries)),
         map (fun name => filepath_Join [directory vsm; name])
             (filter (isSubtitleFile vsm) (regularFiles entries)),
         None) /\
      (forall name,
          In name (regularFiles entries) ->
          isVideoFile vsm name = true -> isSubtitleFile vsm name = true ->
          In (filepath_Join [directory vsm; name]) (fst (fst (scanFiles vsm w))) /\
          In (filepath_Join [directory vsm; name]) (snd (fst (scanFiles vsm w))))).
Proof.
  intros Hrec. unfold scanFiles. rewrite Hrec. split.
  - now intros err ->.
  - intros entries ->.
    rewrite fold_readDirStep. cbn [app fst snd]. split; [reflexivity|].
    intros name Hin Hv Hs. split.
    + apply (in_map (fun name => filepath_Join [directory vsm; name])), filter_In. now split.
    + apply (in_map (fun name => filepath_Join [directory vsm; name])), filter_In. now split.
Qed.

End Scan.

Lemma scanFiles_recursive_witness :
  @scanFiles caselessUnicode memFS
             (New (gs "/v") [VideoExtensions [gs ".mkv"; gs ".srt"]])
             (memDisk [gs "/v/a.MKV"; gs "/v/a.srt"; gs "/v/b.ass"; gs "/v/c.txt"] false)
  = ([gs "/v/a.MKV"; gs "/v/a.srt"], [gs "/v/b.ass"], None).
Proof.
  apply (@scanFiles_recursive caselessUnicode memFS
           (New (gs "/v") [VideoExtensions [gs ".mkv"; gs ".srt"]])
           (memDisk [gs "/v/a.MKV"; gs "/v/a.srt"; gs "/v/b.ass"; gs "/v/c.txt"] false)).
  reflexivity.
Defined.

Lemma scanFiles_flat_witness :
  @scanFiles caselessUnicode memFS
             (New (gs "/v") [VideoExtensions [gs ".mkv"; gs ".srt"]; Recursive false])
             (memDisk [gs "a.MKV"; gs "a.srt"; gs "b.ass"; gs "c.txt"] false)
  = ([gs "/v/a.MKV"; gs "/v/a.srt"], [gs "/v/a.srt"; gs "/v/b.ass"], None).
Proof.
  destruct (@scanFiles_flat caselessUnicode memFS
              (New (gs "/v") [VideoExtensions [gs ".mkv"; gs ".srt"]; Recursive false])
              (memDisk [gs "a.MKV"; gs "a.srt"; gs "b.ass"; gs "c.txt"] false) eq_refl)
    as [_ Hflat].
  destruct (Hflat [(gs "a.MKV", false); (gs "a.srt", false); (gs "b.ass", false);
                   (gs "c.txt", false)] eq_refl) as [Hscan _].
  exact Hscan.
Defined.

(** * Options *)

Lemma last_cons_default {A} (l : list A) x d : last (x :: l) d = last l x.
Proof.
  revert x d. induction l as [|y l IH]; intros x d; [reflexivity|].
  change (last (x :: y :: l) d) with (last (y :: l) d). now rewrite !IH.
Qed.

Lemma fold_applyOption_last {A} (field : VideoSubtitleMatcher -> A)
      (pick : Option -> option A) :
  (forall vsm o,
      field (applyOption vsm o) = match pick o with Some x => x | None => field vsm end) ->
  forall options vsm,
    field (fold_left applyOption options vsm) = last (settings pick options) (field vsm).
Proof.
  intros Hstep. unfold settings.
  induction options as [|o options IH]; intros vsm; [reflexivity|].
  cbn [fold_left flat_map]. rewrite IH, Hstep.
  destruct (pick o) as [x|]; [|reflexivity].
  cbn [app]. now rewrite last_cons_default.
Qed.

Lemma fold_applyOption_directory options :
  forall vsm, directory (fold_left applyOption options vsm) = directory vsm.
Proof.
  induction options as [|o options IH]; intros vsm; [reflexivity|].
  cbn [fold_left]. rewrite IH. destruct o; try reflexivity. cbn. now destruct (_ && _).
Qed.

(** X12.  [New] applies the options in order, so every field of the matcher
    holds the value of the last option that sets it, and its default when no
    option does; for the threshold only the options with a value between 0.0
    and 1.0 count; the directory is the one given. *)
Theorem New_last_option_wins (dir : gostring) (options : list Option) :
  videoExtensions (New dir options)
  = last (settings videoExtensionsOf options)
         [gs ".mkv"; gs ".mp4"; gs ".avi"; gs ".mov"; gs ".webm"] /\
  subtitleExtensions (New dir options)
  = last (settings subtitleExtensionsOf options) [gs ".srt"; gs ".ass"; gs ".vtt"] /\
  directory (New dir options) = dir /\
  similarityThreshold (New dir options) = last (settings thresholdOf options) f64_0_6 /\
  recursive (New dir options) = last (settings recursiveOf options) true /\
  dryRun (New dir options) = last (settings dryRunOf options) true /\
  verbose (New dir options) = last (settings verboseOf options) true /\
  ignoreExisting (New dir options) = last (settings ignoreExistingOf options) false.
Proof.
  unfold New.
  repeat split.
  - apply (fold_applyOption_last videoExtensions videoExtensionsOf).
    intros vsm o. destruct o; try reflexivity. cbn. now destruct (_ && _).
  - apply (fold_applyOption_last subtitleExtensions subtitleExtensionsOf).
    intros vsm o. destruct o; try reflexivity. cbn. now destruct (_ && _).
  - now rewrite fold_applyOption_directory.
  - apply (fold_applyOption_last similarityThreshold thresholdOf).
    intros vsm o. destruct o; try reflexivity. cbn. unfold validThreshold.
    now destruct (_ && _).
  - apply (fold_applyOption_last recursive recursiveOf).
    intros vsm o. destruct o; try reflexivity. cbn. now destruct (_ && _).
  - apply (fold_applyOption_last dryRun dryRunOf).
    intros vsm o. destruct o; try reflexivity. cbn. now destruct (_ && _).
  - apply (fold_applyOption_last verbose verboseOf).
    intros vsm o. destruct o; try reflexivity. cbn. now destruct (_ && _).
  - apply (fold_applyOption_last ignoreExisting ignoreExistingOf).
    intros vsm o. destruct o; try reflexivity. cbn. now destruct (_ && _).
Qed.

(** * Further properties of [Match] *)

Section MatchMore.
Context `{Unicode} `{FileSystem}.

Lemma findBestMatch_bestOf sub videos : bestOf sub videos (findBestMatch sub videos).
Proof.
  apply (fold_bestStep_bestOf sub videos [] ([], f64_zero)).
  split; [intros v []|left; now split].
Qed.

Lemma suppressed_not_toRename vsm videos s :
  suppressed vsm videos s = true -> toRename vsm videos s = false.
Proof.
  unfold suppressed, toRename. intros Hs.
  apply andb_true_iff in Hs as [_ ->]. apply andb_false_r.
Qed.

Lemma toRename_same vsm videos s : s = targetPath videos s -> toRename vsm videos s = false.
Proof.
  intros He. unfold toRename.
  destruct (string_eqb_spec s (targetPath videos s)); [apply andb_false_r|contradiction].
Qed.

Lemma toRename_true vsm videos s :
  accepted vsm videos s = true -> s <> targetPath videos s -> toRename vsm videos s = true.
Proof.
  intros Ha Hne. unfold toRename. now rewrite Ha, (string_eqb_neq _ _ Hne).
Qed.

Lemma toRename_rejected vsm videos s :
  accepted vsm videos s = false -> toRename vsm videos s = false.
Proof. intros Ha. unfold toRename. now rewrite Ha. Qed.

Lemma replay_app calls1 calls2 w :
  replay (calls1 ++ calls2) w = replay calls2 (replay calls1 w).
Proof. unfold replay. apply fold_left_app. Qed.

(** The calls issued and the file system left by the loop, dry-run off. *)
Lemma Match_loop_renames vsm videos subs :
  dryRun vsm = false ->
  forall st,
    renames (fold_left (matchStep vsm videos) subs st)
    = renames st
      ++ map (fun s => (s, targetPath videos s)) (filter (toRename vsm videos) subs) /\
    world (fold_left (matchStep vsm videos) subs st)
    = replay (map (fun s => (s, targetPath videos s)) (filter (toRename vsm videos) subs))
             (world st).
Proof.
  intros Hd. induction subs as [|s subs IH]; intros st; cbn [fold_left filter].
  - cbn. now rewrite app_nil_r.
  - destruct (IH (matchStep vsm videos st s)) as [IHr IHw]. rewrite IHr, IHw.
    destruct (suppressed vsm videos s) eqn:Hs.
    { rewrite (suppressed_not_toRename _ _ _ Hs), matchStep_suppressed by assumption.
      now split. }
    destruct (accepted vsm videos s) eqn:Ha.
    + destruct (string_eqb_spec s (targetPath videos s)) as [He|Hne].
      * rewrite (toRename_same _ _ _ He), matchStep_same_name by assumption. now split.
      * rewrite (toRename_true _ _ _ Ha Hne), matchStep_rename by assumption.
        cbn [renames world map]. rewrite <- app_assoc. split; reflexivity.
    + rewrite (toRename_rejected _ _ _ Ha), matchStep_rejected by assumption. now split.
Qed.

Lemma consistent_more_calls vsm videos calls call r :
  consistent vsm videos calls r -> consistent vsm videos (calls ++ [call]) r.
Proof.
  intros (Hren & Herr & Hacc). split; [|split].
  - intros Hr. destruct (Hren Hr) as (H1 & H2 & H3 & H4).
    repeat split; try assumption.
    destruct H4 as [H4|H4]; [now left|right; apply in_or_app; now left].
  - intros He. destruct (Herr He) as (H1 & H2 & H3 & H4 & H5).
    repeat split; try assumption. apply in_or_app; now left.
  - assumption.
Qed.

Lemma matchStep_consistent vsm videos st s :
  Forall (consistent vsm videos (renames st)) (results st) ->
  Forall (consistent vsm videos (renames (matchStep vsm videos st s)))
         (results (matchStep vsm videos st s)).
Proof.
  intros Hall.
  destruct (suppressed vsm videos s) eqn:Hs.
  { now rewrite matchStep_suppressed. }
  destruct (accepted vsm videos s) eqn:Ha.
  - destruct (dryRun vsm) eqn:Hd.
    + rewrite matchStep_dry by assumption. cbn [results renames].
      apply Forall_app. split; [assumption|]. constructor; [|constructor].
      unfold consistent. cbn [Renamed Error SubtitlePath NewSubtitlePath].
      rewrite Hd. repeat split; congruence.
    + destruct (string_eqb_spec s (targetPath videos s)) as [He|Hne].
      * rewrite matchStep_same_name by assumption. cbn [results renames].
        apply Forall_app. split; [assumption|]. constructor; [|constructor].
        unfold consistent. cbn [Renamed Error SubtitlePath NewSubtitlePath].
        rewrite Ha, Hd. repeat split; try congruence; auto.
      * rewrite matchStep_rename by assumption. cbn [results renames].
        apply Forall_app. split.
        -- eapply Forall_impl; [|exact Hall].
           intros r. apply consistent_more_calls.
        -- constructor; [|constructor].
           unfold consistent. cbn [Renamed Error SubtitlePath NewSubtitlePath].
           rewrite Ha, Hd.
           assert (Hin : In (s, targetPath videos s) (renames st ++ [(s, targetPath videos s)]))
             by (apply in_or_app; right; now left).
           destruct (fst (os_Rename s (targetPath videos s) (world st))) as [e|].
           ++ split; [discriminate|]. split; [now repeat split|].
              intros _ _. right. discriminate.
           ++ split; [intros _; repeat split; now right|].
              split; [intros Hne'; now elim Hne'|].
              intros _ _. now left.
  - rewrite matchStep_rejected by assumption. cbn [results renames].
    apply Forall_app. split; [assumption|]. constructor; [|constructor].
    unfold consistent. cbn [Renamed Error SubtitlePath NewSubtitlePath].
    rewrite Ha. repeat split; congruence.
Qed.

(** With dry-run on [Match] leaves the file system alone. *)
Lemma Match_dry_frame vsm w :
  dryRun vsm = true -> snd (fst (Match vsm w)) = w /\ snd (Match vsm w) = [].
Proof.
  intros Hd. destruct (scanFiles vsm w) as [[videos subs] [err|]] eqn:Hscan.
  - rewrite (Match_scan_failed _ _ _ _ _ Hscan). cbn. auto.
  - rewrite (Match_scanned _ _ _ _ Hscan). cbn [fst snd].
    apply (fold_left_invariant (matchStep vsm videos)
             (fun st => world st = w /\ renames st = [])).
    + now split.
    + intros st s _ [Hw Hr].
      destruct (matchStep_dry_frame vsm videos st s Hd) as [-> ->]. now split.
Qed.

(** X13.  [Match] fails exactly when the scan does: in recursive mode when
    the walk of the directory ends with an error, whatever it has listed by
    then, in flat mode when [os.ReadDir] fails.  It then returns no result
    and the error wrapped in "failed to scan files", issues no [os.Rename]
    and leaves the file system as it is. *)
Theorem Match_scan_error (vsm : VideoSubtitleMatcher) (w : World) :
  snd (fst (fst (Match vsm w)))
  = (if recursive vsm
     then option_map ScanFailed (snd (filepath_Walk (directory vsm) w))
     else match os_ReadDir (directory vsm) w with
          | inr err => Some (ScanFailed err)
          | inl _ => None
          end) /\
  (snd (fst (fst (Match vsm w))) <> None ->
   fst (fst (fst (Match vsm w))) = [] /\ snd (fst (Match vsm w)) = w /\ snd (Match vsm w) = []).
Proof.
  split.
  - unfold Match, scanFiles. destruct (recursive vsm).
    + destruct (filepath_Walk (directory vsm) w) as [entries [err|]];
        destruct (fold_left (walkStep vsm) entries ([], [])) as [vs ss]; reflexivity.
    + destruct (os_ReadDir (directory vsm) w) as [entries|err]; [|reflexivity].
      destruct (fold_left (readDirStep vsm) entries ([], [])) as [vs ss]. reflexivity.
  - destruct (scanFiles vsm w) as [[videos subs] [e|]] eqn:Hscan.
    + rewrite (Match_scan_failed _ _ _ _ _ Hscan). now intros _.
    + rewrite (Match_scanned _ _ _ _ Hscan). cbn [fst snd]. intros Hne. now elim Hne.
Qed.

(** X14.  With dry-run off, the calls of [os.Rename] that [Match] issues are
    exactly, in scan order, one call from each subtitle that is accepted and
    does not carry its new name yet to that new name; the file system it
    leaves is the one those calls leave, failed calls included. *)
Theorem Match_renames_exact (vsm : VideoSubtitleMatcher) (w : World)
        (videos subs : list gostring) :
  dryRun vsm = false ->
  scanFiles vsm w = (videos, subs, None) ->
  snd (Match vsm w)
  = map (fun s => (s, targetPath videos s)) (filter (toRename vsm videos) subs) /\
  snd (fst (Match vsm w)) = replay (snd (Match vsm w)) w.
Proof.
  intros Hd Hscan. rewrite (Match_scanned _ _ _ _ Hscan). cbn [fst snd].
  destruct (Match_loop_renames vsm videos subs Hd (initialState w)) as [Hr Hw].
  rewrite Hr, Hw. cbn [initialState renames world app]. now split.
Qed.

Lemma Match_consistent vsm w :
  Forall (consistent vsm (fst (fst (scanFiles vsm w))) (snd (Match vsm w)))
         (fst (fst (fst (Match vsm w)))).
Proof.
  destruct (scanFiles vsm w) as [[videos subs] [err|]] eqn:Hscan.
  - rewrite (Match_scan_failed _ _ _ _ _ Hscan). constructor.
  - rewrite (Match_scanned _ _ _ _ Hscan). cbn [fst snd].
    apply (fold_left_invariant (matchStep vsm videos)
             (fun st => Forall (consistent vsm videos (renames st)) (results st))).
    + constructor.
    + intros st s _. apply matchStep_consistent.
Qed.

(** X15.  In every result of [Match], [Renamed] set means no error, dry-run
    off, an accepted subtitle that either carried its new name already or
    was the subject of a call of [os.Rename]; an error means [Renamed]
    unset and a call of [os.Rename] for that subtitle; and with dry-run off
    an accepted subtitle has [Renamed] set or an error. *)
Theorem Match_result_flags (vsm : VideoSubtitleMatcher) (w : World) :
  Forall (consistent vsm (fst (fst (scanFiles vsm w))) (snd (Match vsm w)))
         (fst (fst (fst (Match vsm w)))).
Proof. apply Match_consistent. Qed.

(** X16.  A result of [Match] has an empty [NewSubtitlePath] exactly when
    its score is below the threshold; its [VideoPath] is empty or one of the
    scanned videos, and its [SubtitlePath] is one of the scanned subtitles. *)
Theorem Match_result_paths (vsm : VideoSubtitleMatcher) (w : World) :
  Forall (fun r =>
            (NewSubtitlePath r = [] <->
             f64_ge (Similarity r) (similarityThreshold vsm) = false) /\
            (VideoPath r = [] \/ In (VideoPath r) (fst (fst (scanFiles vsm w)))) /\
            In (SubtitlePath r) (snd (fst (scanFiles vsm w))))
         (fst (fst (fst (Match vsm w)))).
Proof.
  destruct (scanFiles vsm w) as [[videos subs] [err|]] eqn:Hscan.
  - rewrite (Match_scan_failed _ _ _ _ _ Hscan). constructor.
  - destruct (Match_results_describe vsm w videos subs Hscan) as [Hmap Hall].
    cbn [fst snd]. apply Forall_forall. intros r Hr.
    rewrite Forall_forall in Hall. destruct (Hall r Hr) as (Hv & Hsim & Hnew & _).
    split; [|split].
    + rewrite Hnew, Hsim. unfold accepted.
      destruct (f64_ge _ _).
      * split; [|discriminate]. intros E. now apply newSubtitlePathFor_nonempty in E.
      * now split.
    + rewrite Hv. destruct (findBestMatch_bestOf (SubtitlePath r) videos)
        as [_ [[-> _]|(Hin & _)]]; [now left|now right].
    + apply (in_map SubtitlePath) in Hr. rewrite Hmap in Hr.
      now apply filter_In in Hr.
Qed.

(** X17.  [Match] returns at most one result for each scanned subtitle, and
    with [ignoreExisting] off exactly one, in scan order. *)
Theorem Match_one_result_per_subtitle (vsm : VideoSubtitleMatcher) (w : World)
        (videos subs : list gostring) :
  scanFiles vsm w = (videos, subs, None) ->
  (length (fst (fst (fst (Match vsm w)))) <= length subs)%nat /\
  (ignoreExisting vsm = false -> map SubtitlePath (fst (fst (fst (Match vsm w)))) = subs).
Proof.
  intros Hscan. destruct (Match_results_describe vsm w videos subs Hscan) as [Hmap _].
  split.
  - rewrite <- (length_map SubtitlePath), Hmap. apply filter_length_le.
  - intros Hi. rewrite Hmap. apply forallb_filter_id, forallb_forall.
    intros s _. unfold suppressed. now rewrite Hi.
Qed.

End MatchMore.

(** * The example program *)

Lemma existsb_In_flag (osArgs : list gostring) :
  existsb (fun arg => string_eqb arg (gs "-execute") || string_eqb arg (gs "--execute")) osArgs
  = true
  <-> In (gs "-execute") osArgs \/ In (gs "--execute") osArgs.
Proof.
  rewrite existsb_exists. split.
  - intros (arg & Hin & Harg). apply orb_true_iff in Harg.
    destruct Harg as [Harg|Harg]; [left|right].
    + destruct (string_eqb_spec arg (gs "-execute")); congruence.
    + destruct (string_eqb_spec arg (gs "--execute")); congruence.
  - intros [Hin|Hin]; eexists; (split; [exact Hin|]); reflexivity.
Qed.

Lemma Directory_second prog dir (rest : list gostring) :
  (if Z.of_nat (length (prog :: dir :: rest)) <? 2 then gs "." else nth 1 (prog :: dir :: rest) [])
  = dir.
Proof.
  destruct (Z.ltb_spec (Z.of_nat (length (prog :: dir :: rest))) 2) as [Hlt|_]; [|reflexivity].
  cbn [length] in Hlt. lia.
Qed.

(** X18.  [parseArgs] sets execute mode exactly when some element of
    [os.Args], the program name included, is "-execute" or "--execute"; the
    directory is "." when no argument is given and otherwise the first
    argument, also when that argument is the flag itself. *)
Theorem parseArgs_spec (osArgs : list gostring) :
  (ExecuteMode (parseArgs osArgs) = true
   <-> In (gs "-execute") osArgs \/ In (gs "--execute") osArgs) /\
  ((length osArgs < 2)%nat -> Directory (parseArgs osArgs) = gs ".") /\
  (forall prog dir rest,
      osArgs = prog :: dir :: rest -> Directory (parseArgs osArgs) = dir) /\
  (forall prog rest,
      parseArgs (prog :: gs "-execute" :: rest)
      = {| Directory := gs "-execute"; ExecuteMode := true |}).
Proof.
  split; [|split; [|split]].
  - apply existsb_In_flag.
  - intros Hlen. unfold parseArgs. cbn [Directory].
    destruct (Z.ltb_spec (Z.of_nat (length osArgs)) 2); [reflexivity|lia].
  - intros prog dir rest ->. apply Directory_second.
  - intros prog rest. unfold parseArgs. f_equal.
    + apply Directory_second.
    + cbn [existsb]. destruct (string_eqb prog _ || string_eqb prog _); reflexivity.
Qed.

(** ** File names *)

Lemma LastIndexByte_split (s : gostring) (c : ascii) :
  (LastIndexByte s c = -1 /\ ~ In c s) \/
  (exists d n, s = d ++ c :: n /\ ~ In c n /\ LastIndexByte s c = len d).
Proof.
  induction s as [|x s IH]; [left; split; [reflexivity|intros []]|].
  cbn [LastIndexByte].
  destruct IH as [[Hr Hnot]|(d & n & -> & Hn & Hr)]; rewrite Hr.
  - change (-1 >=? 0) with false. cbv iota.
    destruct (Ascii.eqb_spec x c) as [->|Hne].
    + right. exists [], s. repeat split; auto.
    + left. split; [reflexivity|]. intros [E|Hin]; [congruence|contradiction].
  - assert (Hge : (len d >=? 0) = true) by (unfold len; apply Z.geb_le; lia).
    rewrite Hge. right. exists (x :: d), n. repeat split; [assumption|].
    unfold len. cbn [length]. lia.
Qed.

Lemma skipn_len_app (d n : gostring) c : skipn (Z.to_nat (len d + 1)) (d ++ c :: n) = n.
Proof.
  unfold len. replace (Z.to_nat (Z.of_nat (length d) + 1)) with (length d + 1)%nat by lia.
  rewrite skipn_app, skipn_all2 by lia.
  replace (length d + 1 - length d)%nat with 1%nat by lia. reflexivity.
Qed.

Lemma In_TrimSuffix (s suffix : gostring) c : In c (TrimSuffix s suffix) -> In c s.
Proof.
  unfold TrimSuffix. destruct (HasSuffix s suffix); [|auto].
  intros Hin. rewrite <- (firstn_skipn (length s - length suffix) s).
  apply in_or_app. now left.
Qed.

Lemma extractFileName_tail (d n : gostring) extension :
  ~ In "/"%char n -> extractFileName (d ++ "/"%char :: n) extension = TrimSuffix n extension.
Proof.
  intros Hn. unfold extractFileName.
  destruct (LastIndexByte_split (d ++ "/"%char :: n) "/"%char)
    as [[_ Hnot]|(d' & n' & Hs & Hn' & Hr)].
  - exfalso. apply Hnot, in_or_app. right. now left.
  - assert (Hd : d' = d /\ n' = n).
    { clear Hr. revert d' Hs. induction d as [|x d IH]; intros d' Hs.
      - destruct d' as [|y d']; cbn in Hs.
        + injection Hs as ->. now split.
        + injection Hs as <- ->. exfalso. apply Hn, in_or_app. right. now left.
      - destruct d' as [|y d']; cbn in Hs.
        + injection Hs as -> <-. exfalso. apply Hn', in_or_app. right. now left.
        + injection Hs as <- Hs. destruct (IH d' Hs) as [-> ->]. now split. }
    destruct Hd as [-> ->]. rewrite Hr.
    assert (Hne : (len d =? -1) = false) by (unfold len; apply Z.eqb_neq; lia).
    rewrite Hne. now rewrite skipn_len_app.
Qed.

(** X19.  [extractFileName] returns what follows the last "/" of the path,
    the whole path when there is none, without the extension when it ends
    with it; the result holds no "/". *)
Theorem extractFileName_spec (extension : gostring) :
  (forall d n, ~ In "/"%char n ->
               extractFileName (d ++ "/"%char :: n) extension = TrimSuffix n extension) /\
  (forall n, ~ In "/"%char n -> extractFileName n extension = TrimSuffix n extension) /\
  (forall fullPath, ~ In "/"%char (extractFileName fullPath extension)).
Proof.
  split; [|split].
  - intros d n. apply extractFileName_tail.
  - intros n Hn. unfold extractFileName.
    destruct (LastIndexByte_split n "/"%char) as [[-> _]|(d' & n' & -> & _ & _)].
    + reflexivity.
    + exfalso. apply Hn, in_or_app. right. now left.
  - intros fullPath Hin.
    destruct (LastIndexByte_split fullPath "/"%char) as [[Hr Hnot]|(d & n & -> & Hn & _)].
    + unfold extractFileName in Hin. rewrite Hr in Hin. cbn in Hin.
      now apply In_TrimSuffix in Hin.
    + rewrite extractFileName_tail in Hin by assumption.
      now apply In_TrimSuffix in Hin.
Qed.

Lemma filter_none {A} (f : A -> bool) l :
  (forall x, In x l -> f x = false) -> filter f l = [].
Proof.
  induction l as [|x l IH]; intros Hf; [reflexivity|].
  cbn [filter]. rewrite (Hf x) by now left.
  apply IH. intros y Hy. apply Hf. now right.
Qed.

Section CommandProps.
Context `{Unicode} `{FileSystem}.
Variable errorText : OSError -> gostring.
Variable statNotExist : gostring -> World -> bool.

(** ** Counting *)

Lemma fold_count (p : MatchResult -> bool) results :
  forall n,
    fold_left (fun count result => if p result then count + 1 else count) results n
    = n + Z.of_nat (length (filter p results)).
Proof.
  induction results as [|r results IH]; intros n; cbn [fold_left filter].
  - cbn. lia.
  - rewrite IH. destruct (p r); cbn [length]; lia.
Qed.

(** X20.  On the results of [Match], [countSuccessfulRenames] counts the
    results with [Renamed] set, the test of [Error] changing nothing; the
    count is at most the number of results, and 0 after a dry run. *)
Theorem countSuccessfulRenames_Match (vsm : VideoSubtitleMatcher) (w : World) :
  countSuccessfulRenames (fst (fst (fst (Match vsm w))))
  = Z.of_nat (length (filter Renamed (fst (fst (fst (Match vsm w)))))) /\
  0 <= countSuccessfulRenames (fst (fst (fst (Match vsm w))))
    <= Z.of_nat (length (fst (fst (fst (Match vsm w))))) /\
  (dryRun vsm = true -> countSuccessfulRenames (fst (fst (fst (Match vsm w)))) = 0).
Proof.
  pose proof (Match_consistent vsm w) as Hall.
  set (R := fst (fst (fst (Match vsm w)))) in *.
  assert (Hcount : countSuccessfulRenames R = Z.of_nat (length (filter Renamed R))).
  { unfold countSuccessfulRenames.
    rewrite (fold_count
               (fun r => Renamed r && match Error r with None => true | Some _ => false end)).
    cbn. do 2 f_equal. apply filter_ext_in. intros r Hr.
    rewrite Forall_forall in Hall. destruct (Hall r Hr) as (Hren & _).
    destruct (Renamed r); [|reflexivity].
    destruct (Hren eq_refl) as (-> & _). reflexivity. }
  split; [exact Hcount|]. split.
  - rewrite Hcount. pose proof (filter_length_le Renamed R). lia.
  - intros Hd. rewrite Hcount.
    rewrite filter_none; [reflexivity|].
    intros r Hr. rewrite Forall_forall in Hall. destruct (Hall r Hr) as (Hren & _).
    destruct (Renamed r); [|reflexivity].
    destruct (Hren eq_refl) as (_ & Hd' & _). congruence.
Qed.

End CommandProps.

(** * The two versions of the program *)

Lemma fold_left_ext_in {A B : Type} (f g : A -> B -> A) l :
  (forall a x, In x l -> f a x = g a x) -> forall a, fold_left f l a = fold_left g l a.
Proof.
  induction l as [|x l IH]; intros Hfg a; [reflexivity|].
  cbn [fold_left]. rewrite (Hfg a x) by now left.
  apply IH. intros a' y Hy. apply Hfg. now right.
Qed.

Lemma extractFileName_shortName path :
  extractFileName path (gs ".srt") = MainGo.shortName path.
Proof.
  unfold extractFileName, MainGo.shortName.
  destruct (Z.eqb_spec (LastIndexByte path "/"%char) (-1)) as [->|_]; reflexivity.
Qed.

Section Programs.
Context `{Unicode} `{FileSystem}.
Variable errorText : OSError -> gostring.
Variable statNotExist : gostring -> World -> bool.

Lemma Match_error_walk vsm w :
  recursive vsm = true ->
  snd (fst (fst (Match vsm w)))
  = option_map ScanFailed (snd (filepath_Walk (directory vsm) w)).
Proof.
  intros Hrec. unfold Match, scanFiles. rewrite Hrec.
  destruct (filepath_Walk (directory vsm) w) as [entries [err|]];
    destruct (fold_left (walkStep vsm) entries ([], [])) as [vs ss]; reflexivity.
Qed.

Lemma Match_failed_walk vsm w err :
  recursive vsm = true ->
  snd (filepath_Walk (directory vsm) w) = Some err ->
  Match vsm w = (([], Some (ScanFailed err)), w, []).
Proof.
  intros Hrec Hwalk. unfold Match, scanFiles. rewrite Hrec.
  destruct (filepath_Walk (directory vsm) w) as [entries e]. cbn [snd] in Hwalk.
  rewrite Hwalk. now destruct (fold_left (walkStep vsm) entries ([], [])) as [vs ss].
Qed.

(** The rows of the two versions agree on results that are renamed or
    carry an error whenever they are displayed in execute mode. *)
Lemma displayDetailedResults_detailedResults results executeMode :
  (forall r, In r results ->
             f64_ge (Similarity r) f64_0_7 = true -> executeMode = true ->
             Renamed r = true \/ Error r <> None) ->
  displayDetailedResults errorText results executeMode
  = MainGo.detailedResults errorText results executeMode.
Proof.
  intros Hres. unfold displayDetailedResults, MainGo.detailedResults.
  destruct results as [|r0 results]; [reflexivity|].
  replace (Z.of_nat (length (r0 :: results)) >? 0) with true
    by (symmetry; apply Z.gtb_lt; cbn [length]; lia).
  apply fold_left_ext_in. intros out r Hr.
  destruct (f64_ge (Similarity r) f64_0_7) eqn:Hsim; [|reflexivity].
  rewrite !extractFileName_shortName. do 2 f_equal.
  unfold determineStatus, MainGo.status.
  destruct executeMode; [|reflexivity]. cbn [negb].
  specialize (Hres r Hr Hsim eq_refl).
  destruct (Renamed r), (Error r) as [e|]; try reflexivity.
  destruct Hres as [Hres|Hres]; [discriminate|now elim Hres].
Qed.

Lemma matcher3_results directory executeMode w r :
  In r (fst (fst (fst (Match (matcher3 directory executeMode) w)))) ->
  f64_ge (Similarity r) f64_0_7 = true -> executeMode = true ->
  Renamed r = true \/ Error r <> None.
Proof.
  intros Hr Hsim ->.
  pose proof (Match_consistent (matcher3 directory true) w) as Hall.
  rewrite Forall_forall in Hall. destruct (Hall r Hr) as (_ & _ & Hacc).
  destruct (scanFiles (matcher3 directory true) w) as [[videos subs] [err|]] eqn:Hscan.
  - rewrite (Match_scan_failed _ _ _ _ _ Hscan) in Hr. destruct Hr.
  - destruct (Match_results_describe _ w videos subs Hscan) as [_ Hdesc].
    rewrite Forall_forall in Hdesc. destruct (Hdesc r Hr) as (_ & Hs & _).
    cbn [fst] in Hacc. apply Hacc; [|reflexivity].
    unfold accepted. rewrite <- Hs. exact Hsim.
Qed.

Lemma runBasicExample_frame directory w :
  snd (fst (runBasicExample directory w)) = w /\ snd (runBasicExample directory w) = [].
Proof.
  unfold runBasicExample.
  pose proof (Match_dry_frame (matcher1 directory) w eq_refl) as [Hw Hc].
  destruct (Match _ w) as [[[results [err|]] w'] calls]; cbn in *; now split.
Qed.

Lemma runHighThresholdExample_frame directory w :
  snd (fst (runHighThresholdExample directory false w)) = w /\
  snd (runHighThresholdExample directory false w) = [].
Proof.
  unfold runHighThresholdExample.
  pose proof (Match_dry_frame (matcher2 directory false) w eq_refl) as [Hw Hc].
  destruct (Match _ w) as [[[results [err|]] w'] calls]; cbn in *; now split.
Qed.

Lemma runCustomConfigExample_frame directory w :
  snd (fst (runCustomConfigExample errorText directory false w)) = w /\
  snd (runCustomConfigExample errorText directory false w) = [].
Proof.
  unfold runCustomConfigExample.
  pose proof (Match_dry_frame (matcher3 directory false) w eq_refl) as [Hw Hc].
  destruct (Match _ w) as [[[results [err|]] w'] calls]; cbn in *; now split.
Qed.

(** X21.  The rows [runCustomConfigExample] displays never carry the status
    "NO CHANGE": in execute mode each displayed result is renamed or has an
    error, since its score reaches the threshold 0.7 of the matcher. *)
Theorem runCustomConfigExample_no_change (directory : gostring) (executeMode : bool)
        (w : World) :
  Forall (fun row : Row => snd row <> gs "NO CHANGE")
         (snd (fst (fst (runCustomConfigExample errorText directory executeMode w)))).
Proof.
  unfold runCustomConfigExample.
  pose proof (matcher3_results directory executeMode w) as Hres.
  destruct (Match _ w) as [[[results [err|]] w'] calls]; cbn [fst snd] in *; [constructor|].
  unfold displayDetailedResults. destruct results as [|r0 results]; [constructor|].
  set (R := r0 :: results) in *. clearbody R.
  apply (fold_left_invariant
           (fun out result =>
              if f64_ge (Similarity result) f64_0_7
              then out ++ [(extractFileName (SubtitlePath result) (gs ".srt"),
                            Similarity result,
                            extractFileName (NewSubtitlePath result) (gs ".srt"),
                            determineStatus errorText result executeMode)]
              else out)
           (Forall (fun row : Row => snd row <> gs "NO CHANGE"))).
  - constructor.
  - intros out r Hr Hout.
    destruct (f64_ge (Similarity r) f64_0_7) eqn:Hsim; [|assumption].
    apply Forall_app. split; [assumption|]. constructor; [|constructor].
    cbn [snd]. unfold determineStatus.
    destruct executeMode; cbn [negb]; [|discriminate].
    specialize (Hres r Hr Hsim eq_refl).
    destruct (Renamed r), (Error r) as [e|]; cbn [andb]; try discriminate.
    destruct Hres as [Hres|Hres]; [discriminate|now elim Hres].
Qed.

(** X22.  When no argument is "-execute" or "--execute", a run of either
    version of the program issues no [os.Rename] and leaves the file system
    as it is. *)
Theorem main_dry_run_safe (osArgs : list gostring) (w : World) :
  ExecuteMode (parseArgs osArgs) = false ->
  (renameCalls (main errorText statNotExist osArgs w) = [] /\
   finalWorld (main errorText statNotExist osArgs w) = w) /\
  (renameCalls (MainGo.main errorText statNotExist osArgs w) = [] /\
   finalWorld (MainGo.main errorText statNotExist osArgs w) = w).
Proof.
  intros Hdry. split.
  - unfold main, validateDirectory. rewrite Hdry.
    destruct (statNotExist _ w); [now split|].
    set (dir := Directory (parseArgs osArgs)).
    destruct (runBasicExample_frame dir w) as [Hw1 Hc1].
    destruct (runBasicExample dir w) as [[[e1|] w1] c1]; cbn [fst snd] in *; subst w1 c1;
      [now split|].
    destruct (runHighThresholdExample_frame dir w) as [Hw2 Hc2].
    destruct (runHighThresholdExample dir false w) as [[[e2|] w2] c2]; cbn [fst snd] in *;
      subst w2 c2; [now split|].
    destruct (runCustomConfigExample_frame dir w) as [Hw3 Hc3].
    destruct (runCustomConfigExample errorText dir false w) as [[[[e3|] out] w3] c3];
      cbn [fst snd] in *; subst w3 c3; now split.
  - unfold MainGo.main. unfold parseArgs in Hdry. cbn [ExecuteMode] in Hdry. rewrite Hdry.
    destruct (statNotExist _ w); [now split|].
    set (dir := if Z.of_nat (length osArgs) <? 2 then gs "." else nth 1 osArgs []).
    destruct (Match_dry_frame (matcher1 dir) w eq_refl) as [Hw1 Hc1].
    destruct (Match (matcher1 dir) w) as [[r1 w1] c1]; cbn [fst snd] in *; subst w1 c1.
    destruct (Match_dry_frame (matcher2 dir false) w eq_refl) as [Hw2 Hc2].
    destruct (Match (matcher2 dir false) w) as [[r2 w2] c2]; cbn [fst snd] in *; subst w2 c2.
    destruct (Match_dry_frame (matcher3 dir false) w eq_refl) as [Hw3 Hc3].
    destruct (Match (matcher3 dir false) w) as [[[r3 [e3|]] w3] c3]; cbn [fst snd] in *;
      subst w3 c3; now split.
Qed.

(** X23.  The refactored program and [main.go] behave alike on every
    argument list and file system: same exit code, same rows of detailed
    results, same calls of [os.Rename], same file system left.  A failed
    scan in example 1 or 2, which only the refactored program exits on,
    fails example 3 as well, and the status "NO CHANGE", which only the
    refactored program has, is never displayed. *)
Theorem main_refactoring_equivalent (osArgs : list gostring) (w : World) :
  main errorText statNotExist osArgs w = MainGo.main errorText statNotExist osArgs w.
Proof.
  unfold main, MainGo.main, validateDirectory, parseArgs. cbn [Directory ExecuteMode].
  set (dir := if Z.of_nat (length osArgs) <? 2 then gs "." else nth 1 osArgs []).
  set (e := existsb _ osArgs).
  destruct (statNotExist dir w); [reflexivity|].
  unfold runBasicExample, runHighThresholdExample, runCustomConfigExample.
  destruct (snd (filepath_Walk dir w)) as [err|] eqn:Hwalk.
  - rewrite (Match_failed_walk (matcher1 dir) w err eq_refl Hwalk).
    rewrite (Match_failed_walk (matcher2 dir e) w err eq_refl Hwalk).
    rewrite (Match_failed_walk (matcher3 dir e) w err eq_refl Hwalk).
    reflexivity.
  - pose proof (Match_error_walk (matcher1 dir) w eq_refl) as He1.
    pose proof (Match_error_walk (matcher2 dir e) w eq_refl) as He2.
    change (directory (matcher1 dir)) with dir in He1.
    change (directory (matcher2 dir e)) with dir in He2.
    rewrite Hwalk in He1, He2. cbn [option_map] in He1, He2.
    destruct (Match_dry_frame (matcher1 dir) w eq_refl) as [Hw1 Hc1].
    destruct (Match (matcher1 dir) w) as [[[r1 e1] w1] c1]. cbn [fst snd] in *.
    subst e1 w1 c1.
    destruct (Match (matcher2 dir e) w) as [[[r2 e2] w2] c2]. cbn [fst snd] in *.
    subst e2.
    pose proof (matcher3_results dir e w2) as Hres.
    destruct (Match (matcher3 dir e) w2) as [[[r3 [e3|]] w3] c3]; cbn [fst snd] in *.
    + reflexivity.
    + now rewrite (displayDetailedResults_detailedResults r3 e Hres).
Qed.

(** X24.  A run exits with code 1 exactly when the directory does not
    exist, or its walk fails, or its walk after the renames of example 2
    fails; otherwise with code 0. *)
Theorem main_exit_code (osArgs : list gostring) (w : World) :
  exitCode (main errorText statNotExist osArgs w)
  = (if statNotExist (Directory (parseArgs osArgs)) w then 1
     else match snd (filepath_Walk (Directory (parseArgs osArgs)) w) with
          | Some _ => 1
          | None =>
              match snd (filepath_Walk
                           (Directory (parseArgs osArgs))
                           (snd (fst (Match (matcher2 (Directory (parseArgs osArgs))
                                                      (ExecuteMode (parseArgs osArgs))) w))))
              with
              | Some _ => 1
              | None => 0
              end
          end).
Proof.
  unfold main, validateDirectory.
  set (dir := Directory (parseArgs osArgs)). set (e := ExecuteMode (parseArgs osArgs)).
  destruct (statNotExist dir w); [reflexivity|].
  unfold runBasicExample, runHighThresholdExample, runCustomConfigExample.
  pose proof (Match_error_walk (matcher1 dir) w eq_refl) as He1.
  pose proof (Match_error_walk (matcher2 dir e) w eq_refl) as He2.
  change (directory (matcher1 dir)) with dir in He1.
  change (directory (matcher2 dir e)) with dir in He2.
  destruct (Match_dry_frame (matcher1 dir) w eq_refl) as [Hw1 Hc1].
  destruct (Match (matcher1 dir) w) as [[[r1 e1] w1] c1]. cbn [fst snd] in *.
  subst e1 w1 c1.
  destruct (snd (filepath_Walk dir w)) as [err|]; cbn [option_map]; [reflexivity|].
  destruct (Match (matcher2 dir e) w) as [[[r2 e2] w2] c2]. cbn [fst snd] in *.
  subst e2. cbn [option_map].
  pose proof (Match_error_walk (matcher3 dir e) w2 eq_refl) as He3.
  change (directory (matcher3 dir e)) with dir in He3.
  destruct (Match (matcher3 dir e) w2) as [[[r3 e3] w3] c3]. cbn [fst snd] in *.
  subst e3. now destruct (snd (filepath_Walk dir w2)).
Qed.

End Programs.

(** * The new name of a subtitle *)

Lemma isPathSeparator_false c : c <> "/"%char -> isPathSeparator c = false.
Proof. intros Hc. unfold isPathSeparator. now apply Ascii.eqb_neq. Qed.

Lemma extScan_shape r :
  forall acc,
    (forall c, In c acc -> c <> "/"%char /\ c <> "."%char) ->
    extScan r acc = [] \/
    exists e, extScan r acc = "."%char :: e /\
              (forall c, In c e -> c <> "/"%char /\ c <> "."%char).
Proof.
  induction r as [|x r IH]; intros acc Hacc; cbn [extScan]; [now left|].
  unfold isPathSeparator.
  destruct (Ascii.eqb_spec x "/"%char) as [->|Hs]; [now left|].
  destruct (Ascii.eqb_spec x "."%char) as [->|Hd].
  - right. now exists acc.
  - apply IH. intros c [<-|Hc]; [now split|now apply Hacc].
Qed.

Lemma filepath_Ext_shape path :
  filepath_Ext path = [] \/
  exists e, filepath_Ext path = "."%char :: e /\
            (forall c, In c e -> c <> "/"%char /\ c <> "."%char).
Proof. apply extScan_shape. intros c []. Qed.

Lemma extScan_app r1 r2 :
  forall acc,
    (forall c, In c r1 -> c <> "/"%char /\ c <> "."%char) ->
    extScan (r1 ++ r2) acc = extScan r2 (rev r1 ++ acc).
Proof.
  induction r1 as [|x r1 IH]; intros acc Hr1; [reflexivity|].
  cbn [app extScan rev]. destruct (Hr1 x (or_introl eq_refl)) as [Hs Hd].
  rewrite (isPathSeparator_false _ Hs).
  destruct (Ascii.eqb_spec x "."%char) as [E|_]; [contradiction|].
  rewrite IH by (intros c Hc; apply Hr1; now right).
  now rewrite <- app_assoc.
Qed.

Lemma filepath_Ext_app (pre e : gostring) :
  (forall c, In c e -> c <> "/"%char /\ c <> "."%char) ->
  filepath_Ext (pre ++ "."%char :: e) = "."%char :: e.
Proof.
  intros He. unfold filepath_Ext.
  rewrite rev_app_distr. cbn [rev]. rewrite <- app_assoc. cbn [app].
  rewrite extScan_app by (intros c Hc; apply He; now apply in_rev).
  cbn [extScan]. rewrite rev_involutive, app_nil_r. reflexivity.
Qed.

Lemma takeWhile_app_stop (p : ascii -> bool) a b :
  (forall c, In c a -> p c = true) ->
  (b = [] \/ exists x b', b = x :: b' /\ p x = false) ->
  takeWhile p (a ++ b) = a.
Proof.
  intros Ha Hb. induction a as [|x a IH]; cbn [app takeWhile].
  - destruct Hb as [->|(y & b' & -> & Hy)]; [reflexivity|]. cbn. now rewrite Hy.
  - rewrite (Ha x) by now left. f_equal. apply IH. intros c Hc. apply Ha. now right.
Qed.

Lemma filepath_Base_tail (pre c : gostring) :
  c <> [] -> ~ In "/"%char c ->
  (pre = [] \/ exists p0, pre = p0 ++ ["/"%char]) ->
  filepath_Base (pre ++ c) = c.
Proof.
  intros Hne Hc Hpre. unfold filepath_Base.
  destruct (pre ++ c) as [|x t] eqn:E.
  { apply app_eq_nil in E. now destruct E. }
  rewrite <- E. clear E x t. rewrite rev_app_distr.
  destruct (rev c) as [|h rc] eqn:Erc.
  { exfalso. apply Hne. rewrite <- (rev_involutive c), Erc. reflexivity. }
  assert (Hrc : forall y, In y (h :: rc) -> negb (isPathSeparator y) = true).
  { intros y Hy. rewrite <- Erc in Hy. apply in_rev in Hy.
    rewrite isPathSeparator_false; [reflexivity|]. intros ->. contradiction. }
  cbn [app dropWhile].
  assert (Hh : isPathSeparator h = false).
  { specialize (Hrc h (or_introl eq_refl)). now destruct (isPathSeparator h). }
  rewrite Hh.
  change (h :: rc ++ rev pre) with ((h :: rc) ++ rev pre).
  rewrite takeWhile_app_stop.
  - rewrite <- Erc, rev_involutive. destruct c; [contradiction|reflexivity].
  - exact Hrc.
  - destruct Hpre as [->|(p0 & ->)]; [now left|].
    right. rewrite rev_app_distr. cbn. eexists _, _. split; reflexivity.
Qed.

Lemma splitElems_noslash c :
  ~ In "/"%char c -> forall cur, splitElems c cur = [rev cur ++ c].
Proof.
  induction c as [|x c IH]; intros Hc cur; cbn [splitElems].
  - now rewrite app_nil_r.
  - rewrite isPathSeparator_false by (intros ->; apply Hc; now left).
    rewrite IH by (intros Hin; apply Hc; now right).
    cbn [rev]. now rewrite <- app_assoc.
Qed.

Lemma splitElems_app_slash p c :
  ~ In "/"%char c ->
  forall cur, exists front, splitElems (p ++ "/"%char :: c) cur = front ++ [c].
Proof.
  intros Hc. induction p as [|x p IH]; intros cur; cbn [app splitElems].
  - change (isPathSeparator "/"%char) with true. cbv iota.
    exists [rev cur]. now rewrite splitElems_noslash.
  - destruct (isPathSeparator x).
    + destruct (IH []) as [front ->]. now exists (rev cur :: front).
    + apply IH.
Qed.

Lemma strings_Join_snoc l c sep :
  strings_Join (l ++ [c]) sep
  = match l with [] => c | _ => strings_Join l sep ++ sep ++ c end.
Proof.
  induction l as [|x l IH]; [reflexivity|].
  destruct l as [|y l]; [reflexivity|].
  change (strings_Join ((x :: y :: l) ++ [c]) sep)
    with (x ++ sep ++ strings_Join ((y :: l) ++ [c]) sep).
  rewrite IH.
  change (strings_Join (x :: y :: l) sep) with (x ++ sep ++ strings_Join (y :: l) sep).
  now rewrite <- !app_assoc.
Qed.

Lemma filepath_Clean_tail (p c : gostring) :
  c <> [] -> ~ In "/"%char c -> c <> gs "." -> c <> gs ".." ->
  exists pre,
    filepath_Clean (p ++ "/"%char :: c) = pre ++ c /\
    (pre = [] \/ exists p0, pre = p0 ++ ["/"%char]).
Proof.
  intros Hne Hc Hdot Hdots. unfold filepath_Clean.
  destruct (p ++ "/"%char :: c) as [|x t] eqn:E.
  { now destruct p. }
  rewrite <- E. clear E.
  destruct (splitElems_app_slash p c Hc []) as [front ->].
  rewrite fold_left_app. cbn [fold_left].
  set (stack := fold_left (cleanStep (isPathSeparator x)) front []).
  assert (Hstep : cleanStep (isPathSeparator x) stack c = c :: stack).
  { unfold cleanStep.
    rewrite (string_eqb_neq c []), (string_eqb_neq c (gs ".")), (string_eqb_neq c (gs ".."))
      by assumption.
    reflexivity. }
  rewrite Hstep. cbn [rev]. rewrite strings_Join_snoc.
  destruct (isPathSeparator x).
  - destruct (rev stack) as [|y l].
    + exists ["/"%char]. split; [reflexivity|]. right. now exists [].
    + exists ("/"%char :: strings_Join (y :: l) (gs "/") ++ gs "/"). split.
      * cbn [app]. now rewrite <- app_assoc.
      * right. exists ("/"%char :: strings_Join (y :: l) (gs "/")). reflexivity.
  - destruct (rev stack) as [|y l].
    + exists []. split; [|now left]. destruct c; [contradiction|reflexivity].
    + exists (strings_Join (y :: l) (gs "/") ++ gs "/"). split.
      * rewrite <- app_assoc.
        destruct (strings_Join (y :: l) (gs "/") ++ gs "/" ++ c) eqn:E; [|reflexivity].
        apply app_eq_nil in E. destruct E as [_ E]. discriminate.
      * right. now exists (strings_Join (y :: l) (gs "/")).
Qed.

Lemma dropWhile_stops (p : ascii -> bool) l :
  (exists c, In c l /\ p c = false) ->
  exists h t, dropWhile p l = h :: t /\ p h = false.
Proof.
  induction l as [|x l IH]; intros (c & Hin & Hc); [destruct Hin|].
  cbn [dropWhile]. destruct (p x) eqn:Hx.
  - apply IH. destruct Hin as [->|Hin]; [congruence|now exists c].
  - now exists x, l.
Qed.

Lemma In_takeWhile (p : ascii -> bool) l c : In c (takeWhile p l) -> p c = true.
Proof.
  induction l as [|x l IH]; cbn [takeWhile]; [intros []|].
  destruct (p x) eqn:Hx; [|intros []].
  intros [<-|Hin]; [assumption|now apply IH].
Qed.

Lemma filepath_Base_noslash path :
  (exists c, In c path /\ c <> "/"%char) -> ~ In "/"%char (filepath_Base path).
Proof.
  intros (c & Hin & Hc). unfold filepath_Base.
  destruct path as [|x t] eqn:E; [destruct Hin|]. rewrite <- E in *. clear E x t.
  destruct (dropWhile_stops isPathSeparator (rev path)) as (h & t & -> & Hh).
  { exists c. split; [now apply in_rev in Hin|now apply isPathSeparator_false]. }
  cbn [takeWhile]. rewrite Hh. cbn [negb rev].
  destruct (rev (takeWhile (fun c0 => negb (isPathSeparator c0)) t) ++ [h]) eqn:E.
  { now apply app_eq_nil in E. }
  rewrite <- E. intros Hs. apply in_app_or in Hs. destruct Hs as [Hs|[Hs|[]]].
  - apply in_rev, In_takeWhile in Hs. discriminate Hs.
  - rewrite Hs in Hh. discriminate Hh.
Qed.

Lemma TrimSuffix_app (a b : gostring) : TrimSuffix (a ++ b) b = a.
Proof.
  unfold TrimSuffix, HasSuffix. rewrite length_app.
  replace (length a + length b - length b)%nat with (length a) by lia.
  replace (length b <=? length a + length b)%nat with true
    by (symmetry; apply Nat.leb_le; lia).
  rewrite skipn_app, skipn_all, Nat.sub_diag, string_eqb_refl. cbn [andb app skipn].
  rewrite firstn_app, firstn_all, Nat.sub_diag. cbn. now rewrite app_nil_r.
Qed.

Lemma stem_noslash path :
  path = [] \/ (exists c, In c path /\ c <> "/"%char) -> ~ In "/"%char (stem path).
Proof.
  intros [->|Hpath].
  - intros [E|[]]. discriminate.
  - intros Hin. apply In_TrimSuffix in Hin. now apply (filepath_Base_noslash path).
Qed.

(** The last element the new path is built from. *)
Lemma newName_plain subtitlePath bestMatch :
  (2 <= length (filepath_Ext subtitlePath))%nat ->
  ~ In "/"%char (stem bestMatch) ->
  plainElem (stem bestMatch ++ filepath_Ext subtitlePath) /\
  exists e, filepath_Ext subtitlePath = "."%char :: e /\
            (forall c, In c e -> c <> "/"%char /\ c <> "."%char).
Proof.
  intros Hext Hstem.
  destruct (filepath_Ext_shape subtitlePath) as [E|(e & E & He)];
    rewrite E in Hext |- *; [cbn in Hext; lia|].
  split; [|now exists e].
  destruct e as [|e0 e]; [cbn in Hext; lia|].
  set (c := stem bestMatch ++ "."%char :: e0 :: e).
  assert (Hlast : In e0 c) by (apply in_or_app; right; right; now left).
  assert (He0 : e0 <> "."%char) by (apply He; now left).
  repeat split.
  - intros E'. rewrite E' in Hlast. destruct Hlast.
  - intros E'. rewrite E' in Hlast. destruct Hlast as [<-|[]]. now elim He0.
  - intros E'. rewrite E' in Hlast. destruct Hlast as [<-|[<-|[]]]; now elim He0.
  - intros Hin. apply in_app_or in Hin.
    destruct Hin as [Hin|[Hin|Hin]]; [contradiction|discriminate|now destruct (He _ Hin)].
Qed.

Lemma newSubtitlePathFor_name_stem subtitlePath bestMatch :
  (2 <= length (filepath_Ext subtitlePath))%nat ->
  ~ In "/"%char (stem bestMatch) ->
  filepath_Base (newSubtitlePathFor subtitlePath bestMatch)
  = stem bestMatch ++ filepath_Ext subtitlePath /\
  filepath_Ext (newSubtitlePathFor subtitlePath bestMatch) = filepath_Ext subtitlePath /\
  stem (newSubtitlePathFor subtitlePath bestMatch) = stem bestMatch.
Proof.
  intros Hext Hstem.
  destruct (newName_plain subtitlePath bestMatch Hext Hstem)
    as ((Hne & Hdot & Hdots & Hc) & e & E & He).
  set (c := stem bestMatch ++ filepath_Ext subtitlePath) in *.
  assert (Hnew : exists pre,
             newSubtitlePathFor subtitlePath bestMatch = pre ++ c /\
             (pre = [] \/ exists p0, pre = p0 ++ ["/"%char])).
  { unfold newSubtitlePathFor, filepath_Join. fold c.
    pose proof (filepath_Clean_nonempty
                  (rev (dropWhile (fun x => negb (isPathSeparator x)) (rev subtitlePath))))
      as Hd.
    fold (filepath_Dir subtitlePath) in Hd.
    destruct (filepath_Dir subtitlePath) as [|d0 d]; [contradiction|].
    change (strings_Join [d0 :: d; c] (gs "/")) with ((d0 :: d) ++ "/"%char :: c).
    now apply filepath_Clean_tail. }
  destruct Hnew as (pre & Hnew & Hpre).
  assert (HB : filepath_Base (newSubtitlePathFor subtitlePath bestMatch) = c)
    by (rewrite Hnew; now apply filepath_Base_tail).
  assert (HE : filepath_Ext (newSubtitlePathFor subtitlePath bestMatch)
               = filepath_Ext subtitlePath).
  { rewrite Hnew. unfold c. rewrite E, app_assoc. now apply filepath_Ext_app. }
  split; [exact HB|]. split; [exact HE|].
  unfold stem at 1. rewrite HB, HE. apply TrimSuffix_app.
Qed.

(** X25.  The new path [Match] computes names the subtitle after the video:
    when the video path has a byte other than "/" and the subtitle has an
    extension of at least one byte after the dot, the base name of the new
    path is the video's name without its extension followed by the
    subtitle's extension, so the new path keeps the subtitle's extension
    and, without it, carries the video's name. *)
Theorem newSubtitlePathFor_name (subtitlePath bestMatch : gostring) :
  (2 <= length (filepath_Ext subtitlePath))%nat ->
  (exists c, In c bestMatch /\ c <> "/"%char) ->
  filepath_Base (newSubtitlePathFor subtitlePath bestMatch)
  = stem bestMatch ++ filepath_Ext subtitlePath /\
  filepath_Ext (newSubtitlePathFor subtitlePath bestMatch) = filepath_Ext subtitlePath /\
  stem (newSubtitlePathFor subtitlePath bestMatch) = stem bestMatch.
Proof.
  intros Hext Hbest. apply newSubtitlePathFor_name_stem; [assumption|].
  apply stem_noslash. now right.
Qed.

Lemma newSubtitlePathFor_name_witness :
  filepath_Base (newSubtitlePathFor (gs "subs/en/How_to_code-zh.srt")
                                    (gs "/videos/How to code [x1].mkv"))
  = gs "How to code [x1].srt".
Proof.
  refine (proj1 (newSubtitlePathFor_name (gs "subs/en/How_to_code-zh.srt")
                   (gs "/videos/How to code [x1].mkv") _ _)).
  - cbn. lia.
  - exists "v"%char. split; [cbn; auto 10|discriminate].
Defined.

(** * The new path stays in the directory of the subtitle *)

Lemma cleanStep_plain rooted stack e : plainElem e -> cleanStep rooted stack e = e :: stack.
Proof.
  intros (H1 & H2 & H3 & _). unfold cleanStep.
  now rewrite (string_eqb_neq e []), (string_eqb_neq e (gs ".")), (string_eqb_neq e (gs ".."))
    by assumption.
Qed.

Lemma plainElem_dots : ~ plainElem (gs "..").
Proof. intros (_ & _ & H & _). now apply H. Qed.

Lemma cleanStep_good rooted stack e :
  ~ In "/"%char e -> goodStack rooted stack -> goodStack rooted (cleanStep rooted stack e).
Proof.
  intros He (rest & k & -> & Hrest & Hk). unfold cleanStep.
  destruct (string_eqb_spec e []) as [->|H1]; [now exists rest, k|].
  destruct (string_eqb_spec e (gs ".")) as [->|H2]; [now exists rest, k|].
  cbn [orb].
  destruct (string_eqb_spec e (gs "..")) as [->|H3].
  - destruct rest as [|x rest].
    + cbn [app]. destruct k as [|k].
      * cbn [repeat]. destruct rooted.
        -- exists [], 0%nat. repeat split; auto.
        -- exists [], 1%nat. repeat split; auto. discriminate.
      * cbn [repeat]. rewrite string_eqb_refl.
        exists [], (S (S k)). repeat split; auto.
        intros Hr. specialize (Hk Hr). discriminate.
    + cbn [app]. inversion Hrest as [|? ? Hx Hrest']; subst.
      destruct (string_eqb_spec x (gs "..")) as [->|_]; [now apply plainElem_dots in Hx|].
      now exists rest, k.
  - exists (e :: rest), k. repeat split; auto.
    constructor; [|assumption]. now repeat split.
Qed.

Lemma fold_cleanStep_good rooted l :
  (forall e, In e l -> ~ In "/"%char e) ->
  forall stack, goodStack rooted stack -> goodStack rooted (fold_left (cleanStep rooted) l stack).
Proof.
  induction l as [|e l IH]; intros Hl stack Hs; [assumption|].
  cbn [fold_left]. apply IH.
  - intros e' He'. apply Hl. now right.
  - apply cleanStep_good; [apply Hl; now left|assumption].
Qed.

Lemma splitElems_elems_noslash s :
  forall cur, ~ In "/"%char cur -> forall e, In e (splitElems s cur) -> ~ In "/"%char e.
Proof.
  induction s as [|x s IH]; intros cur Hcur e He; cbn [splitElems] in He.
  - destruct He as [<-|[]]. intros Hin. now apply in_rev in Hin.
  - unfold isPathSeparator in He. destruct (Ascii.eqb_spec x "/"%char) as [->|Hx].
    + destruct He as [<-|He].
      * intros Hin. now apply in_rev in Hin.
      * apply (IH [] (fun H => H) e He).
    + apply (IH (x :: cur)); [|assumption].
      intros [E|Hin]; [congruence|contradiction].
Qed.

Lemma splitElems_app_sep a b :
  forall cur, splitElems (a ++ "/"%char :: b) cur = splitElems a cur ++ splitElems b [].
Proof.
  induction a as [|x a IH]; intros cur; cbn [app splitElems].
  - reflexivity.
  - destruct (isPathSeparator x).
    + now rewrite IH.
    + apply IH.
Qed.

Lemma splitElems_Join elems :
  elems <> [] -> (forall e, In e elems -> ~ In "/"%char e) ->
  splitElems (strings_Join elems (gs "/")) [] = elems.
Proof.
  induction elems as [|e elems IH]; intros Hne Hall; [contradiction|].
  destruct elems as [|e' elems].
  - cbn [strings_Join]. rewrite splitElems_noslash by (apply Hall; now left). reflexivity.
  - change (strings_Join (e :: e' :: elems) (gs "/"))
      with (e ++ "/"%char :: strings_Join (e' :: elems) (gs "/")).
    rewrite splitElems_app_sep, splitElems_noslash by (apply Hall; now left).
    rewrite IH; [reflexivity|discriminate|].
    intros x Hx. apply Hall. now right.
Qed.

Lemma fold_cleanStep_plain rooted l :
  Forall plainElem l ->
  forall stack, fold_left (cleanStep rooted) l stack = rev l ++ stack.
Proof.
  induction 1 as [|e l He _ IH]; intros stack; [reflexivity|].
  cbn [fold_left rev]. rewrite cleanStep_plain by assumption.
  now rewrite IH, <- app_assoc.
Qed.

Lemma fold_cleanStep_dots k :
  fold_left (cleanStep false) (repeat (gs "..") k) [] = repeat (gs "..") k.
Proof.
  assert (Hgen : forall j, fold_left (cleanStep false) (repeat (gs "..") k) (repeat (gs "..") j)
                           = repeat (gs "..") (k + j)).
  { induction k as [|k IH]; intros j; [reflexivity|].
    cbn [repeat fold_left].
    replace (cleanStep false (repeat (gs "..") j) (gs ".."))
      with (repeat (gs "..") (S j)) by (destruct j; reflexivity).
    rewrite IH. f_equal. lia. }
  pose proof (Hgen 0%nat) as H0. cbn [repeat] in H0. rewrite H0. f_equal. lia.
Qed.

Lemma rev_repeat_dots k : rev (repeat (gs "..") k) = repeat (gs "..") k.
Proof.
  induction k as [|k IH]; [reflexivity|].
  cbn [repeat rev]. rewrite IH. symmetry. apply (repeat_cons k (gs "..")).
Qed.

(** Going through the elements of a good stack again rebuilds it. *)
Lemma fold_cleanStep_again rooted stack :
  goodStack rooted stack -> fold_left (cleanStep rooted) (rev stack) [] = stack.
Proof.
  intros (rest & k & -> & Hrest & Hk).
  rewrite rev_app_distr, rev_repeat_dots, fold_left_app.
  assert (Hdots : fold_left (cleanStep rooted) (repeat (gs "..") k) [] = repeat (gs "..") k).
  { destruct rooted; [rewrite (Hk eq_refl); reflexivity|apply fold_cleanStep_dots]. }
  rewrite Hdots, fold_cleanStep_plain by (now apply Forall_rev).
  now rewrite rev_involutive.
Qed.

Lemma goodStack_elems rooted stack e :
  goodStack rooted stack -> In e stack -> e <> [] /\ ~ In "/"%char e.
Proof.
  intros (rest & k & -> & Hrest & _) Hin. apply in_app_or in Hin.
  destruct Hin as [Hin|Hin].
  - rewrite Forall_forall in Hrest. destruct (Hrest e Hin) as (H1 & _ & _ & H4). now split.
  - apply repeat_spec in Hin. subst e. split; [discriminate|].
    intros [E|[E|[]]]; discriminate.
Qed.

Lemma strings_Join_head e (l : list gostring) x t sep :
  e = x :: t -> exists t', strings_Join (e :: l) sep = x :: t'.
Proof.
  intros ->. destruct l as [|e' l]; cbn [strings_Join app]; eexists; reflexivity.
Qed.

(** The first byte of a cleaned path tells whether it is rooted. *)
Lemma render_head rooted stack :
  goodStack rooted stack ->
  exists x t, render rooted stack = x :: t /\ isPathSeparator x = rooted.
Proof.
  intros Hgood. unfold render. destruct rooted; [eexists _, _; split; reflexivity|].
  destruct (rev stack) as [|e l] eqn:Erev.
  - cbn. eexists _, _. split; reflexivity.
  - assert (Hin : In e stack) by (apply in_rev; rewrite Erev; now left).
    destruct (goodStack_elems _ _ _ Hgood Hin) as [Hne Hslash].
    destruct e as [|x t]; [contradiction|].
    destruct (strings_Join_head (x :: t) l x t (gs "/") eq_refl) as [t' ->].
    exists x, t'. split; [reflexivity|].
    apply isPathSeparator_false. intros ->. apply Hslash. now left.
Qed.

(** Cleaning a cleaned path goes through the elements of its stack. *)
Lemma fold_splitElems_render rooted stack tail :
  goodStack rooted stack ->
  fold_left (cleanStep rooted) (splitElems (render rooted stack ++ "/"%char :: tail) []) []
  = fold_left (cleanStep rooted) (splitElems tail []) stack.
Proof.
  intros Hgood. rewrite splitElems_app_sep, fold_left_app. f_equal.
  assert (Hno : forall e, In e (rev stack) -> ~ In "/"%char e).
  { intros e He. apply in_rev in He. now apply (goodStack_elems _ _ _ Hgood He). }
  unfold render. destruct (rev stack) as [|e l] eqn:Erev.
  - assert (stack = []) as -> by (rewrite <- (rev_involutive stack), Erev; reflexivity).
    destruct rooted; reflexivity.
  - assert (Hsplit : splitElems (strings_Join (e :: l) (gs "/")) [] = e :: l)
      by (apply splitElems_Join; [discriminate|assumption]).
    assert (Hfold : fold_left (cleanStep rooted) (e :: l) [] = stack)
      by (rewrite <- Erev; now apply fold_cleanStep_again).
    destruct rooted.
    + cbn [splitElems]. change (isPathSeparator "/"%char) with true. cbv iota.
      rewrite Hsplit. exact Hfold.
    + assert (Hin : In e stack) by (apply in_rev; rewrite Erev; now left).
      destruct (goodStack_elems _ _ _ Hgood Hin) as [Hne _].
      destruct e as [|x t]; [contradiction|].
      destruct (strings_Join_head (x :: t) l x t (gs "/") eq_refl) as [t' Et].
      rewrite Et in Hsplit |- *. rewrite Hsplit. exact Hfold.
Qed.

Lemma filepath_Clean_render rooted stack c :
  goodStack rooted stack -> plainElem c ->
  filepath_Clean (render rooted stack ++ "/"%char :: c) = render rooted (c :: stack).
Proof.
  intros Hgood Hc.
  destruct (render_head rooted stack Hgood) as (x & t & Er & Hx).
  unfold filepath_Clean at 1.
  destruct (render rooted stack ++ "/"%char :: c) as [|y u] eqn:E.
  { rewrite Er in E. discriminate. }
  assert (y = x) as -> by (rewrite Er in E; now injection E).
  rewrite <- E, Hx. clear E.
  rewrite fold_splitElems_render by assumption.
  destruct Hc as (H1 & H2 & H3 & H4).
  rewrite splitElems_noslash by assumption. cbn [rev app fold_left].
  rewrite cleanStep_plain by (now repeat split).
  reflexivity.
Qed.

Lemma dropWhile_app_all (p : ascii -> bool) a b :
  (forall c, In c a -> p c = true) -> dropWhile p (a ++ b) = dropWhile p b.
Proof.
  intros Ha. induction a as [|x a IH]; [reflexivity|].
  cbn [app dropWhile]. rewrite (Ha x) by now left.
  apply IH. intros c Hc. apply Ha. now right.
Qed.

Lemma filepath_Dir_tail (pre c : gostring) :
  ~ In "/"%char c -> (pre = [] \/ exists p0, pre = p0 ++ ["/"%char]) ->
  filepath_Dir (pre ++ c) = filepath_Clean pre.
Proof.
  intros Hc Hpre. unfold filepath_Dir. f_equal.
  rewrite rev_app_distr, dropWhile_app_all.
  - destruct Hpre as [->|(p0 & ->)]; [reflexivity|].
    rewrite rev_app_distr. cbn [rev app dropWhile].
    change (isPathSeparator "/"%char) with true. cbn [negb].
    cbn [rev]. now rewrite rev_involutive.
  - intros x Hx. apply in_rev in Hx. rewrite isPathSeparator_false; [reflexivity|].
    intros ->. contradiction.
Qed.

Lemma filepath_Clean_render_slash rooted stack :
  goodStack rooted stack -> stack <> [] ->
  filepath_Clean (render rooted stack ++ ["/"%char]) = render rooted stack.
Proof.
  intros Hgood Hne.
  destruct (render_head rooted stack Hgood) as (x & t & Er & Hx).
  unfold filepath_Clean at 1.
  destruct (render rooted stack ++ ["/"%char]) as [|y u] eqn:E.
  { rewrite Er in E. discriminate. }
  assert (y = x) as -> by (rewrite Er in E; now injection E).
  rewrite <- E, Hx. clear E.
  rewrite fold_splitElems_render by assumption. cbn [splitElems rev fold_left].
  reflexivity.
Qed.

Lemma filepath_Dir_render rooted stack c :
  goodStack rooted stack -> plainElem c ->
  filepath_Dir (render rooted (c :: stack)) = render rooted stack.
Proof.
  intros Hgood (H1 & H2 & H3 & H4).
  destruct (rev stack) as [|e l] eqn:Erev.
  - assert (stack = []) as -> by (rewrite <- (rev_involutive stack), Erev; reflexivity).
    unfold render. cbn [rev app strings_Join].
    destruct rooted.
    + change ("/"%char :: c) with (["/"%char] ++ c).
      rewrite filepath_Dir_tail; [reflexivity|assumption|right; now exists []].
    + destruct c as [|c0 c]; [contradiction|].
      change (c0 :: c) with ([] ++ c0 :: c).
      rewrite filepath_Dir_tail; [reflexivity|assumption|now left].
  - assert (Hne : stack <> []) by (intros ->; discriminate).
    assert (Er : render rooted (c :: stack) = (render rooted stack ++ ["/"%char]) ++ c).
    { unfold render. cbn [rev]. rewrite strings_Join_snoc, Erev.
      assert (Hin : In e stack) by (apply in_rev; rewrite Erev; now left).
      destruct (goodStack_elems _ _ _ Hgood Hin) as [He _].
      destruct e as [|x t]; [contradiction|].
      destruct (strings_Join_head (x :: t) l x t (gs "/") eq_refl) as [t' Et].
      rewrite Et. destruct rooted; cbn [app]; now rewrite <- ?app_assoc. }
    rewrite Er, filepath_Dir_tail; [|assumption|right; now eexists].
    now apply filepath_Clean_render_slash.
Qed.

(** Every cleaned path is the rendering of a good stack. *)
Lemma filepath_Clean_good path :
  exists rooted stack, goodStack rooted stack /\ filepath_Clean path = render rooted stack.
Proof.
  destruct path as [|x t] eqn:E.
  - exists false, []. split; [|reflexivity]. exists [], 0%nat. repeat split; auto.
  - rewrite <- E. exists (isPathSeparator x), (fold_left (cleanStep (isPathSeparator x))
                                                 (splitElems path []) []).
    split.
    + apply fold_cleanStep_good.
      * apply splitElems_elems_noslash. intros [].
      * exists [], 0%nat. repeat split; auto.
    + rewrite E. reflexivity.
Qed.

Lemma newSubtitlePathFor_dir_stem subtitlePath bestMatch :
  (2 <= length (filepath_Ext subtitlePath))%nat ->
  ~ In "/"%char (stem bestMatch) ->
  filepath_Dir (newSubtitlePathFor subtitlePath bestMatch) = filepath_Dir subtitlePath.
Proof.
  intros Hext Hstem.
  destruct (newName_plain subtitlePath bestMatch Hext Hstem) as (Hc & _).
  set (c := stem bestMatch ++ filepath_Ext subtitlePath) in *.
  unfold filepath_Dir at 2.
  destruct (filepath_Clean_good
              (rev (dropWhile (fun x => negb (isPathSeparator x)) (rev subtitlePath))))
    as (rooted & stack & Hgood & Hd).
  assert (Hnew : newSubtitlePathFor subtitlePath bestMatch = render rooted (c :: stack)).
  { unfold newSubtitlePathFor, filepath_Join. fold c. unfold filepath_Dir. rewrite Hd.
    destruct (render_head rooted stack Hgood) as (x & t & Er & _).
    rewrite Er.
    change (strings_Join [x :: t; c] (gs "/")) with ((x :: t) ++ "/"%char :: c).
    rewrite <- Er. now apply filepath_Clean_render. }
  rewrite Hnew, Hd. now apply filepath_Dir_render.
Qed.

(** X26.  The new path [Match] computes lies in the directory of the
    subtitle: under the conditions of the naming property, its directory is
    the directory of the subtitle path. *)
Theorem newSubtitlePathFor_same_directory (subtitlePath bestMatch : gostring) :
  (2 <= length (filepath_Ext subtitlePath))%nat ->
  (exists c, In c bestMatch /\ c <> "/"%char) ->
  filepath_Dir (newSubtitlePathFor subtitlePath bestMatch) = filepath_Dir subtitlePath.
Proof.
  intros Hext Hbest. apply newSubtitlePathFor_dir_stem; [assumption|].
  apply stem_noslash. now right.
Qed.

Lemma newSubtitlePathFor_same_directory_witness :
  filepath_Dir (newSubtitlePathFor (gs "../subs//en/x/../How_to_code-zh.srt")
                                   (gs "/videos/How to code [x1].mkv"))
  = gs "../subs/en".
Proof.
  apply (newSubtitlePathFor_same_directory (gs "../subs//en/x/../How_to_code-zh.srt")
           (gs "/videos/How to code [x1].mkv")).
  - cbn. lia.
  - exists "v"%char. split; [cbn; auto 10|discriminate].
Defined.

(** A score of 0.0 is not accepted by a threshold above 0.0. *)
Lemma f64_zero_below_positive (t : float64) :
  f64_gt t f64_zero = true -> f64_ge f64_zero t = false.
Proof. destruct t as [[]|[]| |[] m e]; cbn; congruence. Qed.

Section RenamesInPlace.
Context `{Unicode} `{FileSystem}.

(** X27.  Every call of [os.Rename] that [Match] issues renames one of the
    scanned subtitles within its directory and keeps its extension; the new
    name is the base name, without the extension, of the path
    [findBestMatch] returned for the subtitle, whose score is at least the
    threshold.  That path is a scanned video scoring above 0.0, or, when
    0.0 is at least the threshold and no scanned video scores above 0.0,
    the empty path: the subtitle is then renamed to a dot followed by its
    extension.  With a threshold above 0.0 the path is always a scanned
    video.  This holds when every scanned subtitle has an extension of at
    least one byte after the dot and no scanned video path is made of "/"
    only. *)
Theorem Match_renames_in_place (vsm : VideoSubtitleMatcher) (w : World) :
  (forall s, In s (snd (fst (scanFiles vsm w))) -> (2 <= length (filepath_Ext s))%nat) ->
  (forall v, In v (fst (fst (scanFiles vsm w))) -> exists c, In c v /\ c <> "/"%char) ->
  Forall (fun call =>
            In (fst call) (snd (fst (scanFiles vsm w))) /\
            filepath_Dir (snd call) = filepath_Dir (fst call) /\
            filepath_Ext (snd call) = filepath_Ext (fst call) /\
            stem (snd call)
            = stem (fst (findBestMatch (fst call) (fst (fst (scanFiles vsm w))))) /\
            f64_ge (snd (findBestMatch (fst call) (fst (fst (scanFiles vsm w)))))
                   (similarityThreshold vsm) = true /\
            ((In (fst (findBestMatch (fst call) (fst (fst (scanFiles vsm w)))))
                 (fst (fst (scanFiles vsm w))) /\
              f64_gt (snd (findBestMatch (fst call) (fst (fst (scanFiles vsm w)))))
                     f64_zero = true) \/
             (findBestMatch (fst call) (fst (fst (scanFiles vsm w))) = ([], f64_zero) /\
              f64_ge f64_zero (similarityThreshold vsm) = true /\
              (forall v, In v (fst (fst (scanFiles vsm w))) ->
                         f64_gt (videoScore (fst call) v) f64_zero = false) /\
              stem (snd call) = gs "." /\
              filepath_Base (snd call) = gs "." ++ filepath_Ext (fst call))) /\
            (f64_gt (similarityThreshold vsm) f64_zero = true ->
             In (fst (findBestMatch (fst call) (fst (fst (scanFiles vsm w)))))
                (fst (fst (scanFiles vsm w)))))
         (snd (Match vsm w)).
Proof.
  intros Hsubs Hvideos.
  destruct (dryRun vsm) eqn:Hd.
  { destruct (Match_dry_frame vsm w Hd) as [_ ->]. constructor. }
  destruct (scanFiles vsm w) as [[videos subs] [err|]] eqn:Hscan; cbn [fst snd] in *.
  { rewrite (Match_scan_failed _ _ _ _ _ Hscan). constructor. }
  rewrite (Match_scanned _ _ _ _ Hscan). cbn [fst snd].
  destruct (Match_loop_renames vsm videos subs Hd (initialState w)) as [-> _].
  cbn [initialState renames app].
  apply Forall_forall. intros call Hcall.
  apply in_map_iff in Hcall. destruct Hcall as (s & <- & Hs).
  apply filter_In in Hs. destruct Hs as [Hs Hren]. cbn [fst snd].
  unfold toRename in Hren. apply andb_prop in Hren. destruct Hren as [Hacc _].
  unfold accepted in Hacc.
  assert (Hstem : ~ In "/"%char (stem (fst (findBestMatch s videos)))).
  { apply stem_noslash.
    destruct (findBestMatch_bestOf s videos) as [_ [[-> _]|(Hin & _)]];
      [now left|right; now apply Hvideos]. }
  destruct (newSubtitlePathFor_name_stem s (fst (findBestMatch s videos)) (Hsubs s Hs) Hstem)
    as (HB & HE & HS).
  fold (targetPath videos s) in HB, HE, HS.
  split; [assumption|].
  split; [now apply newSubtitlePathFor_dir_stem; [apply Hsubs|]|].
  split; [assumption|]. split; [assumption|]. split; [assumption|].
  destruct (findBestMatch_bestOf s videos) as [Hmax [[Hb Hz]|(Hin & Hsc & Hpos)]].
  - split.
    + right. split; [now apply injective_projections|].
      rewrite Hz in Hacc, Hmax. split; [assumption|]. split; [assumption|].
      rewrite HS, HB, Hb. now split.
    + intros Hthr. apply f64_zero_below_positive in Hthr. rewrite Hz in Hacc. congruence.
  - split; [left; now split|]. intros _. assumption.
Qed.

End RenamesInPlace.

Lemma Match_renames_in_place_witness :
  Forall (fun call =>
            In (fst call) [gs "/v/en/a_b.srt"; gs "/v/c.srt"] /\
            filepath_Dir (snd call) = filepath_Dir (fst call) /\
            filepath_Ext (snd call) = filepath_Ext (fst call) /\
            stem (snd call)
            = stem (fst (@findBestMatch caselessUnicode (fst call) [gs "/v/a b.mkv"])) /\
            In (fst (@findBestMatch caselessUnicode (fst call) [gs "/v/a b.mkv"]))
               [gs "/v/a b.mkv"])
         (snd (@Match caselessUnicode memFS (New (gs "/v") [DryRun false])
                      (memDisk [gs "/v/en/a_b.srt"; gs "/v/a b.mkv"; gs "/v/c.srt"] false))) /\
  snd (@Match caselessUnicode memFS (New (gs "/v") [DryRun false; SimilarityThreshold f64_zero])
              (memDisk [gs "/v/a.srt"; gs "/v/b.mkv"] false))
  = [(gs "/v/a.srt", gs "/v/..srt")].
Proof.
  split; [|reflexivity].
  assert (Hs : forall s, In s [gs "/v/en/a_b.srt"; gs "/v/c.srt"] ->
                         (2 <= length (filepath_Ext s))%nat)
    by (intros s [<-|[<-|[]]]; cbn; lia).
  assert (Hv : forall v, In v [gs "/v/a b.mkv"] -> exists c, In c v /\ c <> "/"%char)
    by (intros v [<-|[]]; exists "v"%char; split; [cbn; auto 10|discriminate]).
  pose proof (@Match_renames_in_place caselessUnicode memFS (New (gs "/v") [DryRun false])
                (memDisk [gs "/v/en/a_b.srt"; gs "/v/a b.mkv"; gs "/v/c.srt"] false)
                Hs Hv) as Hall.
  eapply Forall_impl; [|exact Hall].
  intros call (H1 & H2 & H3 & H4 & _ & _ & H7).
  repeat split; try assumption. apply H7. reflexivity.
Defined.

(** ** The further properties on the in-memory file system *)

Example float64_literals_0_7_0_8 :
  f64_0_7 = f64_div (f64_of_int 7) (f64_of_int 10) /\
  f64_0_8 = f64_div (f64_of_int 4) (f64_of_int 5).
Proof. split; reflexivity. Qed.

Lemma Match_renames_exact_witness :
  snd (@Match caselessUnicode memFS (New (gs ".") [DryRun false])
              (memDisk [gs "a_b.srt"; gs "a b.mkv"; gs "c.srt"; gs "a b.ass"] false))
  = [(gs "a_b.srt", gs "a b.srt")].
Proof.
  refine (proj1 (@Match_renames_exact caselessUnicode memFS
                   (New (gs ".") [DryRun false])
                   (memDisk [gs "a_b.srt"; gs "a b.mkv"; gs "c.srt"; gs "a b.ass"] false)
                   [gs "a b.mkv"] [gs "a_b.srt"; gs "c.srt"; gs "a b.ass"]
                   eq_refl eq_refl)).
Defined.

Lemma Match_one_result_per_subtitle_witness :
  map SubtitlePath
      (fst (fst (fst (@Match caselessUnicode memFS (New (gs ".") [])
                             (memDisk [gs "a.srt"; gs "a.mkv"; gs "b_x.srt"; gs "b x.mkv"]
                                      false)))))
  = [gs "a.srt"; gs "b_x.srt"].
Proof.
  refine (proj2 (@Match_one_result_per_subtitle caselessUnicode memFS
                   (New (gs ".") [])
                   (memDisk [gs "a.srt"; gs "a.mkv"; gs "b_x.srt"; gs "b x.mkv"] false)
                   [gs "a.mkv"; gs "b x.mkv"] [gs "a.srt"; gs "b_x.srt"] eq_refl) eq_refl).
Defined.

Lemma main_dry_run_safe_witness :
  renameCalls (@main caselessUnicode memFS (fun _ => gs "read-only file system")
                     (fun _ _ => false) [gs "subtitle-matcher"; gs "."]
                     (memDisk [gs "a_b.srt"; gs "a b.mkv"] false))
  = [].
Proof.
  refine (proj1 (proj1 (@main_dry_run_safe caselessUnicode memFS
                          (fun _ => gs "read-only file system") (fun _ _ => false)
                          [gs "subtitle-matcher"; gs "."]
                          (memDisk [gs "a_b.srt"; gs "a b.mkv"] false) eq_refl))).
Defined.
